(** * PKFX_Tools: noise fields, sprite fields, animation and atlas packing

    A shallow embedding of the field engine of the two tools of the
    repository:

    - [tools/makesomenoise/.../noise_generator_gui.py]: [NoiseGenerator]
      (noise fields, seamless tiling), [NoiseWorker] ([run],
      [blend_noise]) and, of [NoiseGeneratorGUI], the composite of the
      two layers, the frames of an export, the atlas grid and the
      placement of the frames, the versioned file and folder names and
      the names of the files of a sequence;
    - [tools/fxspritemaker/.../sprite_generator.py]: [SpriteGenerator];
    - [tools/fxspritemaker/.../sprite_generator_gui.py]: of
      [SpriteGeneratorGUI], the atlas layout, the atlas export, the
      parameter and colour animation of the frames and the versioned
      file name.

    Number model.  Python integers are [Z] (or [nat] for sizes and loop
    indices).  The noise path computes with Python floats whose properties
    of interest are algebraic identities and bounds; it is embedded over
    exact rationals [Q] (rounding is abstracted, a raised
    [ZeroDivisionError] / [KeyError] / [ValueError] is [None]).  The sprite
    path is embedded over IEEE-754 binary64 ([PrimFloat]), because what is
    observed there is the behaviour of numpy on division by zero, on NaN
    and on the cast to [uint8].  The layer blender and the animator, of
    which exact equalities are specified, are written once over an
    arithmetic interface and run over both.  The boundary values of the
    animator are proved over binary64, from the IEEE-754 specification
    of the operations; the identities and bounds of the blender are
    proved over [Q] and evaluated over binary64 on the pixel values
    [k / 100], and are stated for the modes where the two agree.

    External collaborators ([noise.pnoise3], [OpenSimplex.noise3],
    [PerlinNoise], [**], [random], [np.cos], [np.sin], [np.power],
    [gaussian_filter], [os.path.exists], [os.path.splitext],
    [os.path.basename], the rendering of one frame of a sprite atlas)
    are section variables. *)

From Stdlib Require Import ZArith QArith Qround Qminmax Qabs Lqa Lia.
From Stdlib Require Import Floats.
From Stdlib Require Import Strings.String Strings.Ascii List DecimalString.
From stdpp Require Import gmap strings.
Import ListNotations.

Set Warnings "-inexact-float".

(* ================================================================== *)
(** * Part I: the model *)
(* ================================================================== *)

(** ** Python numbers over [Q] *)

Module Py.

Local Open Scope Q_scope.

(** [int(x)] on a float: truncation toward zero. *)
Definition int (x : Q) : Z := Z.quot (Qnum x) (Zpos (Qden x)).

(** [a < b] and [a == b] on floats, as booleans. *)
Definition ltb (a b : Q) : bool := negb (Qle_bool b a).
Definition eqb (a b : Q) : bool := Qeq_bool a b.

(** Truthiness of a number: [if x:]. *)
Definition truthy (x : Q) : bool := negb (Qeq_bool x 0).

(** [a / b] on Python floats raises [ZeroDivisionError] when [b == 0]. *)
Definition div (a b : Q) : option Q :=
  if Qeq_bool b 0 then None else Some (a / b).

(** [np.clip(v, lo, hi)] on finite values. *)
Definition clip (v lo hi : Q) : Q := Qmin (Qmax v lo) hi.

(** [math.ceil(math.sqrt(n))] for an integer [n >= 0]: the least [c]
    with [n <= c*c]. *)
Definition ceil_sqrt (n : Z) : Z :=
  let s := Z.sqrt n in if (s * s =? n)%Z then s else (s + 1)%Z.

(** [math.ceil(n / c)] for integers, [c <> 0]. *)
Definition ceil_div (n c : Z) : Z := (- ((- n) / c))%Z.

End Py.

(** ** numpy and Python floats over binary64 *)

Module Np.

Local Open Scope float_scope.

(** An integer converted to a float (exact below [2^53]). *)
Definition of_Z (z : Z) : float :=
  if (z <? 0)%Z then - PrimFloat.of_uint63 (Uint63.of_Z (- z))
  else PrimFloat.of_uint63 (Uint63.of_Z z).

Definition of_nat (n : nat) : float := of_Z (Z.of_nat n).

(** A float that is neither nan nor an infinity. *)
Definition finite (x : float) : Prop :=
  match Prim2SF x with
  | S754_zero _ | S754_finite _ _ _ => True
  | _ => False
  end.

(** The mantissa of [float(p)] for an integer [0 < p < 2^53]: the bits
    of [p], shifted left until they are 53. *)
Definition normal (p : positive) : positive :=
  match (Zpos (digits2_pos p) - 53)%Z with
  | Zneg n => Pos.iter xO p n
  | _ => p
  end.

(** [math.floor(f)]; nan and the infinities raise. *)
Definition floor (f : float) : option Z :=
  match Prim2SF f with
  | S754_zero _ => Some 0%Z
  | S754_finite s m e =>
      let v := if s then Z.neg m else Z.pos m in
      Some (if (0 <=? e)%Z then v * 2 ^ e else v / 2 ^ (- e))%Z
  | _ => None
  end.

(** [math.ceil(f)] *)
Definition ceil (f : float) : option Z := option_map Z.opp (floor (- f)).

(** [int(f)]: truncation toward zero; nan and the infinities raise. *)
Definition int (f : float) : option Z :=
  if f <? 0 then ceil f else floor f.

(** [np.maximum] and [np.minimum] propagate nan. *)
Definition maximum (a b : float) : float :=
  if is_nan a then a else if is_nan b then b else if a <? b then b else a.

Definition minimum (a b : float) : float :=
  if is_nan a then a else if is_nan b then b else if b <? a then b else a.

(** [np.clip(v, lo, hi)] *)
Definition clip (v lo hi : float) : float := minimum (maximum v lo) hi.

(** [(cond).astype(float)] *)
Definition of_bool (b : bool) : float := if b then 1 else 0.

(** Truthiness of a number: [if x:]. *)
Definition truthy (f : float) : bool := negb (f =? 0).

(** [np.pi] and [np.radians(deg)] *)
Definition pi : float := 0x1.921fb54442d18p+1.
Definition radians (deg : float) : float := deg * (pi / 180).

(** [a.astype(np.uint8)] at one element, as the C conversion numpy
    compiles to on x86-64: the value is truncated to a 32-bit integer
    (nan, the infinities and values out of its range give the integer
    indefinite [-2^31]) and the low byte is kept.  No clamping takes
    place. *)
Definition astype_uint8 (f : float) : Z :=
  match int f with
  | Some z =>
      if ((- 2 ^ 31 <=? z) && (z <? 2 ^ 31))%Z then (z mod 256)%Z else 0%Z
  | None => 0%Z
  end.

End Np.

(** ** One arithmetic, two number types *)

Module Num.

(** The float arithmetic of the layer blender and of the animator, whose
    specified properties are exact equalities.  They are written once
    over this interface and run over exact rationals and over binary64,
    where the interpreter computes. *)
Class FloatArith (F : Type) := {
  num : Z -> F;
  half : F;
  add : F -> F -> F;
  sub : F -> F -> F;
  mul : F -> F -> F;
  div : F -> F -> F;
  ltb : F -> F -> bool;
  leb : F -> F -> bool;
  minimum : F -> F -> F;
  maximum : F -> F -> F
}.

#[export] Instance exact : FloatArith Q := {|
  num := inject_Z;
  half := 1 # 2;
  add := Qplus;
  sub := Qminus;
  mul := Qmult;
  div := Qdiv;
  ltb := Py.ltb;
  leb := Qle_bool;
  minimum := Qmin;
  maximum := Qmax
|}.

#[export] Instance binary64 : FloatArith float := {|
  num := Np.of_Z;
  half := 0.5%float;
  add := PrimFloat.add;
  sub := PrimFloat.sub;
  mul := PrimFloat.mul;
  div := PrimFloat.div;
  ltb := PrimFloat.ltb;
  leb := PrimFloat.leb;
  minimum := Np.minimum;
  maximum := Np.maximum
|}.

End Num.

(** ** Atlas layout *)

Module Atlas.

Local Open Scope Z_scope.

(** [SpriteGeneratorGUI.auto_calculate_atlas_layout]: the new
    [(atlas_cols, atlas_rows)] from the combo box text, the frame count
    and the current pair.  [math.sqrt] of a negative number and the
    division by [cols = 0] raise. *)
Definition auto_calculate_atlas_layout
    (mode : string) (frame_count : Z) (current : Z * Z) : option (Z * Z) :=
  if String.eqb mode "Manual" then Some current
  else if String.eqb mode "Row Only" then Some (frame_count, 1)
  else if String.eqb mode "Column Only" then Some (1, frame_count)
  else
    if frame_count <? 0 then None
    else
      let sqrt_frames := Py.ceil_sqrt frame_count in
      let cols := sqrt_frames in
      if cols =? 0 then None
      else
        let rows := Py.ceil_div frame_count cols in
        Some (cols, rows).

(** The grid of [NoiseGeneratorGUI.export_atlas]:
    [cols = int(np.ceil(np.sqrt(num_frames)))],
    [rows = int(np.ceil(num_frames / cols))].  [np.sqrt] of a negative
    number is nan, on which [int] raises, and zero frames divide by
    [cols = 0]. *)
Definition export_atlas_grid (num_frames : Z) : option (Z * Z) :=
  if num_frames <=? 0 then None
  else
    let cols := Py.ceil_sqrt num_frames in
    let rows := Py.ceil_div num_frames cols in
    Some (cols, rows).

(** Cell of frame [i] in [export_atlas]: [row = i // cols],
    [col = i % cols]. *)
Definition frame_cell (i cols : Z) : Z * Z := (i mod cols, i / cols).

(** The same layout computed with binary64 arithmetic, as the
    interpreter does: [math.sqrt] and [/] are correctly rounded, and
    [math.ceil] is exact. *)
Definition auto_square_float (frame_count : Z) : option (Z * Z) :=
  match Np.ceil (PrimFloat.sqrt (Np.of_Z frame_count)) with
  | Some cols =>
      if cols =? 0 then None
      else
        match Np.ceil (PrimFloat.div (Np.of_Z frame_count)
                                        (Np.of_Z cols)) with
        | Some rows => Some (cols, rows)
        | None => None
        end
  | None => None
  end.

End Atlas.

(** ** Sequence file names *)

Module Naming.

Local Open Scope nat_scope.

Definition digit_char (d : nat) : ascii := ascii_of_nat (48 + d).

(** [str(n)] for a non-negative integer: its decimal digits. *)
Fixpoint str_fuel (fuel n : nat) : string :=
  match fuel with
  | O => EmptyString
  | S fuel' =>
      if n <? 10 then String (digit_char n) EmptyString
      else (str_fuel fuel' (n / 10)
              ++ String (digit_char (n mod 10)) EmptyString)%string
  end.

Definition str (n : nat) : string := str_fuel (S n) n.

Fixpoint zeros (k : nat) : string :=
  match k with
  | O => EmptyString
  | S k' => String "0"%char (zeros k')
  end.

(** The format [{i:0{width}d}] for [i >= 0]: at least [width]
    characters, filled with zeros on the left. *)
Definition format_0d (i width : nat) : string :=
  (zeros (width - String.length (str i)) ++ str i)%string.

(** [padding_width = len(str(num_frames))] of
    [NoiseGeneratorGUI.export_sequence]. *)
Definition padding_width (num_frames : nat) : nat :=
  String.length (str num_frames).

(** [frame_filename =
      f"{frame_prefix}_frame_{i:0{padding_width}d}.png"]. *)
Definition frame_filename (frame_prefix : string) (num_frames i : nat)
    : string :=
  (frame_prefix ++ "_frame_"
     ++ format_0d i (padding_width num_frames) ++ ".png")%string.

(** The names written by the export loop, [for i in range(num_frames)]. *)
Definition sequence_filenames (frame_prefix : string) (num_frames : nat)
    : list string :=
  map (frame_filename frame_prefix num_frames) (seq 0 num_frames).

(** [s.replace(' ', '')] and [s.lower()] (on ASCII letters). *)
Fixpoint remove_spaces (s : string) : string :=
  match s with
  | EmptyString => EmptyString
  | String c s' =>
      if Ascii.eqb c " "%char then remove_spaces s'
      else String c (remove_spaces s')
  end.

Definition lower_char (c : ascii) : ascii :=
  let n := nat_of_ascii c in
  if (65 <=? n) && (n <=? 90) then ascii_of_nat (n + 32) else c.

Fixpoint lower (s : string) : string :=
  match s with
  | EmptyString => EmptyString
  | String c s' => String (lower_char c) (lower s')
  end.

(** The prefix [export_sequence] builds: the noise type of layer A, that
    of layer B unless it is ["None"], and the version suffix of the
    folder ([folder_basename.split('_')[-1]]), joined by underscores. *)
Definition frame_prefix (noise_type_a noise_type_b version_suffix : string)
    : string :=
  let part_a := lower (remove_spaces noise_type_a) in
  let parts :=
    if String.eqb noise_type_b "None" then part_a
    else (part_a ++ "_" ++ lower (remove_spaces noise_type_b))%string in
  (parts ++ "_" ++ version_suffix)%string.

(** The claim as the specification words it: the index padded to
    [len(str(frameCount - 1))] digits. *)
Definition spec_frame_filename (frame_prefix : string) (num_frames i : nat)
    : string :=
  (frame_prefix ++ "_frame_"
     ++ format_0d i (String.length (str (num_frames - 1))) ++ ".png")%string.

End Naming.

(** ** Noise fields: [NoiseGenerator] *)

Module Noise.

Local Open Scope Q_scope.

(** A 2-D numpy array of floats is a list of rows of equal length; a
    parameter bag is a dict from names to numbers ([False] is [0],
    [True] is [1], as in Python). *)
Abbreviation Field := (list (list Q)).
Abbreviation params := (gmap string Q).

Definition shape (a : Field) : nat * nat := (length a, length (hd [] a)).

(** [a[y, x]] *)
Definition get (a : Field) (y x : nat) : Q := nth x (nth y a []) 0.

(** [np.zeros((h, w))] *)
Definition np_zeros (h w : nat) : Field := repeat (repeat 0 w) h.

(** [a.min()] and [a.max()]; both raise on an array without elements. *)
Definition field_min (a : Field) : option Q :=
  match concat a with
  | [] => None
  | v :: vs => Some (fold_left Qmin vs v)
  end.

Definition field_max (a : Field) : option Q :=
  match concat a with
  | [] => None
  | v :: vs => Some (fold_left Qmax vs v)
  end.

(** [1e-10] *)
Definition eps : Q := 1 # 10000000000.

(** The two nested loops [for y in range(h): for x in range(w):] filling
    [noise_map[y][x]]; the first failing pixel aborts the call. *)
Definition grid (h w : nat) (pixel : nat -> nat -> option Q) : option Field :=
  mapM (fun y => mapM (fun x => pixel y x) (seq 0 w)) (seq 0 h).

(** *** [NoiseGenerator.make_seamless_blend] *)

(** The weight of one axis: position [i] of [n], band thickness [b]
    (the [if / elif] on [y] and the one on [x]). *)
Definition edge_weight (i n b : Z) : Q :=
  if (i <? b)%Z then 1 - inject_Z i / inject_Z b
  else if (n - b <=? i)%Z then 1 - inject_Z (n - 1 - i) / inject_Z b
  else 0.

Definition blend_zone (extent : nat) (blend_width : Q) : Z :=
  Z.max 2 (Py.int (inject_Z (Z.of_nat extent) * blend_width)).

Definition make_seamless_blend (noise_map : Field) (blend_width : Q) : Field :=
  let '(h, w) := shape noise_map in
  let blend_h := blend_zone h blend_width in
  let blend_w := blend_zone w blend_width in
  map (fun y => map (fun x =>
    let blend_y := edge_weight (Z.of_nat y) (Z.of_nat h) blend_h in
    let blend_x := edge_weight (Z.of_nat x) (Z.of_nat w) blend_w in
    if Py.eqb blend_y 0 && Py.eqb blend_x 0 then get noise_map y x
    else
      let p00 := get noise_map y x in
      let p01 := get noise_map y ((x + w / 2) mod w) in
      let p10 := get noise_map ((y + h / 2) mod h) x in
      let p11 := get noise_map ((y + h / 2) mod h) ((x + w / 2) mod w) in
      let top_blend := (1 - blend_x) * p00 + blend_x * p01 in
      let bottom_blend := (1 - blend_x) * p10 + blend_x * p11 in
      (1 - blend_y) * top_blend + blend_y * bottom_blend)
    (seq 0 w)) (seq 0 h).

(** *** The generators *)

(** [x_off], [y_off], [z_off]: the offsets scaled by [sensitivity]. *)
Definition offsets (p : params) : Q * Q * Q :=
  let sensitivity := default 1 (p !! "sensitivity") in
  (default 0 (p !! "x_offset") * sensitivity,
   default 0 (p !! "y_offset") * sensitivity,
   default 0 (p !! "z_offset") * sensitivity).

(** [int(p['seed']) % 256] *)
Definition seed_of (sd : Q) : Z := (Py.int sd mod 256)%Z.

(** [int(min(p['octaves'], 10))] *)
Definition octaves_of (oct : Q) : Z := Py.int (Qmin oct 10).

(** The block under [# Normalize] of [_perlin] and [_fbm]. *)
Definition normalize_minmax (noise_map : Field) : option Field :=
  min_val ← field_min noise_map;
  max_val ← field_max noise_map;
  Some (if Py.ltb eps (max_val - min_val)
        then map (map (fun v => (v - min_val) / (max_val - min_val))) noise_map
        else noise_map).

(** [noise_map / (max_val + 1e-10) if max_val > 1e-10 else noise_map] *)
Definition normalize_max (noise_map : Field) : option Field :=
  max_val ← field_max noise_map;
  Some (if Py.ltb eps max_val
        then map (map (fun v => v / (max_val + eps))) noise_map
        else noise_map).

(** [(noise_map + 1.0) * 0.5] *)
Definition remap_half (noise_map : Field) : Field :=
  map (map (fun v => (v + 1) * (1 # 2))) noise_map.

Definition finish (seamless : bool) (blend_width : Q) (result : Field) : Field :=
  if seamless then make_seamless_blend result blend_width else result.

Section Generators.

(** [noise.pnoise3(x, y, z, octaves, persistence, lacunarity, base)],
    for [octaves >= 1] *)
Variable pnoise3 : Q -> Q -> Q -> Z -> Q -> Q -> Z -> Q.
(** [OpenSimplex(seed).noise3(x, y, z)] *)
Variable simplex_noise3 : Z -> Q -> Q -> Q -> Q.
(** [PerlinNoise(octaves, seed)([x, y, z])], for [octaves >= 1] *)
Variable perlin_noise : Z -> Z -> Q -> Q -> Q -> Q.
(** [val ** power] *)
Variable py_pow : Q -> Q -> Q.

(** Both Perlin libraries check the octave count they are given:
    [noise.pnoise3] raises [ValueError] on every call with
    [octaves <= 0], and so does the constructor [PerlinNoise(octaves,
    seed)]. *)
Definition octaves_refused (octaves : Z) : bool := (octaves <=? 0)%Z.

Definition perlin_map (w h : nat) (p : params) : option Field :=
  scale ← p !! "scale";
  oct ← p !! "octaves";
  let octaves := octaves_of oct in
  sd ← p !! "seed";
  let seed := seed_of sd in
  let '(x_off, y_off, z_off) := offsets p in
  grid h w (fun y x =>
    nx ← Py.div (inject_Z (Z.of_nat x) + x_off) scale;
    ny ← Py.div (inject_Z (Z.of_nat y) + y_off) scale;
    nz ← Py.div z_off scale;
    persistence ← p !! "persistence";
    lacunarity ← p !! "lacunarity";
    if octaves_refused octaves then None
    else Some (pnoise3 nx ny nz octaves persistence lacunarity seed)).

Definition _perlin (w h : nat) (p : params) (seamless : bool)
    (blend_width : Q) : option Field :=
  noise_map ← perlin_map w h p;
  result ← normalize_minmax noise_map;
  Some (finish seamless blend_width result).

Definition simplex_map (w h : nat) (p : params) : option Field :=
  sd ← p !! "seed";
  let seed := seed_of sd in
  scale ← p !! "scale";
  let '(x_off, y_off, z_off) := offsets p in
  grid h w (fun y x =>
    nx ← Py.div (inject_Z (Z.of_nat x) + x_off) scale;
    ny ← Py.div (inject_Z (Z.of_nat y) + y_off) scale;
    nz ← Py.div z_off scale;
    Some (simplex_noise3 seed nx ny nz)).

Definition _simplex (w h : nat) (p : params) (seamless : bool)
    (blend_width : Q) : option Field :=
  noise_map ← simplex_map w h p;
  let result := remap_half noise_map in
  Some (finish seamless blend_width result).

Definition fbm_map (w h : nat) (p : params) : option Field :=
  oct ← p !! "octaves";
  let octaves := octaves_of oct in
  sd ← p !! "seed";
  let seed := seed_of sd in
  if octaves_refused octaves then None
  else
  scale ← p !! "scale";
  let '(x_off, y_off, z_off) := offsets p in
  grid h w (fun y x =>
    cx ← Py.div (inject_Z (Z.of_nat x) + x_off) scale;
    cy ← Py.div (inject_Z (Z.of_nat y) + y_off) scale;
    cz ← Py.div z_off scale;
    Some (perlin_noise octaves seed cx cy cz)).

Definition _fbm (w h : nat) (p : params) (seamless : bool)
    (blend_width : Q) : option Field :=
  noise_map ← fbm_map w h p;
  result ← normalize_minmax noise_map;
  Some (finish seamless blend_width result).

Definition turbulence_map (w h : nat) (p : params) : option Field :=
  sd ← p !! "seed";
  let seed := seed_of sd in
  scale ← p !! "scale";
  let power := default 2 (p !! "power") in
  let '(x_off, y_off, z_off) := offsets p in
  grid h w (fun y x =>
    cx ← Py.div (inject_Z (Z.of_nat x) + x_off) scale;
    cy ← Py.div (inject_Z (Z.of_nat y) + y_off) scale;
    cz ← Py.div z_off scale;
    let val := Qabs (simplex_noise3 seed cx cy cz) in
    Some (py_pow val power)).

Definition _turbulence (w h : nat) (p : params) (seamless : bool)
    (blend_width : Q) : option Field :=
  noise_map ← turbulence_map w h p;
  result ← normalize_max noise_map;
  Some (finish seamless blend_width result).

(** The octave loop of [_ridged] at one pixel, [n] iterations left. *)
Fixpoint ridged_octaves (n : nat) (seed : Z) (scale px py pz : Q)
    (result amp freq : Q) : option Q :=
  match n with
  | O => Some result
  | S n' =>
      cx ← Py.div px scale;
      cy ← Py.div py scale;
      cz ← Py.div pz scale;
      let signal :=
        1 - Qabs (simplex_noise3 seed (cx * freq) (cy * freq) (cz * freq)) in
      let signal := signal * signal in
      ridged_octaves n' seed scale px py pz
        (result + signal * amp) (amp * (1 # 2)) (freq * 2)
  end.

Definition ridged_map (w h : nat) (p : params) : option Field :=
  sd ← p !! "seed";
  let seed := seed_of sd in
  scale ← p !! "scale";
  oct ← p !! "octaves";
  let octaves := octaves_of oct in
  let '(x_off, y_off, z_off) := offsets p in
  grid h w (fun y x =>
    ridged_octaves (Z.to_nat octaves) seed scale
      (inject_Z (Z.of_nat x) + x_off) (inject_Z (Z.of_nat y) + y_off) z_off
      0 1 1).

Definition _ridged (w h : nat) (p : params) (seamless : bool)
    (blend_width : Q) : option Field :=
  noise_map ← ridged_map w h p;
  result ← normalize_max noise_map;
  Some (finish seamless blend_width result).

Definition domain_warp_map (w h : nat) (p : params) : option Field :=
  sd ← p !! "seed";
  let seed := seed_of sd in
  scale ← p !! "scale";
  let warp := default 50 (p !! "warp") in
  let '(x_off, y_off, z_off) := offsets p in
  grid h w (fun y x =>
    cx ← Py.div (inject_Z (Z.of_nat x) + x_off) scale;
    cy ← Py.div (inject_Z (Z.of_nat y) + y_off) scale;
    cz ← Py.div z_off scale;
    let wx := simplex_noise3 (seed + 1) cx cy cz * warp in
    let wy :=
      simplex_noise3 (seed + 1) (cx + (26 # 5)) (cy + (13 # 10)) cz * warp in
    vx ← Py.div (inject_Z (Z.of_nat x) + wx) scale;
    vy ← Py.div (inject_Z (Z.of_nat y) + wy) scale;
    Some (simplex_noise3 seed vx vy cz)).

Definition _domain_warp (w h : nat) (p : params) (seamless : bool)
    (blend_width : Q) : option Field :=
  noise_map ← domain_warp_map w h p;
  let result := remap_half noise_map in
  Some (finish seamless blend_width result).

(** *** [NoiseGenerator.generate] *)
Definition generate (noise_type : string) (width height : nat)
    (p : params) (seamless : bool) (blend_width : Q) : option Field :=
  result ←
    (if String.eqb noise_type "Perlin" then
       _perlin width height p seamless blend_width
     else if String.eqb noise_type "Simplex" then
       _simplex width height p seamless blend_width
     else if String.eqb noise_type "FBM" then
       _fbm width height p seamless blend_width
     else if String.eqb noise_type "Turbulence" then
       _turbulence width height p seamless blend_width
     else if String.eqb noise_type "Ridged" then
       _ridged width height p seamless blend_width
     else if String.eqb noise_type "Domain Warp" then
       _domain_warp width height p seamless blend_width
     else Some (np_zeros height width));
  Some (if Py.truthy (default 0 (p !! "invert"))
        then map (map (fun v => 1 - v)) result
        else result).

End Generators.

(** The noise types [generate] dispatches on. *)
Definition supported : list string :=
  ["Perlin"; "Simplex"; "FBM"; "Turbulence"; "Ridged"; "Domain Warp"]%string.

(** Two fields hold the same numbers. *)
Definition field_eq (a b : Field) : Prop := Forall2 (Forall2 Qeq) a b.

(** Every value of the field lies in [[0, 1]]. *)
Definition unit_interval (v : Q) : Prop := 0 <= v <= 1.
Definition in_unit (a : Field) : Prop := Forall (Forall unit_interval) a.

(** An array of [h] rows of [w] columns. *)
Definition rect (h w : nat) (a : Field) : Prop :=
  length a = h /\ Forall (fun row => length row = w) a.

(** Two arrays of the same shape. *)
Definition same_shape (a b : Field) : Prop :=
  Forall2 (fun ra rb => length ra = length rb) a b.

(** Two bags that differ at most in their seeds, of equal residue. *)
Definition same_but_seed (p1 p2 : params) : Prop :=
  (forall k : string, k <> "seed"%string -> p1 !! k = p2 !! k)
  /\ seed_of <$> (p1 !! "seed") = seed_of <$> (p2 !! "seed").

(** The keys the generator of a noise type indexes with [p[...]]; the
    other keys are read with [p.get(key, default)]. *)
Definition indexed_keys (noise_type : string) : list string :=
  (if String.eqb noise_type "Perlin" then
     ["scale"; "octaves"; "seed"; "persistence"; "lacunarity"]
   else if String.eqb noise_type "FBM" then ["octaves"; "seed"; "scale"]
   else if String.eqb noise_type "Ridged" then ["seed"; "scale"; "octaves"]
   else if String.eqb noise_type "Simplex" then ["seed"; "scale"]
   else if String.eqb noise_type "Turbulence" then ["seed"; "scale"]
   else if String.eqb noise_type "Domain Warp" then ["seed"; "scale"]
   else [])%string.




(** Stand-ins for the external primitives, used to run the model: a
    constant one, and one that varies with the sampling point and stays
    inside [[-1, 1]]. *)
Definition flat_pnoise3 (x y z : Q) (octaves : Z) (persistence lacunarity : Q)
    (base : Z) : Q := - (1 # 2).
Definition ramp (t : Q) : Q := t / (1 + Qabs t).
Definition ramp_simplex (seed : Z) (x y z : Q) : Q := ramp (x - y + z).
Definition ramp_perlin (octaves seed : Z) (x y z : Q) : Q := ramp (x + y).
Definition square_pow (x y : Q) : Q := x * x.


(** The parameter bag the window starts layer A with. *)
Definition params_a : params :=
  list_to_map
    [("scale", 100); ("octaves", 6); ("persistence", 1 # 2);
     ("lacunarity", 2); ("seed", 42); ("power", 2); ("warp", 50);
     ("z_slice", 0); ("x_offset", 0); ("y_offset", 0); ("z_offset", 0);
     ("sensitivity", 1 # 10); ("invert", 0)]%string.


End Noise.

(** ** The layer blender: [NoiseWorker.blend_noise] *)

Module Blend.

Import Num.

Section Blender.

Context {F : Type} `{FloatArith F}.

Local Infix "+" := add.
Local Infix "-" := sub.
Local Infix "*" := mul.

(** One element of the array expression of each mode. *)
Definition blend_pixel (mode : string) (weight a b : F) : F :=
  if String.eqb mode "Mix" then a * (num 1 - weight) + b * weight
  else if String.eqb mode "Add" then
    (* np.clip(result, 0, 1) *)
    minimum (maximum (a + b * weight) (num 0)) (num 1)
  else if String.eqb mode "Multiply" then
    a * (b * weight + (num 1 - weight))
  else if String.eqb mode "Screen" then
    num 1 - (num 1 - a) * (num 1 - b * weight)
  else if String.eqb mode "Overlay" then
    let result :=
      if ltb a half then num 2 * a * b
      else num 1 - num 2 * (num 1 - a) * (num 1 - b) in
    a * (num 1 - weight) + result * weight
  else if String.eqb mode "Min" then
    minimum a (b * weight + a * (num 1 - weight))
  else if String.eqb mode "Max" then
    maximum a (b * weight + a * (num 1 - weight))
  else a.

Definition blend_noise (noise_a noise_b : list (list F)) (weight : F)
    (mode : string) : list (list F) :=
  zip_with (zip_with (blend_pixel mode weight)) noise_a noise_b.

End Blender.

(** The pixel values [k / 100], [k = 0 .. 100], in binary64. *)
Definition percent_values : list float :=
  map (fun k => (Np.of_nat k / 100)%float) (seq 0 101).

(** The modes of the blend mode box. *)
Definition modes : list string :=
  ["Mix"; "Add"; "Multiply"; "Screen"; "Overlay"; "Min"; "Max"]%string.

(** Whether, in binary64 and on all pixel values [k / 100], the blend
    of mode [mode] at weight 0 is layer A. *)
Definition keeps_layer_a_at_zero (mode : string) : bool :=
  forallb (fun a =>
    forallb (fun b => PrimFloat.eqb (blend_pixel mode 0%float a b) a)
      percent_values)
    percent_values.

(** Whether, in binary64 and on all pixel values and weights [k / 100],
    the blend of mode [mode] is at most layer A ([brighter = false]) or
    at least layer A ([brighter = true]). *)
Definition one_sided (mode : string) (brighter : bool) : bool :=
  forallb (fun weight =>
    forallb (fun a =>
      forallb (fun b =>
        let v := blend_pixel mode weight a b in
        if brighter then PrimFloat.leb a v else PrimFloat.leb v a)
        percent_values)
      percent_values)
    percent_values.

End Blend.

(** ** Parameter animation: [SpriteGeneratorGUI] *)

Module Animator.

Import Num.

Section Animation.

Context {F : Type} `{FloatArith F}.

Local Infix "+" := add.
Local Infix "-" := sub.
Local Infix "*" := mul.
Local Infix "/" := div.

(** The fields of the window object the animator reads. *)
Record gui := {
  anim_enabled : gmap string bool;
  anim_start : gmap string F;
  anim_end : gmap string F;
  anim_style : gmap string string;
  anim_curve : gmap string string;
  sprite_params : gmap string (gmap string F);
  current_sprite_type : string
}.

(** [apply_curve] *)
Definition apply_curve (t : F) (curve_type : string) : F :=
  if String.eqb curve_type "Linear" then t
  else if String.eqb curve_type "Ease In" then t * t
  else if String.eqb curve_type "Ease Out" then
    num 1 - (num 1 - t) * (num 1 - t)
  else if String.eqb curve_type "Ease In/Out" then
    if ltb t half then num 2 * t * t
    else
      (* math.pow(-2 * t + 2, 2) *)
      let base := num (-2) * t + num 2 in
      num 1 - (base * base) / num 2
  else if String.eqb curve_type "Stepped" then
    if ltb t half then num 0 else num 1
  else t.

(** [random.seed(frame); random.random()] *)
Variable seeded_random : Z -> F.

(** [calculate_animated_value]; indexing [self.sprite_params] with a
    type it does not hold raises. *)
Definition calculate_animated_value (self : gui) (key : string)
    (frame total_frames : Z) : option F :=
  if negb (default false (anim_enabled self !! key)) then
    params ← sprite_params self !! current_sprite_type self;
    Some (default (num 0) (params !! key))
  else
    let start := default (num 0) (anim_start self !! key) in
    let end_ := default (num 1) (anim_end self !! key) in
    let style := default "Linear"%string (anim_style self !! key) in
    let curve := default "Linear"%string (anim_curve self !! key) in
    let progress :=
      if (total_frames <=? 1)%Z then num 0
      else num frame / num (total_frames - 1) in
    (* the two statements after the style transform *)
    let interpolate (progress : F) : option F :=
      let progress := apply_curve progress curve in
      let value := start + (end_ - start) * progress in
      Some value in
    if String.eqb style "Ping Pong" then
      if leb progress half then interpolate (progress * num 2)
      else interpolate (num 2 - progress * num 2)
    else if String.eqb style "Random" then
      Some (start + seeded_random frame * (end_ - start))
    else interpolate progress.

(** The window after the start and end spin boxes of [key] were set to
    [start_spin] and [end_spin] ([on_anim_start_changed(key, v * scale)])
    and its animation was enabled, style and curve left at Linear. *)
Definition animated_window (key : string) (start_spin end_spin : Z)
    (scale : F) : gui :=
  {| anim_enabled := {[ key := true ]};
     anim_start := {[ key := num start_spin * scale ]};
     anim_end := {[ key := num end_spin * scale ]};
     anim_style := {[ key := "Linear"%string ]};
     anim_curve := {[ key := "Linear"%string ]};
     sprite_params := ∅;
     current_sprite_type := "Circle" |}.

End Animation.

Arguments gui F : clear implicits.

(** The number of pairs of spin box values (0..100, scale [0.01]) for
    which the animated value of [frame], computed in binary64, differs
    from its target: the end value, or else the start value. *)
Definition spin_pairs_off (frame total_frames : Z) (target_is_end : bool)
    : nat :=
  length (filter (fun '(a, b) =>
            let self := animated_window "radius" a b 0.01%float in
            match calculate_animated_value (fun _ => 0.5%float) self "radius"
                    frame total_frames with
            | Some value =>
                let target :=
                  default 0%float ((if target_is_end then anim_end self
                                    else anim_start self) !! "radius") in
                negb (PrimFloat.eqb value target)
            | None => true
            end)
          (list_prod (map Z.of_nat (seq 0 101)) (map Z.of_nat (seq 0 101)))).

End Animator.

(** ** Sprite fields: [SpriteGenerator] *)

Module Sprite.

Local Open Scope float_scope.

(** A parameter bag maps names to numbers; an intensity map is a 2-D
    array of floats, an RGBA field a 2-D array of four bytes. *)
Abbreviation params := (gmap string float).
Abbreviation Intensity := (list (list float)).
Abbreviation RGBA := (list (list (Z * Z * Z * Z))).

(** [min(w, h)] as the float it becomes in the products below. *)
Definition min_wh (w h : nat) : float := Np.of_nat (Nat.min w h).

(** An array over the open grid [y, x = np.ogrid[:h, :w]]. *)
Definition over_grid (w h : nat) (pixel : nat -> nat -> float) : Intensity :=
  map (fun y => map (fun x => pixel y x) (seq 0 w)) (seq 0 h).

(** [_apply_color_and_alpha] *)
Definition _apply_color_and_alpha (intensity : Intensity) (p : params)
    : option RGBA :=
  r ← Np.int (default 255 (p !! "color_r"));
  g ← Np.int (default 255 (p !! "color_g"));
  b ← Np.int (default 255 (p !! "color_b"));
  let alpha_mult := default 1 (p !! "alpha") in
  Some (map (map (fun i =>
    (Np.astype_uint8 (i * Np.of_Z r),
     Np.astype_uint8 (i * Np.of_Z g),
     Np.astype_uint8 (i * Np.of_Z b),
     Np.astype_uint8 (i * alpha_mult * 255)))) intensity).

(** The soft edge of [_circle], [_square], [_line]: the falloff guarded
    by [if softness > 0], else the hard step. *)
Definition soft_edge (dist extent softness : float) : float :=
  if 0 <? softness then Np.clip (1 - (dist - extent) / softness) 0 1
  else Np.of_bool (dist <=? extent).

(** [np.sqrt((x - center_x)**2 + (y - center_y)**2)] *)
Definition center_dist (w h y x : nat) : float :=
  let center_x := Np.of_nat w / 2 in
  let center_y := Np.of_nat h / 2 in
  let dx := Np.of_nat x - center_x in
  let dy := Np.of_nat y - center_y in
  PrimFloat.sqrt (dx * dx + dy * dy).

(** [_circle] *)
Definition circle_intensity (w h : nat) (p : params) : Intensity :=
  let radius := default 0.4 (p !! "radius") * min_wh w h / 2 in
  let softness := default 0.1 (p !! "softness") * min_wh w h / 2 in
  over_grid w h (fun y x =>
    let dist := center_dist w h y x in
    let intensity := soft_edge dist radius softness in
    if Np.truthy (default 0 (p !! "gradient")) then
      let gradient_intensity := 1 - Np.clip (dist / radius) 0 1 in
      intensity * gradient_intensity
    else intensity).

Definition _circle (w h : nat) (p : params) : option RGBA :=
  _apply_color_and_alpha (circle_intensity w h p) p.

(** [_ring]: the two masks divide by [softness] without a guard. *)
Definition ring_intensity (w h : nat) (p : params) : Intensity :=
  let outer_radius := default 0.4 (p !! "outer_radius") * min_wh w h / 2 in
  let inner_radius := default 0.25 (p !! "inner_radius") * min_wh w h / 2 in
  let softness := default 0.1 (p !! "softness") * min_wh w h / 2 in
  over_grid w h (fun y x =>
    let dist := center_dist w h y x in
    let outer_mask := Np.clip (1 - (dist - outer_radius) / softness) 0 1 in
    let inner_mask := Np.clip ((dist - inner_radius) / softness) 0 1 in
    let intensity := outer_mask * inner_mask in
    if Np.truthy (default 0 (p !! "gradient")) then
      let ring_center := (outer_radius + inner_radius) / 2 in
      let ring_width := (outer_radius - inner_radius) / 2 in
      let dist_from_center := abs (dist - ring_center) in
      let gradient_intensity :=
        1 - Np.clip (dist_from_center / ring_width) 0 1 in
      intensity * gradient_intensity
    else intensity).

Definition _ring (w h : nat) (p : params) : option RGBA :=
  _apply_color_and_alpha (ring_intensity w h p) p.

Section Externals.

(** [np.cos], [np.sin], [np.power] and
    [scipy.ndimage.gaussian_filter(a, sigma)] *)
Variables np_cos np_sin : float -> float.
Variable np_power : float -> float -> float.
Variable gaussian_filter : Intensity -> float -> Intensity.

(** [_cross]: both bars divide by [softness] without a guard. *)
Definition cross_intensity (w h : nat) (p : params) : Intensity :=
  let thickness := default 0.1 (p !! "thickness") * min_wh w h in
  let softness := default 0.1 (p !! "softness") * min_wh w h in
  let rotation := Np.radians (default 0 (p !! "rotation")) in
  let center_x := Np.of_nat w / 2 in
  let center_y := Np.of_nat h / 2 in
  over_grid w h (fun y x =>
    let dx := Np.of_nat x - center_x in
    let dy := Np.of_nat y - center_y in
    let '(x_rot, y_rot) :=
      if negb (rotation =? 0) then
        (dx * np_cos rotation - dy * np_sin rotation,
         dx * np_sin rotation + dy * np_cos rotation)
      else (dx, dy) in
    let dist_h := abs y_rot in
    let intensity_h :=
      Np.clip (1 - (dist_h - thickness / 2) / softness) 0 1 in
    let dist_v := abs x_rot in
    let intensity_v :=
      Np.clip (1 - (dist_v - thickness / 2) / softness) 0 1 in
    Np.maximum intensity_h intensity_v).

Definition _cross (w h : nat) (p : params) : option RGBA :=
  _apply_color_and_alpha (cross_intensity w h p) p.

(** [_glow] *)
Definition glow_intensity (w h : nat) (p : params) : Intensity :=
  let intensity_val := default 1 (p !! "intensity") in
  let falloff := default 2 (p !! "falloff") in
  let radius := default 0.5 (p !! "radius") in
  let center_x := Np.of_nat w / 2 in
  let center_y := Np.of_nat h / 2 in
  let max_dist := PrimFloat.sqrt (center_x * center_x + center_y * center_y) in
  let intensity :=
    over_grid w h (fun y x =>
      let dist := center_dist w h y x in
      let norm_dist := dist / (max_dist * radius) in
      np_power (1 - Np.clip norm_dist 0 1) falloff * intensity_val) in
  let blur := default 0 (p !! "blur") in
  if 0 <? blur then gaussian_filter intensity (blur * min_wh w h / 10)
  else intensity.

Definition _glow (w h : nat) (p : params) : option RGBA :=
  _apply_color_and_alpha (glow_intensity w h p) p.

End Externals.

(** The hard step the guarded shapes fall back to. *)
Definition hard_step (dist extent : float) : float :=
  Np.of_bool (dist <=? extent).

(** Clamping of an integer channel value to [[0, 255]], and a channel
    as the specification words it: the product, clamped. *)
Definition clamp_byte (z : Z) : Z := Z.max 0 (Z.min 255 z).
Definition clamped_channel (product : float) : option Z :=
  option_map clamp_byte (Np.int product).

(** The byte [c] the code stores for a product: the cast, which is the
    clamped product whenever the integer part of the product already
    lies in [[0, 255]]. *)
Definition stored_channel (product : float) (c : Z) : Prop :=
  c = Np.astype_uint8 product
  /\ forall z, Np.int product = Some z -> (0 <= z <= 255)%Z ->
               c = z /\ clamped_channel product = Some c.

(** [a[y, x]] *)
Definition at2 {A : Type} (d : A) (a : list (list A)) (y x : nat) : A :=
  nth x (nth y a []) d.

(** A cross whose bars are two pixels thick on an 8 x 8 sprite, with
    the softness slider at its minimum, and a glow twice as bright as
    the slider allows. *)
Definition cross_hard : params :=
  {[ "thickness"%string := 0.25; "softness"%string := 0 ]}.
Definition ring_hard : params :=
  {[ "outer_radius"%string := 0.5; "softness"%string := 0 ]}.
Definition glow_bright : params :=
  {[ "intensity"%string := 2; "falloff"%string := 1 ]}.

(** [np.power(x, 1.0)] and a [gaussian_filter] that is never reached
    with [blur = 0]. *)
Definition power_one (x exponent : float) : float := x.
Definition no_filter (a : Intensity) (sigma : float) : Intensity := a.

End Sprite.

(** ** Atlas export: where the frames go *)

Module AtlasExport.

Local Open Scope Z_scope.

(** [range(n)] *)
Definition range (n : Z) : list Z := map Z.of_nat (seq 0 (Z.to_nat n)).

(** The corner [(x, y)] of frame [i] in the atlas image:
    [row = i // cols], [col = i % cols], [y = row * frame_size],
    [x = col * frame_size].  [//] and [%] by zero raise. *)
Definition frame_origin (i cols frame_size : Z) : option (Z * Z) :=
  if cols =? 0 then None
  else
    let row := i / cols in
    let col := i mod cols in
    Some (col * frame_size, row * frame_size).

(** What an atlas export draws: the size of the image and the corner
    of each frame, in frame order. *)
Record atlas_plan := {
  atlas_width : Z;
  atlas_height : Z;
  origins : list (Z * Z)
}.

(** [np.zeros((h, w))] and [Image.new(mode, (w, h))] raise on a
    negative extent. *)
Definition new_image (width height : Z) : option (Z * Z) :=
  if (width <? 0) || (height <? 0) then None else Some (width, height).

(** [NoiseGeneratorGUI.export_atlas] and [preview_atlas]: the grid, the
    atlas array and the corner of the slice
    [atlas[y:y+frame_size, x:x+frame_size]] each frame is stored to (the
    assignment needs the whole slice to lie inside the array). *)
Definition export_atlas (num_frames frame_size : Z) : option atlas_plan :=
  '(cols, rows) ← Atlas.export_atlas_grid num_frames;
  let atlas_width := cols * frame_size in
  let atlas_height := rows * frame_size in
  _ ← new_image atlas_width atlas_height;
  origins ← mapM (fun i => frame_origin i cols frame_size) (range num_frames);
  Some {| atlas_width := atlas_width; atlas_height := atlas_height;
          origins := origins |}.

(** [total_frames = min(self.frame_count,
                        self.atlas_rows * self.atlas_cols)] *)
Definition total_frames (frame_count atlas_rows atlas_cols : Z) : Z :=
  Z.min frame_count (atlas_rows * atlas_cols).

Section SpriteAtlas.

(** The image of one frame, as the body of the loop builds it:
    [get_animated_params(frame, total_frames)], then
    [SpriteGenerator.generate(self.current_sprite_type, resolution,
    resolution, frame_params)], then [Image.fromarray(sprite,
    mode='RGBA')]; [None] when one of the three raises. *)
Variable image : Type.
Variable frame_image : Z -> Z -> Z -> option image.

(** The atlas image that is saved: its size and, in frame order, what
    was pasted where. *)
Record sprite_atlas := {
  sheet_width : Z;
  sheet_height : Z;
  pasted : list (Z * Z * image)
}.

(** [atlas.save(filepath, 'PNG')] refuses an image without pixels
    ([ValueError]). *)
Definition save_png (width height : Z) : option unit :=
  if (width =? 0) || (height =? 0) then None else Some tt.

(** [SpriteGeneratorGUI.export_animated_atlas] *)
Definition export_animated_atlas
    (frame_count atlas_rows atlas_cols resolution : Z)
    : option sprite_atlas :=
  let atlas_width := resolution * atlas_cols in
  let atlas_height := resolution * atlas_rows in
  _ ← new_image atlas_width atlas_height;
  let total_frames := total_frames frame_count atlas_rows atlas_cols in
  pasted ← mapM (fun frame =>
                   frame_image ← frame_image frame total_frames resolution;
                   '(x, y) ← frame_origin frame atlas_cols resolution;
                   Some (x, y, frame_image))
                (range total_frames);
  _ ← save_png atlas_width atlas_height;
  Some {| sheet_width := atlas_width; sheet_height := atlas_height;
          pasted := pasted |}.

End SpriteAtlas.

Arguments sheet_width {image} _.
Arguments sheet_height {image} _.
Arguments pasted {image} _.

(** The square of side [size] at corner [c] lies inside the image. *)
Definition inside (width height size : Z) (c : Z * Z) : Prop :=
  0 <= fst c /\ fst c + size <= width /\ 0 <= snd c /\ snd c + size <= height.

(** Two squares of side [size] share no pixel. *)
Definition disjoint_cells (size : Z) (a b : Z * Z) : Prop :=
  fst a + size <= fst b \/ fst b + size <= fst a
  \/ snd a + size <= snd b \/ snd b + size <= snd a.

End AtlasExport.

(** ** File names: versions and frame indices *)

Module Files.

Local Open Scope string_scope.
Local Open Scope nat_scope.

(** [c.isdigit()] on an ASCII character, and [s.isdigit()]-like test
    of every character of a string. *)
Definition isdigit (c : ascii) : bool :=
  (48 <=? nat_of_ascii c) && (nat_of_ascii c <=? 57).

Fixpoint all_digits (s : string) : bool :=
  match s with
  | EmptyString => true
  | String c s' => isdigit c && all_digits s'
  end.

(** [int(s)] for a string of decimal digits. *)
Fixpoint int_acc (s : string) (acc : nat) : nat :=
  match s with
  | EmptyString => acc
  | String c s' => int_acc s' (10 * acc + (nat_of_ascii c - 48))
  end.

Definition int_of_digits (s : string) : nat := int_acc s 0.

(** [s.endswith(suffix)] and [s[:-k]] *)
Definition endswith (s suffix : string) : bool :=
  let n := String.length s in
  let k := String.length suffix in
  (k <=? n) && String.eqb (String.substring (n - k) k s) suffix.

Definition drop_last (k : nat) (s : string) : string :=
  String.substring 0 (String.length s - k) s.

(** [f"{base}_v{version:02d}{ext}"] *)
Definition versioned (base : string) (version : nat) (ext : string) : string :=
  base ++ "_v" ++ Naming.format_0d version 2 ++ ext.

(** [s.split('_')[-1]]: what follows the last underscore. *)
Fixpoint last_segment_acc (sep : ascii) (s seg : string) : string :=
  match s with
  | EmptyString => seg
  | String c s' =>
      if Ascii.eqb c sep then last_segment_acc sep s' EmptyString
      else last_segment_acc sep s' (seg ++ String c EmptyString)
  end.

Definition last_segment (sep : ascii) (s : string) : string :=
  last_segment_acc sep s EmptyString.

(** No character of [s] is one of [seps]. *)
Fixpoint free_of (seps : list ascii) (s : string) : bool :=
  match s with
  | EmptyString => true
  | String c s' => negb (existsb (Ascii.eqb c) seps) && free_of seps s'
  end.

(** [posixpath.basename(p)]: [p[p.rfind('/') + 1:]] *)
Definition posix_basename (p : string) : string := last_segment "/" p.

Section FileSystem.

(** [os.path.exists] on the file system the export runs on. *)
Variable path_exists : string -> bool.

(** The loop
    [version = 0; path = name(0)
     while os.path.exists(path): version += 1; path = name(version)],
    run for at most [fuel] tests. *)
Fixpoint first_free (name : nat -> string) (fuel version : nat)
    : option string :=
  match fuel with
  | O => None
  | S fuel' =>
      if path_exists (name version)
      then first_free name fuel' (S version)
      else Some (name version)
  end.

(** The [base] of [NoiseGeneratorGUI.get_versioned_filename]: the path
    without its [.png], which is appended first when missing. *)
Definition png_base (base_path : string) : string :=
  let base_path :=
    if negb (endswith (Naming.lower base_path) ".png")
    then base_path ++ ".png" else base_path in
  drop_last 4 base_path.

(** [NoiseGeneratorGUI.get_versioned_filename] *)
Definition noise_get_versioned_filename (fuel : nat) (base_path : string)
    : option string :=
  let base := png_base base_path in
  let ext := ".png" in
  first_free (fun version => versioned base version ext) fuel 0.

(** [NoiseGeneratorGUI.get_versioned_folder_name] *)
Definition get_versioned_folder_name (fuel : nat) (base_folder : string)
    : option string :=
  first_free (fun version => versioned base_folder version "") fuel 0.

(** [os.path.splitext] *)
Variable splitext : string -> string * string.

(** The loop of [SpriteGeneratorGUI.get_versioned_filename]: it gives
    up after version 99 and returns the path it was given. *)
Fixpoint versioned_upto (filepath base ext : string)
    (remaining version : nat) : string :=
  match remaining with
  | O => filepath
  | S remaining' =>
      let versioned_path := versioned base version ext in
      if negb (path_exists versioned_path) then versioned_path
      else versioned_upto filepath base ext remaining' (S version)
  end.

(** [SpriteGeneratorGUI.get_versioned_filename] *)
Definition sprite_get_versioned_filename (filepath : string) : string :=
  if negb (path_exists filepath) then filepath
  else
    let '(base, ext) := splitext filepath in
    versioned_upto filepath base ext 100 0.

(** [os.path.basename] *)
Variable basename : string -> string.

(** The [version_suffix] and the [frame_prefix] [export_sequence]
    derives from the folder it writes to. *)
Definition version_suffix (folder_path : string) : string :=
  let folder_basename := basename folder_path in
  last_segment "_" folder_basename.

Definition sequence_prefix (noise_type_a noise_type_b folder_path : string)
    : string :=
  Naming.frame_prefix noise_type_a noise_type_b (version_suffix folder_path).

End FileSystem.

(** A file system holding exactly the listed paths. *)
Definition holds (paths : list string) (p : string) : bool :=
  existsb (String.eqb p) paths.

End Files.

(** ** The composite of two layers: [generate_composite_noise] and
       [NoiseWorker.run] *)

Module Composite.

Import Num.
Local Open Scope Q_scope.

(** The settings of the window that a composite is generated from. *)
Record window := {
  noise_type_a : string;
  noise_type_b : string;
  params_a : Noise.params;
  params_b : Noise.params;
  mix_weight : Q;
  blend_mode : string;
  seamless_tiling : bool;
  seamless_blend_width : Q
}.

(** A [NoiseWorker]: the settings it was built with and the size of
    the field it is to generate. *)
Record worker := {
  settings : window;
  width : nat;
  height : nat
}.

Section Externals.

Variable pnoise3 : Q -> Q -> Q -> Z -> Q -> Q -> Z -> Q.
Variable simplex_noise3 : Z -> Q -> Q -> Q -> Q.
Variable perlin_noise : Z -> Z -> Q -> Q -> Q -> Q.
Variable py_pow : Q -> Q -> Q.

Definition generate :=
  Noise.generate pnoise3 simplex_noise3 perlin_noise py_pow.

(** [NoiseGeneratorGUI.generate_composite_noise]; an exception of
    [NoiseGenerator.generate] propagates to the caller. *)
Definition generate_composite_noise (self : window) (width height : nat)
    : option Noise.Field :=
  noise_a ← generate (noise_type_a self) width height (params_a self)
              (seamless_tiling self) (seamless_blend_width self);
  if String.eqb (noise_type_b self) "None" then Some noise_a
  else
    noise_b ← generate (noise_type_b self) width height (params_b self)
                (seamless_tiling self) (seamless_blend_width self);
    Some (Blend.blend_noise noise_a noise_b (mix_weight self)
            (blend_mode self)).

(** [NoiseWorker.run]: the field it emits through [finished], if any.
    [interruption_requested k] is the answer of the [k]-th call of
    [self.isInterruptionRequested()]; the [except Exception] clause
    emits a black field of the requested size. *)
Definition run (self : worker) (interruption_requested : nat -> bool)
    : option Noise.Field :=
  let w := settings self in
  let fallback := Noise.np_zeros (height self) (width self) in
  if interruption_requested 0%nat then None
  else
    match generate (noise_type_a w) (width self) (height self) (params_a w)
            (seamless_tiling w) (seamless_blend_width w) with
    | None => Some fallback
    | Some noise_a =>
        if interruption_requested 1%nat then None
        else if String.eqb (noise_type_b w) "None" then Some noise_a
        else
          match generate (noise_type_b w) (width self) (height self)
                  (params_b w) (seamless_tiling w)
                  (seamless_blend_width w) with
          | None => Some fallback
          | Some noise_b =>
              if interruption_requested 2%nat then None
              else Some (Blend.blend_noise noise_a noise_b (mix_weight w)
                           (blend_mode w))
          end
    end.

(** The parameters of frame [i] of an exported animation:
    [params_copy['z_offset'] = params.get('z_offset', 0.0)
                               + (i * anim_rate)]. *)
Definition animated_params (p : Noise.params) (i anim_rate : Z)
    : Noise.params :=
  <["z_offset" := default 0 (p !! "z_offset") + inject_Z (i * anim_rate)]> p.

(** One turn of the frame loop of [export_atlas], [export_sequence],
    [preview_atlas] and [preview_animation]: the composite generated
    while the animated copies stand in for the parameters of the
    window. *)
Definition frame_noise (self : window) (i anim_rate : Z) (frame_size : nat)
    : option Noise.Field :=
  let params_a_copy := animated_params (params_a self) i anim_rate in
  let params_b_copy :=
    if negb (String.eqb (noise_type_b self) "None")
    then animated_params (params_b self) i anim_rate
    else params_b self in
  generate_composite_noise
    {| noise_type_a := noise_type_a self;
       noise_type_b := noise_type_b self;
       params_a := params_a_copy;
       params_b := params_b_copy;
       mix_weight := mix_weight self;
       blend_mode := blend_mode self;
       seamless_tiling := seamless_tiling self;
       seamless_blend_width := seamless_blend_width self |}
    frame_size frame_size.

End Externals.

(** [(noise_map * 255).astype(np.uint8)] at one value: truncation
    toward zero, of which the low byte is kept. *)
Definition to_uint8 (v : Q) : Z := (Py.int (v * 255) mod 256)%Z.

(** A field is nowhere above another one of the same shape. *)
Definition field_le (a b : Noise.Field) : Prop := Forall2 (Forall2 Qle) a b.

(** The window as it starts: the parameter bag of layer B, and the
    settings. *)
Definition default_params_b : Noise.params :=
  list_to_map
    [("scale", 50); ("octaves", 4); ("persistence", 1 # 2);
     ("lacunarity", 2); ("seed", 500); ("power", 2); ("warp", 30);
     ("z_slice", 0); ("x_offset", 0); ("y_offset", 0); ("z_offset", 0);
     ("sensitivity", 1 # 10); ("invert", 0)]%string.

Definition default_window : window :=
  {| noise_type_a := "Perlin"; noise_type_b := "None";
     params_a := Noise.params_a; params_b := default_params_b;
     mix_weight := 1 # 2; blend_mode := "Mix";
     seamless_tiling := true; seamless_blend_width := 1 # 10 |}.

End Composite.

(** ** Animated frames: [SpriteGeneratorGUI.get_animated_params] *)

Module Frames.

Import Num Animator.
Local Open Scope Q_scope.

(** The colour animation fields of the window. *)
Record color_anim := {
  color_anim_enabled : bool;
  color_start : Z * Z * Z;
  color_end : Z * Z * Z
}.

(** [int(start + (end - start) * t)] with
    [t = frame / max(total_frames - 1, 1)] *)
Definition color_channel (start end_ frame total_frames : Z) : Z :=
  let t := inject_Z frame / inject_Z (Z.max (total_frames - 1) 1) in
  Py.int (inject_Z start + (inject_Z end_ - inject_Z start) * t).

Section Frame.

Variable seeded_random : Z -> Q.

(** One turn of the loop [for key in self.anim_enabled]. *)
Definition animate_key (self : gui Q) (frame total_frames : Z)
    (key : string) (enabled : bool) (params : option (gmap string Q))
    : option (gmap string Q) :=
  params ← params;
  if enabled then
    value ← calculate_animated_value seeded_random self key frame total_frames;
    Some (<[key := value]> params)
  else Some params.

(** [get_animated_params]: a copy of the parameters of the current
    sprite type, with every animated parameter and, when the colour
    animation is on, the three colour channels replaced by their values
    at [frame]. *)
Definition get_animated_params (self : gui Q) (colors : color_anim)
    (frame total_frames : Z) : option (gmap string Q) :=
  params ← sprite_params self !! current_sprite_type self;
  params ← map_fold (animate_key self frame total_frames) (Some params)
             (anim_enabled self);
  if color_anim_enabled colors then
    let '(start_r, start_g, start_b) := color_start colors in
    let '(end_r, end_g, end_b) := color_end colors in
    let params :=
      <["color_r" :=
          inject_Z (color_channel start_r end_r frame total_frames)]> params in
    let params :=
      <["color_g" :=
          inject_Z (color_channel start_g end_g frame total_frames)]> params in
    let params :=
      <["color_b" :=
          inject_Z (color_channel start_b end_b frame total_frames)]> params in
    Some params
  else Some params.

End Frame.

(** [v] lies between [a] and [b], whichever is larger. *)
Definition betweenZ (a b v : Z) : Prop := (Z.min a b <= v <= Z.max a b)%Z.

(** A window showing a circle whose radius and softness sliders are
    animated, the first with style [style] and curve [curve]. *)
Definition circle_window (style curve : string) : gui Q :=
  {| anim_enabled := {[ "radius"%string := true; "softness"%string := false ]};
     anim_start := {[ "radius"%string := 1 # 10; "softness"%string := 0 ]};
     anim_end := {[ "radius"%string := 4 # 10; "softness"%string := 1 ]};
     anim_style := {[ "radius"%string := style;
                      "softness"%string := "Linear"%string ]};
     anim_curve := {[ "radius"%string := curve;
                      "softness"%string := "Linear"%string ]};
     sprite_params :=
       {[ "Circle"%string :=
            {[ "radius"%string := 4 # 10; "softness"%string := 1 # 10;
               "gradient"%string := 0; "color_r"%string := 255;
               "color_g"%string := 255; "color_b"%string := 255;
               "alpha"%string := 1 ]} ]};
     current_sprite_type := "Circle" |}.

(** The radius animation of such a window as the program holds it, in
    binary64: the start and end spin boxes at 10 and 40, scaled by
    [0.01]. *)
Definition radius_window (style curve : string) : gui float :=
  {| anim_enabled := {[ "radius"%string := true ]};
     anim_start := {[ "radius"%string := (Np.of_Z 10 * 0.01)%float ]};
     anim_end := {[ "radius"%string := (Np.of_Z 40 * 0.01)%float ]};
     anim_style := {[ "radius"%string := style ]};
     anim_curve := {[ "radius"%string := curve ]};
     sprite_params := ∅;
     current_sprite_type := "Circle" |}.

Definition fade_to_red : color_anim :=
  {| color_anim_enabled := true;
     color_start := (255, 255, 255)%Z;
     color_end := (255, 0, 0)%Z |}.

End Frames.

(** ** Pixels without light *)

Module Pixel.

(** The intensities that leave no light: nan and the zeros, as the
    IEEE-754 values they are. *)
Definition lightless (sf : spec_float) : Prop :=
  sf = S754_nan \/ exists s, sf = S754_zero s.

(** [np.isnan(i) or i == 0] *)
Definition nan_or_zero (i : float) : bool :=
  (is_nan i || (i =? 0))%float.

End Pixel.

(* ================================================================== *)
(** * Part II: properties *)
(* ================================================================== *)

(** ** Atlas layout *)

Module AtlasFacts.

Import Atlas.
Local Open Scope Z_scope.

(** [ceil_sqrt n] is the least integer whose square reaches [n]. *)
Lemma ceil_sqrt_spec (n : Z) :
  1 <= n ->
  1 <= Py.ceil_sqrt n /\ (Py.ceil_sqrt n - 1) ^ 2 < n <= Py.ceil_sqrt n ^ 2.
Proof.
  intros Hn. unfold Py.ceil_sqrt.
  pose proof (Z.sqrt_spec n ltac:(lia)) as Hs.
  pose proof (Z.sqrt_nonneg n) as H0.
  cbv zeta. rewrite !Z.pow_2_r. unfold Z.succ in Hs.
  destruct (Z.eqb_spec (Z.sqrt n * Z.sqrt n) n) as [E | E]; nia.
Qed.

(** [ceil_div n c] is the least integer [r] with [n <= c * r]. *)
Lemma ceil_div_spec (n c : Z) :
  0 < c -> c * (Py.ceil_div n c - 1) < n <= c * Py.ceil_div n c.
Proof.
  intros Hc. unfold Py.ceil_div.
  pose proof (Z.div_mod (- n) c ltac:(lia)) as Hd.
  pose proof (Z.mod_pos_bound (- n) c Hc) as Hm.
  nia.
Qed.

(** C7.  For every frame count [>= 1] the Auto (Square) layout is
    [cols = ceil(sqrt(frame_count))] (the least integer whose square
    reaches the count) and [rows = ceil(frame_count / cols)] (the least
    number of rows of [cols] cells holding the count), so the grid has
    at least [frame_count] cells; the grid of the noise tool's atlas
    export is the same. *)
Theorem auto_square_layout (frame_count : Z) (current : Z * Z) :
  1 <= frame_count ->
  exists cols rows,
    auto_calculate_atlas_layout "Auto (Square)" frame_count current
      = Some (cols, rows)
    /\ export_atlas_grid frame_count = Some (cols, rows)
    /\ 1 <= cols /\ (cols - 1) ^ 2 < frame_count <= cols ^ 2
    /\ cols * (rows - 1) < frame_count <= cols * rows
    /\ frame_count <= cols * rows.
Proof.
  intros Hn.
  destruct (ceil_sqrt_spec frame_count Hn) as [Hc Hsq].
  pose proof (ceil_div_spec frame_count (Py.ceil_sqrt frame_count) ltac:(lia))
    as Hrows.
  exists (Py.ceil_sqrt frame_count),
         (Py.ceil_div frame_count (Py.ceil_sqrt frame_count)).
  unfold auto_calculate_atlas_layout, export_atlas_grid. cbn [String.eqb Ascii.eqb Bool.eqb].
  replace (frame_count <? 0) with false by lia.
  replace (frame_count <=? 0) with false by lia.
  replace (Py.ceil_sqrt frame_count =? 0) with false by lia.
  rewrite !Z.pow_2_r in *.
  repeat split; try reflexivity; lia.
Qed.

(** The scenario of the specification: 17 frames pack as 5 x 4. *)
Lemma auto_square_layout_17 :
  1 <= 17 /\
  exists cols rows,
    auto_calculate_atlas_layout "Auto (Square)" 17 (1, 1) = Some (cols, rows)
    /\ export_atlas_grid 17 = Some (cols, rows)
    /\ 1 <= cols /\ (cols - 1) ^ 2 < 17 <= cols ^ 2
    /\ cols * (rows - 1) < 17 <= cols * rows
    /\ 17 <= cols * rows.
Proof. split; [lia | apply (auto_square_layout 17 (1, 1)); lia]. Defined.

Example auto_square_16_17 :
  auto_calculate_atlas_layout "Auto (Square)" 16 (1, 1) = Some (4, 4)
  /\ auto_calculate_atlas_layout "Auto (Square)" 17 (1, 1) = Some (5, 4)
  /\ export_atlas_grid 17 = Some (5, 4).
Proof. repeat split. Qed.

(** On every frame count of the spin box and well beyond, the binary64
    computation of the interpreter gives the integers of the model. *)
Lemma auto_square_float_agrees :
  forallb (fun n =>
             match auto_square_float n, export_atlas_grid n with
             | Some (c, r), Some (c', r') => (c =? c') && (r =? r')
             | _, _ => false
             end)
          (map Z.of_nat (seq 1 4096)) = true.
Proof. vm_compute. reflexivity. Qed.

(** The other modes. *)
Lemma row_only_layout (n : Z) (current : Z * Z) :
  auto_calculate_atlas_layout "Row Only" n current = Some (n, 1).
Proof. reflexivity. Qed.

Lemma column_only_layout (n : Z) (current : Z * Z) :
  auto_calculate_atlas_layout "Column Only" n current = Some (1, n).
Proof. reflexivity. Qed.

Lemma manual_layout_kept (n : Z) (current : Z * Z) :
  auto_calculate_atlas_layout "Manual" n current = Some current.
Proof. reflexivity. Qed.

End AtlasFacts.

(** ** Sequence file names *)

Module NamingFacts.

Import Naming.
Local Open Scope nat_scope.
Local Open Scope string_scope.

Lemma length_app (s t : string) :
  String.length (s ++ t) = String.length s + String.length t.
Proof.
  induction s as [| c s IH]; [reflexivity |].
  change (S (String.length (s ++ t)) = S (String.length s + String.length t)).
  now rewrite IH.
Qed.

Lemma length_zeros (k : nat) : String.length (zeros k) = k.
Proof. induction k as [| k IH]; cbn; [reflexivity | now rewrite IH]. Qed.

(** The number of digits of [n] brackets [n] between powers of ten. *)
Lemma str_fuel_digits (fuel n : nat) :
  n < fuel ->
  1 <= String.length (str_fuel fuel n)
  /\ n < 10 ^ String.length (str_fuel fuel n)
  /\ (10 <= n -> 10 ^ (String.length (str_fuel fuel n) - 1) <= n).
Proof.
  revert n. induction fuel as [| fuel IH]; intros n Hn; [lia |].
  cbn [str_fuel]. destruct (Nat.ltb_spec n 10) as [Hlt | Hge].
  - cbn. lia.
  - assert (Hq : n / 10 < fuel).
    { pose proof (Nat.Div0.div_lt_upper_bound n 10 n). lia. }
    destruct (IH (n / 10) Hq) as (H1 & H2 & H3).
    rewrite length_app. cbn [String.length].
    set (L := String.length (str_fuel fuel (n / 10))) in *.
    replace (L + 1 - 1) with L by lia.
    replace (L + 1) with (S L) by lia. rewrite Nat.pow_succ_r'.
    pose proof (Nat.div_mod_eq n 10) as Hdm.
    pose proof (Nat.mod_upper_bound n 10 ltac:(lia)) as Hm.
    repeat split; try lia.
    intros _. destruct (Nat.le_gt_cases 10 (n / 10)) as [Hbig | Hsmall].
    + specialize (H3 Hbig).
      destruct L as [| L']; [lia |].
      replace (S L' - 1) with L' in H3 by lia.
      rewrite Nat.pow_succ_r'. lia.
    + assert (L = 1) as ->.
      { subst L. destruct fuel as [| fuel']; [lia |]. cbn [str_fuel].
        destruct (Nat.ltb_spec (n / 10) 10); [reflexivity | lia]. }
      cbn. lia.
Qed.

Lemma str_digits (n : nat) :
  1 <= String.length (str n)
  /\ n < 10 ^ String.length (str n)
  /\ (10 <= n -> 10 ^ (String.length (str n) - 1) <= n).
Proof. apply str_fuel_digits. lia. Qed.

(** A smaller index never has more digits. *)
Lemma str_length_mono (i n : nat) :
  i <= n -> String.length (str i) <= String.length (str n).
Proof.
  intros Hin.
  destruct (str_digits i) as (Hi1 & Hi2 & Hi3).
  destruct (str_digits n) as (Hn1 & Hn2 & Hn3).
  destruct (Nat.le_gt_cases (String.length (str i)) (String.length (str n)))
    as [Hle | Hgt]; [exact Hle | exfalso].
  assert (Hi10 : 10 <= i).
  { destruct (Nat.le_gt_cases 10 i) as [H | H]; [exact H |].
    assert (String.length (str i) = 1); [| lia].
    unfold str. cbn [str_fuel].
    destruct (Nat.ltb_spec i 10); [reflexivity | lia]. }
  specialize (Hi3 Hi10).
  assert (10 ^ String.length (str n) <= 10 ^ (String.length (str i) - 1)).
  { apply Nat.pow_le_mono_r; lia. }
  lia.
Qed.

Lemma format_0d_length (i width : nat) :
  String.length (str i) <= width ->
  String.length (format_0d i width) = width.
Proof.
  intros H. unfold format_0d. rewrite length_app, length_zeros. lia.
Qed.

(** C6, as stated, fails: with 10 frames the code pads to two digits
    ([len(str(10))]), not to one ([len(str(9))]). *)
Lemma frame_filename_not_spec :
  frame_prefix "Perlin" "None" "v00" = "perlin_v00"
  /\ frame_filename "perlin_v00" 10 0 = "perlin_v00_frame_00.png"
  /\ spec_frame_filename "perlin_v00" 10 0 = "perlin_v00_frame_0.png"
  /\ frame_filename "perlin_v00" 10 0 <> spec_frame_filename "perlin_v00" 10 0.
Proof. repeat split. vm_compute. discriminate. Qed.

(** C6, amended.  For every frame [i] of a sequence of [num_frames]
    frames, the file name is the prefix, [_frame_], the index and
    [.png], where the index is the decimal [i] filled with zeros on the
    left to exactly [len(str(num_frames))] digits.  (The prefix the
    exporter passes is [frame_prefix], built from the noise type names
    and the version suffix of the folder.) *)
Theorem frame_filename_padding (frame_prefix : string) (num_frames i : nat) :
  i < num_frames ->
  exists index : string,
    frame_filename frame_prefix num_frames i
      = frame_prefix ++ "_frame_" ++ index ++ ".png"
    /\ index = zeros (String.length (str num_frames)
                      - String.length (str i)) ++ str i
    /\ String.length index = String.length (str num_frames).
Proof.
  intros Hi. exists (format_0d i (padding_width num_frames)).
  split; [reflexivity |]. split; [reflexivity |].
  apply format_0d_length. unfold padding_width.
  apply str_length_mono. lia.
Qed.

Lemma frame_filename_padding_witness :
  3 < 100 /\
  exists index : string,
    frame_filename "simplex_v01" 100 3
      = "simplex_v01" ++ "_frame_" ++ index ++ ".png"
    /\ index = zeros (String.length (str 100) - String.length (str 3))
                 ++ str 3
    /\ String.length index = String.length (str 100).
Proof.
  split; [lia | apply (frame_filename_padding "simplex_v01" 100 3); lia].
Defined.

Example padding_width_samples :
  padding_width 10 = 2 /\ padding_width 16 = 2 /\ padding_width 100 = 3
  /\ frame_filename "simplex_v01" 100 3 = "simplex_v01_frame_003.png"
  /\ frame_prefix "Domain Warp" "Simplex" "v03" = "domainwarp_simplex_v03".
Proof. repeat split. Qed.

(** [str] agrees with the decimal printer of the standard library. *)
Example str_is_decimal :
  forallb (fun n => String.eqb (str n)
                      (DecimalString.NilZero.string_of_uint (Nat.to_uint n)))
          (seq 0 1200) = true.
Proof. vm_compute. reflexivity. Qed.

End NamingFacts.

(** ** Noise fields *)

Module NoiseFacts.

Import Num Noise.
Local Open Scope Q_scope.

(** *** Arrays built over [range] *)

Lemma nth_map_seq {A : Type} (f : nat -> A) (n i : nat) (d : A) :
  (i < n)%nat -> nth i (map f (seq 0 n)) d = f i.
Proof.
  intros Hi.
  rewrite (nth_indep _ d (f 0%nat)) by (rewrite length_map, length_seq; lia).
  rewrite (map_nth f (seq 0 n) 0%nat i), seq_nth by lia. reflexivity.
Qed.

Lemma get_map_seq (f : nat -> nat -> Q) (h w y x : nat) :
  (y < h)%nat -> (x < w)%nat ->
  get (map (fun y => map (fun x => f y x) (seq 0 w)) (seq 0 h)) y x = f y x.
Proof.
  intros Hy Hx. unfold get.
  rewrite (nth_map_seq (fun y => map (fun x => f y x) (seq 0 w))) by lia.
  apply (nth_map_seq (f y)). lia.
Qed.

Lemma shape_map_seq (f : nat -> nat -> Q) (h w : nat) :
  (h = 0%nat -> w = 0%nat) ->
  shape (map (fun y => map (fun x => f y x) (seq 0 w)) (seq 0 h)) = (h, w).
Proof.
  intros H0. unfold shape. rewrite length_map, length_seq.
  destruct h as [| h]; cbn [seq map hd length].
  - rewrite H0; reflexivity.
  - rewrite length_map, length_seq. reflexivity.
Qed.

(** *** The seamless tiler *)

Lemma make_seamless_blend_shape (a : Field) (blend_width : Q) :
  shape (make_seamless_blend a blend_width) = shape a.
Proof.
  unfold make_seamless_blend.
  destruct (shape a) as [h w] eqn:Hs.
  apply shape_map_seq. intros ->.
  unfold shape in Hs. destruct a; [inversion Hs; reflexivity | discriminate].
Qed.

Lemma make_seamless_blend_rect (a : Field) (blend_width : Q) :
  length (make_seamless_blend a blend_width) = length a
  /\ Forall (fun row => length row = snd (shape a))
            (make_seamless_blend a blend_width).
Proof.
  unfold make_seamless_blend.
  change (shape a) with (length a, snd (shape a)).
  cbv iota beta. split.
  - now rewrite length_map, length_seq.
  - apply List.Forall_forall. intros row Hin.
    apply in_map_iff in Hin. destruct Hin as (y & <- & _).
    now rewrite length_map, length_seq.
Qed.

(** C2.  For every field and blend width the seamless tiler returns a
    field of the shape of its input: as many rows, each as long as the
    rows of the input.  And every pixel whose distance to the top and
    bottom edges is at least [b_h = max(2, int(h * blend_width))] and
    whose distance to the left and right edges is at least
    [b_w = max(2, int(w * blend_width))] keeps exactly its value. *)
Theorem make_seamless_blend_frame (a : Field) (blend_width : Q) :
  let h := fst (shape a) in
  let w := snd (shape a) in
  let b_h := Z.max 2 (Py.int (inject_Z (Z.of_nat h) * blend_width)) in
  let b_w := Z.max 2 (Py.int (inject_Z (Z.of_nat w) * blend_width)) in
  shape (make_seamless_blend a blend_width) = shape a
  /\ length (make_seamless_blend a blend_width) = h
  /\ Forall (fun row => length row = w) (make_seamless_blend a blend_width)
  /\ forall y x : nat,
       (b_h <= Z.of_nat y)%Z -> (b_h <= Z.of_nat h - 1 - Z.of_nat y)%Z ->
       (b_w <= Z.of_nat x)%Z -> (b_w <= Z.of_nat w - 1 - Z.of_nat x)%Z ->
       get (make_seamless_blend a blend_width) y x = get a y x.
Proof.
  intros h w b_h b_w.
  split; [apply make_seamless_blend_shape |].
  split; [apply make_seamless_blend_rect |].
  split; [apply make_seamless_blend_rect |].
  intros y x Hy1 Hy2 Hx1 Hx2.
  unfold make_seamless_blend.
  change (shape a) with (fst (shape a), snd (shape a)) at 1.
  fold h w. cbv iota beta.
  rewrite get_map_seq by lia.
  unfold edge_weight, blend_zone. fold b_h b_w.
  replace (Z.of_nat y <? b_h)%Z with false by lia.
  replace (Z.of_nat h - b_h <=? Z.of_nat y)%Z with false by lia.
  replace (Z.of_nat x <? b_w)%Z with false by lia.
  replace (Z.of_nat w - b_w <=? Z.of_nat x)%Z with false by lia.
  reflexivity.
Qed.

(** On a 5 x 5 field with the default width the bands are two pixels
    thick: the shape is kept and the centre pixel is untouched, while
    the corner is blended. *)
Example make_seamless_blend_centre :
  let a : Field := [[1; 2; 3; 4; 5]; [6; 7; 8; 9; 10]; [11; 12; 13; 14; 15];
                    [16; 17; 18; 19; 20]; [21; 22; 23; 24; 25]] in
  shape (make_seamless_blend a (1 # 10)) = (5, 5)%nat
  /\ get (make_seamless_blend a (1 # 10)) 2 2 = 13
  /\ Qeq_bool (get (make_seamless_blend a (1 # 10)) 0 0) (get a 0 0) = false.
Proof. vm_compute. repeat split. Qed.

(** *** The layer blender *)

(** C9.  Blending two fields of the same shape in mode Mix returns the
    first field at weight 0 and the second at weight 1. *)
Theorem blend_mix_identity (noise_a noise_b : Field) :
  same_shape noise_a noise_b ->
  field_eq (Blend.blend_noise noise_a noise_b 0 "Mix") noise_a
  /\ field_eq (Blend.blend_noise noise_a noise_b 1 "Mix") noise_b.
Proof.
  intros Hs. unfold field_eq, Blend.blend_noise.
  induction Hs as [| ra rb a b Hlen Hs [IH0 IH1]]; cbn [zip_with].
  - split; constructor.
  - split; (constructor; [| assumption]).
    + clear - Hlen. revert rb Hlen.
      induction ra as [| va ra IH]; intros [| vb rb] Hlen;
        try discriminate; cbn [zip_with]; constructor.
      * unfold Blend.blend_pixel. cbn. ring.
      * apply IH. now injection Hlen.
    + clear - Hlen. revert rb Hlen.
      induction ra as [| va ra IH]; intros [| vb rb] Hlen;
        try discriminate; cbn [zip_with]; constructor.
      * unfold Blend.blend_pixel. cbn. ring.
      * apply IH. now injection Hlen.
Qed.

Lemma blend_mix_identity_witness :
  let a : Field := [[0; 1 # 4]; [1 # 2; 1]] in
  let b : Field := [[1; 3 # 4]; [1 # 3; 0]] in
  field_eq (Blend.blend_noise a b 0 "Mix") a
  /\ field_eq (Blend.blend_noise a b 1 "Mix") b.
Proof.
  intros a b. apply (blend_mix_identity a b).
  repeat constructor.
Defined.

(** Over binary64 the same definition returns the two layers exactly as
    well, on every pair of pixel values [k / 100]: the products by 1 and
    by 0 and the sum with 0 are not rounded. *)
Example blend_mix_identity_binary64 :
  forallb (fun a =>
    forallb (fun b =>
      PrimFloat.eqb (Blend.blend_pixel "Mix" 0%float a b) a
      && PrimFloat.eqb (Blend.blend_pixel "Mix" 1%float a b) b)
      Blend.percent_values)
    Blend.percent_values = true.
Proof. vm_compute. reflexivity. Qed.

(** The scenarios of the specification for mode Add. *)
Example blend_add_clamps :
  field_eq (Blend.blend_noise [[1; 1]] [[0; 0]] (1 # 2) "Add") [[1; 1]]
  /\ field_eq (Blend.blend_noise [[0; 0]] [[1; 1]] (1 # 2) "Add")
              [[1 # 2; 1 # 2]].
Proof. split; repeat constructor. Qed.

(** *** Dispatch and seeds *)

Lemma map_repeat {A B : Type} (f : A -> B) (v : A) (n : nat) :
  map f (repeat v n) = repeat (f v) n.
Proof. induction n as [| n IH]; cbn; [reflexivity | now rewrite IH]. Qed.

Lemma grid_ext (h w : nat) (f g : nat -> nat -> option Q) :
  (forall y x, f y x = g y x) -> grid h w f = grid h w g.
Proof.
  intros Hfg. unfold grid. apply mapM_ext. intros y.
  apply mapM_ext. intros x. apply Hfg.
Qed.

Lemma int_inject_Z (z : Z) : Py.int (inject_Z z) = z.
Proof. unfold Py.int, inject_Z. cbn. apply Z.quot_1_r. Qed.

Lemma seed_of_period (s : Z) :
  seed_of (inject_Z (s + 256)) = seed_of (inject_Z s).
Proof.
  unfold seed_of. rewrite !int_inject_Z.
  replace (s + 256)%Z with (s + 1 * 256)%Z by lia.
  apply Z_mod_plus_full.
Qed.

Section Primitives.

Variable pnoise3 : Q -> Q -> Q -> Z -> Q -> Q -> Z -> Q.
Variable simplex_noise3 : Z -> Q -> Q -> Q -> Q.
Variable perlin_noise : Z -> Z -> Q -> Q -> Q -> Q.
Variable py_pow : Q -> Q -> Q.

Local Abbreviation generate :=
  (generate pnoise3 simplex_noise3 perlin_noise py_pow).

(** C3, amended.  A noise type outside the supported set never
    raises: [generate] returns the all-zero field when [invert] is
    unset, and that field inverted (every pixel [1 - 0]) when
    [invert] is set. *)
Theorem generate_unknown_type (noise_type : string) (width height : nat)
    (p : params) (seamless : bool) (blend_width : Q) :
  ~ In noise_type supported ->
  generate noise_type width height p seamless blend_width
  = Some (if Py.truthy (default 0 (p !! "invert"))
          then repeat (repeat (1 - 0) width) height
          else np_zeros height width).
Proof.
  intros Hns. unfold Noise.generate.
  repeat match goal with
  | |- context [String.eqb noise_type ?s] =>
      destruct (String.eqb_spec noise_type s) as [-> | _];
      [exfalso; apply Hns; cbn; tauto |]
  end.
  cbn. destruct (Py.truthy _); [| reflexivity].
  unfold np_zeros. rewrite !map_repeat. reflexivity.
Qed.

Lemma offsets_same (p1 p2 : params) :
  same_but_seed p1 p2 -> offsets p1 = offsets p2.
Proof.
  intros [H _]. unfold offsets. rewrite !(H _) by discriminate. reflexivity.
Qed.

Lemma perlin_map_same (w h : nat) (p1 p2 : params) :
  same_but_seed p1 p2 ->
  perlin_map pnoise3 w h p1 = perlin_map pnoise3 w h p2.
Proof.
  intros Hp. pose proof (offsets_same _ _ Hp) as Ho.
  destruct Hp as [H Hs]. unfold perlin_map.
  rewrite (H "scale"%string), (H "octaves"%string), Ho by discriminate.
  destruct (p2 !! "scale"%string) as [scale |]; [| reflexivity].
  destruct (p2 !! "octaves"%string) as [oct |]; [| reflexivity]. cbn.
  destruct (p1 !! "seed"%string) as [a |], (p2 !! "seed"%string) as [b |];
    cbn in Hs; try discriminate; [| reflexivity].
  injection Hs as Hs. cbn. rewrite Hs.
  destruct (offsets p2) as [[x_off y_off] z_off].
  apply grid_ext. intros y x.
  rewrite (H "persistence"%string), (H "lacunarity"%string) by discriminate.
  reflexivity.
Qed.

Lemma simplex_map_same (w h : nat) (p1 p2 : params) :
  same_but_seed p1 p2 ->
  simplex_map simplex_noise3 w h p1 = simplex_map simplex_noise3 w h p2.
Proof.
  intros Hp. pose proof (offsets_same _ _ Hp) as Ho.
  destruct Hp as [H Hs]. unfold simplex_map.
  rewrite (H "scale"%string), Ho by discriminate.
  destruct (p1 !! "seed"%string) as [a |], (p2 !! "seed"%string) as [b |];
    cbn in Hs; try discriminate; [| reflexivity].
  injection Hs as Hs. cbn. rewrite Hs. reflexivity.
Qed.

Lemma fbm_map_same (w h : nat) (p1 p2 : params) :
  same_but_seed p1 p2 ->
  fbm_map perlin_noise w h p1 = fbm_map perlin_noise w h p2.
Proof.
  intros Hp. pose proof (offsets_same _ _ Hp) as Ho.
  destruct Hp as [H Hs]. unfold fbm_map.
  rewrite (H "scale"%string), (H "octaves"%string), Ho by discriminate.
  destruct (p2 !! "octaves"%string) as [oct |]; [| reflexivity]. cbn.
  destruct (p1 !! "seed"%string) as [a |], (p2 !! "seed"%string) as [b |];
    cbn in Hs; try discriminate; [| reflexivity].
  injection Hs as Hs. cbn. rewrite Hs. reflexivity.
Qed.

Lemma turbulence_map_same (w h : nat) (p1 p2 : params) :
  same_but_seed p1 p2 ->
  turbulence_map simplex_noise3 py_pow w h p1
  = turbulence_map simplex_noise3 py_pow w h p2.
Proof.
  intros Hp. pose proof (offsets_same _ _ Hp) as Ho.
  destruct Hp as [H Hs]. unfold turbulence_map.
  rewrite (H "scale"%string), (H "power"%string), Ho by discriminate.
  destruct (p1 !! "seed"%string) as [a |], (p2 !! "seed"%string) as [b |];
    cbn in Hs; try discriminate; [| reflexivity].
  injection Hs as Hs. cbn. rewrite Hs. reflexivity.
Qed.

Lemma ridged_map_same (w h : nat) (p1 p2 : params) :
  same_but_seed p1 p2 ->
  ridged_map simplex_noise3 w h p1 = ridged_map simplex_noise3 w h p2.
Proof.
  intros Hp. pose proof (offsets_same _ _ Hp) as Ho.
  destruct Hp as [H Hs]. unfold ridged_map.
  rewrite (H "scale"%string), (H "octaves"%string), Ho by discriminate.
  destruct (p1 !! "seed"%string) as [a |], (p2 !! "seed"%string) as [b |];
    cbn in Hs; try discriminate; [| reflexivity].
  injection Hs as Hs. cbn. rewrite Hs. reflexivity.
Qed.

Lemma domain_warp_map_same (w h : nat) (p1 p2 : params) :
  same_but_seed p1 p2 ->
  domain_warp_map simplex_noise3 w h p1
  = domain_warp_map simplex_noise3 w h p2.
Proof.
  intros Hp. pose proof (offsets_same _ _ Hp) as Ho.
  destruct Hp as [H Hs]. unfold domain_warp_map.
  rewrite (H "scale"%string), (H "warp"%string), Ho by discriminate.
  destruct (p1 !! "seed"%string) as [a |], (p2 !! "seed"%string) as [b |];
    cbn in Hs; try discriminate; [| reflexivity].
  injection Hs as Hs. cbn. rewrite Hs. reflexivity.
Qed.

Lemma generate_same (noise_type : string) (width height : nat)
    (p1 p2 : params) (seamless : bool) (blend_width : Q) :
  same_but_seed p1 p2 ->
  generate noise_type width height p1 seamless blend_width
  = generate noise_type width height p2 seamless blend_width.
Proof.
  intros Hp. unfold Noise.generate, _perlin, _simplex, _fbm, _turbulence,
    _ridged, _domain_warp.
  rewrite (perlin_map_same _ _ _ _ Hp), (simplex_map_same _ _ _ _ Hp),
    (fbm_map_same _ _ _ _ Hp), (turbulence_map_same _ _ _ _ Hp),
    (ridged_map_same _ _ _ _ Hp), (domain_warp_map_same _ _ _ _ Hp).
  destruct Hp as [H _]. rewrite (H "invert"%string) by discriminate.
  reflexivity.
Qed.

(** C10.  For every noise type, size and parameter bag, [generate]
    with the integer seed [s + 256] returns the field it returns with
    the seed [s]: only the residue of the seed modulo 256 is used. *)
Theorem generate_seed_period (noise_type : string) (width height : nat)
    (p : params) (s : Z) (seamless : bool) (blend_width : Q) :
  generate noise_type width height (<["seed" := inject_Z (s + 256)]> p)
    seamless blend_width
  = generate noise_type width height (<["seed" := inject_Z s]> p)
      seamless blend_width.
Proof.
  apply generate_same. split.
  - intros k Hk. rewrite !lookup_insert_ne by congruence. reflexivity.
  - rewrite !lookup_insert_eq. cbn. f_equal. apply seed_of_period.
Qed.

End Primitives.

Lemma generate_unknown_type_witness :
  generate flat_pnoise3 ramp_simplex ramp_perlin square_pow
    "Voronoi" 3 2 params_a true (1 # 10)
  = Some (if Py.truthy (default 0 (params_a !! "invert"))
          then repeat (repeat (1 - 0) 3%nat) 2%nat
          else np_zeros 2 3).
Proof.
  apply (generate_unknown_type flat_pnoise3 ramp_simplex ramp_perlin
           square_pow "Voronoi" 3 2 params_a true (1 # 10)).
  cbn. intros H. repeat destruct H as [H | H]; try discriminate H; exact H.
Defined.

(** C3, as stated, fails: with [invert] set the silent default for an
    unknown type is the all-one field, not the all-zero one. *)
Lemma generate_unknown_type_inverted :
  generate flat_pnoise3 ramp_simplex ramp_perlin square_pow
    "Voronoi" 3 2 (<["invert" := 1]> params_a) false (1 # 10)
  = Some [[1; 1; 1]; [1; 1; 1]]
  /\ np_zeros 2 3 = [[0; 0; 0]; [0; 0; 0]]
  /\ generate flat_pnoise3 ramp_simplex ramp_perlin square_pow
       "Voronoi" 3 2 (<["invert" := 1]> params_a) false (1 # 10)
     <> Some (np_zeros 2 3).
Proof. repeat split. vm_compute. discriminate. Qed.

(** *** Values in the unit interval *)

Lemma div_unit (a b : Q) : 0 <= a -> a <= b -> 0 < b -> 0 <= a / b <= 1.
Proof.
  intros Ha Hab Hb. split.
  - apply Qle_shift_div_l; [exact Hb | lra].
  - apply Qle_shift_div_r; [exact Hb | lra].
Qed.








(** *** Extremes of a field *)









Lemma ltb_true (a b : Q) : Py.ltb a b = true -> a < b.
Proof.
  unfold Py.ltb. destruct (Qle_bool b a) eqn:E; [discriminate |].
  intros _. apply Qnot_le_lt. intros H. apply Qle_bool_iff in H. congruence.
Qed.

Lemma ltb_false (a b : Q) : Py.ltb a b = false -> b <= a.
Proof.
  unfold Py.ltb. destruct (Qle_bool b a) eqn:E; [| discriminate].
  intros _. apply Qle_bool_iff. exact E.
Qed.




(** *** The loops over the grid return *)








(** Membership in the key list of a noise type. *)
Ltac key := cbn [indexed_keys String.eqb Ascii.eqb Bool.eqb In];
  repeat first [left; reflexivity | right].

Section Bounds.

Variable pnoise3 : Q -> Q -> Q -> Z -> Q -> Q -> Z -> Q.
Variable simplex_noise3 : Z -> Q -> Q -> Q -> Q.
Variable perlin_noise : Z -> Z -> Q -> Q -> Q -> Q.
Variable py_pow : Q -> Q -> Q.

(** The contract of the consumed primitives: simplex noise stays in
    [[-1, 1]], and a power of a non-negative base is non-negative. *)
Hypothesis simplex_range :
  forall seed x y z, - (1) <= simplex_noise3 seed x y z <= 1.
Hypothesis pow_nonneg : forall x y, 0 <= x -> 0 <= py_pow x y.

Local Abbreviation generate :=
  (generate pnoise3 simplex_noise3 perlin_noise py_pow).











End Bounds.


Section SinglePixel.

Variable pnoise3 : Q -> Q -> Q -> Z -> Q -> Q -> Z -> Q.
Variable simplex_noise3 : Z -> Q -> Q -> Q -> Q.
Variable perlin_noise : Z -> Z -> Q -> Q -> Q -> Q.
Variable py_pow : Q -> Q -> Q.


(** An octave count below one is refused by the Perlin libraries: the
    call raises instead of returning a field. *)
Lemma generate_refuses_octaves (width height : nat) (p : params) (oct : Q)
    (seamless : bool) (blend_width : Q) :
  p !! "octaves" = Some oct -> (octaves_of oct <= 0)%Z ->
  generate pnoise3 simplex_noise3 perlin_noise py_pow
    "FBM" width height p seamless blend_width = None.
Proof.
  intros Ho Hk. unfold Noise.generate. cbn [String.eqb Ascii.eqb Bool.eqb].
  unfold _fbm, fbm_map. rewrite Ho. cbn [mbind option_bind].
  destruct (p !! "seed"%string); [| reflexivity]. cbn [mbind option_bind].
  replace (octaves_refused (octaves_of oct)) with true
    by (unfold octaves_refused; lia).
  reflexivity.
Qed.

End SinglePixel.







End NoiseFacts.

(** ** Binary64 arithmetic that is not rounded *)

Module Binary64Facts.

Import Np.
Local Open Scope float_scope.

Lemma is_finite_finite (x : float) : is_finite x = true -> finite x.
Proof.
  unfold is_finite, is_nan, is_infinity, finite.
  rewrite !FloatAxioms.eqb_spec, abs_spec.
  change (Prim2SF infinity) with (S754_infinity false).
  destruct (Prim2SF x) as [[] | [] | | s m e]; cbn; try tauto; discriminate.
Qed.

Lemma SFcompare_refl (x : spec_float) :
  x <> S754_nan -> SFcompare x x = Some Eq.
Proof.
  destruct x as [s | s | | s m e]; cbn; try congruence.
  - destruct s; reflexivity.
  - intros _. rewrite Z.compare_refl, Pos.compare_cont_refl.
    destruct s; reflexivity.
Qed.

(** [x * z] is a zero when [z] is. *)
Lemma mul_zero_r (x z : float) (s : bool) :
  finite x -> Prim2SF z = S754_zero s -> exists s', Prim2SF (x * z) = S754_zero s'.
Proof.
  unfold finite. rewrite mul_spec. intros Hx ->.
  destruct (Prim2SF x) as [sx | sx | | sx m e]; cbn; try tauto; eauto.
Qed.

(** [x + z == x] when [z] is a zero. *)
Lemma add_zero_r (x z : float) (s : bool) :
  finite x -> Prim2SF z = S754_zero s -> (x + z =? x) = true.
Proof.
  unfold finite. rewrite FloatAxioms.eqb_spec, add_spec. intros Hx ->.
  unfold SFeqb.
  destruct (Prim2SF x) as [sx | sx | | sx m e]; try tauto.
  - destruct sx, s; reflexivity.
  - cbn [SF64add SFadd]. rewrite SFcompare_refl by discriminate. reflexivity.
Qed.


(** [x - z] is [x] when [z] is a zero and [x] is not. *)
Lemma sub_zero_r (x z : float) (sx s : bool) (m : positive) (e : Z) :
  Prim2SF x = S754_finite sx m e -> Prim2SF z = S754_zero s -> x - z = x.
Proof.
  intros Hx Hz. apply Prim2SF_inj. now rewrite sub_spec, Hz, Hx.
Qed.

(** *** Rounding a value that needs none *)

Lemma digits2_iter_xO (p n : positive) :
  digits2_pos (Pos.iter xO p n) = (digits2_pos p + n)%positive.
Proof.
  induction n as [| n IH] using Pos.peano_ind.
  - cbn. now rewrite Pos.add_1_r.
  - rewrite Pos.iter_succ. cbn [digits2_pos]. rewrite IH. lia.
Qed.

Lemma digits2_size (p : positive) : digits2_pos p = Pos.size p.
Proof. induction p as [p IH | p IH |]; cbn; congruence. Qed.

(** A mantissa already in canonical position is kept as it is. *)
Lemma shr_fexp_canonical (m : positive) (e : Z) :
  bounded prec emax m e = true ->
  shr_fexp prec emax (Zpos m) e loc_Exact
  = ({| shr_m := Zpos m; shr_r := false; shr_s := false |}, e).
Proof.
  unfold bounded, canonical_mantissa. intros H.
  apply andb_prop in H as [Hc _]. apply Z.eqb_eq in Hc.
  unfold shr_fexp. cbn [Zdigits2]. rewrite Hc, Z.sub_diag. reflexivity.
Qed.

Lemma binary_round_aux_canonical (s : bool) (m : positive) (e : Z) :
  bounded prec emax m e = true ->
  binary_round_aux prec emax s (Zpos m) e loc_Exact = S754_finite s m e.
Proof.
  intros H. unfold binary_round_aux.
  rewrite (shr_fexp_canonical m e H).
  cbn [shr_m loc_of_shr_record round_nearest_even].
  rewrite (shr_fexp_canonical m e H). cbn [shr_m].
  apply andb_prop in H as [_ Hb]. rewrite Hb. reflexivity.
Qed.

Lemma valid_bounded (x : float) (s : bool) (m : positive) (e : Z) :
  Prim2SF x = S754_finite s m e -> bounded prec emax m e = true.
Proof. intros H. pose proof (Prim2SF_valid x) as Hv. now rewrite H in Hv. Qed.

(** *** Products by one, quotients of equals *)

Lemma mul_one_r (x : float) : x * 1 = x.
Proof.
  apply Prim2SF_inj. rewrite mul_spec.
  change (Prim2SF 1) with (S754_finite false 4503599627370496 (-52)).
  destruct (Prim2SF x) as [[] | [] | | s m e] eqn:E; try reflexivity.
  pose proof (valid_bounded x s m e E) as Hv.
  unfold SF64mul, SFmul. rewrite Bool.xorb_false_r.
  assert (Hc : fexp prec emax (Zpos (digits2_pos m) + e) = e).
  { unfold bounded, canonical_mantissa in Hv.
    apply andb_prop in Hv as [Hc _]. now apply Z.eqb_eq in Hc. }
  assert (Hm : (m * 4503599627370496)%positive = Pos.iter xO m 52)
    by (rewrite Pos.mul_comm; reflexivity).
  assert (Hs : shr_fexp prec emax (Zpos (m * 4503599627370496)) (e + -52)
                 loc_Exact
               = ({| shr_m := Zpos m; shr_r := false; shr_s := false |}, e)).
  { unfold shr_fexp. cbn [Zdigits2]. rewrite Hm, digits2_iter_xO.
    replace (Zpos (digits2_pos m + 52) + (e + -52))%Z
      with (Zpos (digits2_pos m) + e)%Z by lia.
    rewrite Hc. replace (e - (e + -52))%Z with 52%Z by lia.
    unfold shr. apply f_equal2; [reflexivity | lia]. }
  unfold binary_round_aux. rewrite Hs.
  cbn [shr_m loc_of_shr_record round_nearest_even].
  rewrite (shr_fexp_canonical m e Hv). cbn [shr_m].
  apply andb_prop in Hv as [_ Hb]. rewrite Hb. reflexivity.
Qed.

(** The quotient of two floats of the same sign and mantissa whose
    exponents differ by [0] or [1]. *)
Lemma div_eucl_shift (m : positive) :
  Z.div_eucl (Z.shiftl (Zpos m) 53) (Zpos m) = (9007199254740992, 0)%Z.
Proof.
  assert (H : Z.div_eucl (Z.shiftl (Zpos m) 53) (Zpos m)
              = ((Z.shiftl (Zpos m) 53 / Zpos m)%Z,
                 (Z.shiftl (Zpos m) 53 mod Zpos m)%Z)).
  { unfold Z.div, Z.modulo. now destruct (Z.div_eucl _ _). }
  rewrite H, Z.shiftl_mul_pow2 by lia.
  rewrite (Z.mul_comm (Zpos m)), Z.div_mul, Z.mod_mul by lia. reflexivity.
Qed.

Lemma new_location_zero (n : Z) : new_location n 0 = loc_Exact.
Proof. unfold new_location. now destruct (Z.even n). Qed.

Lemma SFdiv_same (s : bool) (m : positive) (e : Z) :
  SF64div (S754_finite s m e) (S754_finite s m e) = Prim2SF 1.
Proof.
  unfold SF64div, SFdiv, SFdiv_core_binary.
  rewrite !Z.sub_diag.
  change (Z.min (fexp prec emax 0) 0) with (-53)%Z.
  change (0 - -53)%Z with 53%Z. cbv iota beta.
  rewrite div_eucl_shift, new_location_zero, Bool.xorb_nilpotent.
  reflexivity.
Qed.

Lemma SFdiv_double (s : bool) (m : positive) (e : Z) :
  SF64div (S754_finite s m e) (S754_finite s m (e + 1)) = Prim2SF 0.5.
Proof.
  unfold SF64div, SFdiv, SFdiv_core_binary.
  replace (Zdigits2 (Zpos m) + e - (Zdigits2 (Zpos m) + (e + 1)))%Z
    with (-1)%Z by lia.
  replace (e - (e + 1))%Z with (-1)%Z by lia.
  change (Z.min (fexp prec emax (-1)) (-1)) with (-54)%Z.
  change (-1 - -54)%Z with 53%Z. cbv iota beta.
  rewrite div_eucl_shift, new_location_zero, Bool.xorb_nilpotent.
  reflexivity.
Qed.

(** *** Integers as floats *)

Lemma digits2_bound (p : positive) :
  (Zpos p < 2 ^ 53)%Z -> (Zpos (digits2_pos p) <= 53)%Z.
Proof.
  intros Hp. rewrite digits2_size.
  destruct (Z.le_gt_cases (Zpos (Pos.size p)) 53) as [H | H]; [exact H |].
  pose proof (Pos.size_le p) as Hle.
  assert (H2 : (2 ^ 54 <= 2 ^ Zpos (Pos.size p))%Z)
    by (apply Z.pow_le_mono_r; lia).
  assert (H3 : (2 ^ Zpos (Pos.size p) <= Zpos p~0)%Z).
  { rewrite <- Pos2Z.inj_pow. apply Pos2Z.pos_le_pos. exact Hle. }
  change (2 ^ 54)%Z with (2 * 2 ^ 53)%Z in H2. lia.
Qed.

Lemma of_uint63_SF (p : positive) :
  (Zpos p < 2 ^ 53)%Z ->
  Prim2SF (of_uint63 (Uint63.of_Z (Zpos p)))
  = S754_finite false (normal p) (Zpos (digits2_pos p) - 53).
Proof.
  intros Hp. pose proof (digits2_bound p Hp) as Hd.
  rewrite of_uint63_spec, Uint63.of_Z_spec.
  rewrite Z.mod_small
    by (split; [lia |]; apply Z.lt_trans with (2 ^ 53)%Z; [exact Hp | reflexivity]).
  unfold binary_normalize, binary_round.
  assert (Hf : fexp prec emax (Zpos (digits2_pos p) + 0)
               = (Zpos (digits2_pos p) - 53)%Z).
  { unfold fexp, emin, prec, emax. lia. }
  rewrite Hf.
  assert (Ha : shl_align p 0 (Zpos (digits2_pos p) - 53)
               = (normal p, (Zpos (digits2_pos p) - 53)%Z)).
  { unfold shl_align, normal. rewrite Z.sub_0_r.
    destruct (Zpos (digits2_pos p) - 53)%Z as [| n | n] eqn:E;
      [reflexivity | lia | reflexivity]. }
  rewrite Ha. apply binary_round_aux_canonical.
  unfold bounded, canonical_mantissa.
  assert (Hn : (Zpos (digits2_pos (normal p)) = 53)%Z).
  { unfold normal.
    destruct (Zpos (digits2_pos p) - 53)%Z as [| n | n] eqn:E; [lia | lia |].
    rewrite digits2_iter_xO. lia. }
  rewrite Hn. apply andb_true_intro. split.
  - apply Z.eqb_eq. unfold fexp, emin, prec, emax. lia.
  - apply Z.leb_le. unfold prec, emax. lia.
Qed.

Lemma normal_double (p : positive) :
  (Zpos p~0 < 2 ^ 53)%Z -> normal p~0 = normal p.
Proof.
  intros Hp. pose proof (digits2_bound _ Hp) as Hd. unfold normal.
  cbn [digits2_pos] in *.
  destruct (Zpos (Pos.succ (digits2_pos p)) - 53)%Z as [| n | n] eqn:E1;
    destruct (Zpos (digits2_pos p) - 53)%Z as [| k | k] eqn:E2; try lia.
  - assert (k = 1%positive) as -> by lia. reflexivity.
  - assert (k = Pos.succ n) as -> by lia.
    now rewrite Pos.iter_succ_r.
Qed.

(** An integer of [[1, 2^53)] converts to a positive float without
    rounding. *)
Lemma of_Z_SF (k : Z) :
  (1 <= k < 2 ^ 53)%Z ->
  exists p, k = Zpos p
            /\ Prim2SF (of_Z k)
               = S754_finite false (normal p) (Zpos (digits2_pos p) - 53).
Proof.
  intros Hk. destruct k as [| p | p]; try lia.
  exists p. split; [reflexivity |].
  unfold of_Z. change (Zpos p <? 0)%Z with false. cbv iota.
  apply of_uint63_SF. lia.
Qed.

(** *** The progress of an animation at its ends and in its middle *)

Lemma ratio_first (n : Z) : (1 <= n < 2 ^ 53)%Z -> of_Z 0 / of_Z n = 0.
Proof.
  intros Hn. destruct (of_Z_SF n Hn) as (p & _ & Hp).
  apply Prim2SF_inj. rewrite div_spec, Hp. reflexivity.
Qed.

Lemma ratio_last (n : Z) : (1 <= n < 2 ^ 53)%Z -> of_Z n / of_Z n = 1.
Proof.
  intros Hn. destruct (of_Z_SF n Hn) as (p & _ & Hp).
  apply Prim2SF_inj. rewrite div_spec, Hp. apply SFdiv_same.
Qed.

Lemma ratio_middle (k : Z) :
  (1 <= k)%Z -> (2 * k < 2 ^ 53)%Z -> of_Z k / of_Z (2 * k) = 0.5.
Proof.
  intros Hk H2.
  destruct (of_Z_SF k ltac:(lia)) as (p & -> & Hp).
  destruct (of_Z_SF (2 * Zpos p) ltac:(lia)) as (q & Hq & Hpq).
  assert (q = p~0%positive) as -> by lia.
  apply Prim2SF_inj. rewrite div_spec, Hp, Hpq.
  rewrite normal_double by lia. cbn [digits2_pos].
  replace (Zpos (Pos.succ (digits2_pos p)) - 53)%Z
    with (Zpos (digits2_pos p) - 53 + 1)%Z by lia.
  apply SFdiv_double.
Qed.

(** [start + difference * 0 == start] *)
Lemma interpolate_zero (start difference : float) :
  is_finite start = true -> is_finite difference = true ->
  (start + difference * 0 =? start) = true.
Proof.
  intros Hs Hd. apply is_finite_finite in Hs, Hd.
  destruct (mul_zero_r difference 0 false Hd eq_refl) as [s Hz].
  exact (add_zero_r start _ s Hs Hz).
Qed.

End Binary64Facts.

(** ** Parameter animation *)

Module AnimatorFacts.

Import Num Animator.

Section Exact.

Local Open Scope Q_scope.

Variable seeded_random : Z -> Q.

Local Abbreviation value_at := (calculate_animated_value seeded_random).

(** With style Linear and curve Linear the animated value is the
    linear interpolation at [frame / (total_frames - 1)]. *)
Lemma linear_value (self : gui Q) (key : string) (frame total_frames : Z) :
  anim_enabled self !! key = Some true ->
  default "Linear"%string (anim_style self !! key) = "Linear"%string ->
  default "Linear"%string (anim_curve self !! key) = "Linear"%string ->
  value_at self key frame total_frames
  = Some (default 0 (anim_start self !! key)
          + (default 1 (anim_end self !! key)
             - default 0 (anim_start self !! key))
            * (if (total_frames <=? 1)%Z then 0
               else inject_Z frame / inject_Z (total_frames - 1))).
Proof.
  intros He Hs Hc. unfold calculate_animated_value.
  rewrite He, Hs, Hc. reflexivity.
Qed.

(** Were the arithmetic exact, the value at frame 0 would be the start
    value and the value at the last frame the end value. *)
Lemma linear_boundary_exact (self : gui Q) (key : string) (total_frames : Z) :
  anim_enabled self !! key = Some true ->
  default "Linear"%string (anim_style self !! key) = "Linear"%string ->
  default "Linear"%string (anim_curve self !! key) = "Linear"%string ->
  let start := default 0 (anim_start self !! key) in
  let end_ := default 1 (anim_end self !! key) in
  ((1 < total_frames)%Z ->
   (exists v0, value_at self key 0 total_frames = Some v0 /\ v0 == start)
   /\ (exists v1, value_at self key (total_frames - 1) total_frames = Some v1
                  /\ v1 == end_))
  /\ (exists v, value_at self key 0 1 = Some v /\ v == start).
Proof.
  intros He Hs Hc start end_. split.
  - intros HN. split; eexists; (split; [apply linear_value; assumption |]);
      fold start end_; replace (total_frames <=? 1)%Z with false by lia.
    + unfold Qdiv. change (inject_Z 0) with 0. ring.
    + assert (Hnz : ~ inject_Z (total_frames - 1) == 0).
      { change 0 with (inject_Z 0). rewrite inject_Z_injective. lia. }
      field. exact Hnz.
  - eexists. split; [apply linear_value; assumption |].
    fold start end_. cbn. ring.
Qed.

End Exact.

Section Binary64.

Local Open Scope float_scope.

Variable seeded_random : Z -> float.

Local Abbreviation value_at := (calculate_animated_value seeded_random).

(** The progress of the first and of the last frame is exactly [0.0]
    and [1.0]: the quotient of two integers below [2^53] is rounded
    once, and these two are floats. *)
Lemma progress_first_binary64 (total_frames : Z) :
  (1 <= total_frames <= 2 ^ 53)%Z ->
  (if (total_frames <=? 1)%Z then Np.of_Z 0
   else Np.of_Z 0 / Np.of_Z (total_frames - 1)) = 0.
Proof.
  intros HN. destruct (Z.leb_spec total_frames 1); [reflexivity |].
  apply Binary64Facts.ratio_first. lia.
Qed.

Lemma progress_last_binary64 (total_frames : Z) :
  (1 < total_frames <= 2 ^ 53)%Z ->
  (if (total_frames <=? 1)%Z then Np.of_Z 0
   else Np.of_Z (total_frames - 1) / Np.of_Z (total_frames - 1)) = 1.
Proof.
  intros HN. destruct (Z.leb_spec total_frames 1); [lia |].
  apply Binary64Facts.ratio_last. lia.
Qed.

(** With style Linear and curve Linear, in binary64. *)
Lemma linear_value_binary64 (self : gui float) (key : string)
    (frame total_frames : Z) :
  anim_enabled self !! key = Some true ->
  default "Linear"%string (anim_style self !! key) = "Linear"%string ->
  default "Linear"%string (anim_curve self !! key) = "Linear"%string ->
  value_at self key frame total_frames
  = Some (default 0 (anim_start self !! key)
          + (default 1 (anim_end self !! key)
             - default 0 (anim_start self !! key))
            * (if (total_frames <=? 1)%Z then Np.of_Z 0
               else Np.of_Z frame / Np.of_Z (total_frames - 1))).
Proof.
  intros He Hs Hc. unfold calculate_animated_value.
  rewrite He, Hs, Hc. reflexivity.
Qed.

(** C8, amended.  As the program computes it, in binary64, with
    animation enabled, style Linear and curve Linear, for every frame
    count [N] from 1 to [2^53]:
    - the value at frame 0 equals the start value ([==] on floats), for
      every start value and difference [end - start] that are finite
      (neither nan nor infinite); this covers [N = 1];
    - for [N > 1] the value at the last frame is exactly the float
      [start + (end - start)], for every start and end value: the
      progress is exactly [1.0] and the product by it is not rounded.
      That float is the end value when the difference and the sum are
      not rounded, and may differ from it otherwise. *)
Theorem animator_boundary (self : gui float) (key : string)
    (total_frames : Z) :
  anim_enabled self !! key = Some true ->
  default "Linear"%string (anim_style self !! key) = "Linear"%string ->
  default "Linear"%string (anim_curve self !! key) = "Linear"%string ->
  (1 <= total_frames <= 2 ^ 53)%Z ->
  let start := default 0 (anim_start self !! key) in
  let end_ := default 1 (anim_end self !! key) in
  (is_finite start = true -> is_finite (end_ - start) = true ->
   exists v0, value_at self key 0 total_frames = Some v0
              /\ (v0 =? start) = true)
  /\ ((1 < total_frames)%Z ->
      value_at self key (total_frames - 1) total_frames
      = Some (start + (end_ - start))).
Proof.
  intros He Hs Hc HN start end_. split.
  - intros Hfs Hfd. eexists. split; [apply linear_value_binary64; assumption |].
    fold start end_. rewrite progress_first_binary64 by exact HN.
    now apply Binary64Facts.interpolate_zero.
  - intros H1. rewrite linear_value_binary64 by assumption.
    fold start end_. rewrite progress_last_binary64 by lia.
    now rewrite Binary64Facts.mul_one_r.
Qed.

End Binary64.

Lemma animator_boundary_witness :
  let self := animated_window (F := float) "radius" 40 10 0.01%float in
  let value_at := calculate_animated_value (fun _ => 0.5%float) in
  (exists v0, value_at self "radius"%string 0%Z 16%Z = Some v0
              /\ PrimFloat.eqb v0 0.4%float = true)
  /\ value_at self "radius"%string (16 - 1)%Z 16%Z
     = Some (0.4 + (0.1 - 0.4))%float.
Proof.
  intros self value_at.
  destruct (animator_boundary (fun _ => 0.5%float) self "radius" 16
              eq_refl eq_refl eq_refl ltac:(lia)) as [Hfirst Hlast].
  split; [exact (Hfirst eq_refl eq_refl) | exact (Hlast eq_refl)].
Defined.

(** The same window in exact arithmetic ends on the end value. *)
Example animator_boundary_exact_sample :
  let self := animated_window (F := Q) "radius" 40 10 (1 # 100) in
  (exists v1, calculate_animated_value (fun _ => 1 # 2) self "radius"
                (16 - 1) 16 = Some v1
              /\ (v1 == 10 # 100)%Q).
Proof.
  intros self.
  destruct (linear_boundary_exact (fun _ => 1 # 2) self "radius" 16
              eq_refl eq_refl eq_refl) as [Hmany _].
  exact (proj2 (Hmany eq_refl)).
Qed.

(** C8, as stated, fails on binary64: with the radius animated from
    40 % to 10 % (the spin boxes at 40 and 10, scale [0.01]) and two
    frames, the value at frame 0 is the start value, and the value at the
    last frame is [0.4 + (0.1 - 0.4) * 1.0 = 0.09999999999999998], not the
    end value [0.1]. *)
Lemma animator_last_frame_rounds :
  let self := animated_window (F := float) "radius" 40 10 0.01%float in
  let value_at := calculate_animated_value (fun _ => 0.5%float) in
  anim_start self !! "radius" = Some 0.4%float
  /\ anim_end self !! "radius" = Some 0.1%float
  /\ value_at self "radius"%string 0%Z 2%Z = Some 0.4%float
  /\ value_at self "radius"%string 1%Z 2%Z = Some 0.09999999999999998%float
  /\ PrimFloat.eqb 0.09999999999999998%float 0.1%float = false.
Proof. vm_compute. repeat split. Qed.

(** On the values the spin boxes produce, the two ends behave
    differently under rounding: frame 0 always returns the start value,
    the last frame misses the end value for 1660 of the 10201 pairs. *)
Example animator_rounding_on_spin_values :
  spin_pairs_off 0 2 false = 0%nat /\ spin_pairs_off 1 2 true = 1660%nat
  /\ spin_pairs_off 0 64 false = 0%nat /\ spin_pairs_off 63 64 true = 1660%nat.
Proof. vm_compute. repeat split. Qed.

Example animation_samples :
  (apply_curve (1 # 4) "Ease In" == 1 # 16)%Q
  /\ (apply_curve (3 # 4) "Stepped" = 1)%Q
  /\ apply_curve 0.25%float "Ease In/Out" = 0.125%float
  /\ calculate_animated_value (fun _ => 1 # 2)
       (animated_window (F := Q) "radius" 40 10 (1 # 100)) "softness" 3 16
     = None.
Proof. repeat split. Qed.

End AnimatorFacts.

(** ** Sprite fields *)

Module SpriteFacts.

Import Sprite.
Local Open Scope float_scope.

(** *** Soft edges *)

(** The guarded shapes ([_circle], [_square], [_line]) fall back to the
    hard step when [softness] is zero, and use the clamped falloff when
    it is positive. *)
Lemma soft_edge_zero (dist extent : float) :
  soft_edge dist extent 0 = hard_step dist extent.
Proof. reflexivity. Qed.

Lemma soft_edge_positive (dist extent softness : float) :
  (0 <? softness) = true ->
  soft_edge dist extent softness
  = Np.clip (1 - (dist - extent) / softness) 0 1.
Proof. intros H. unfold soft_edge. rewrite H. reflexivity. Qed.

Example circle_hard_step :
  circle_intensity 8 8 {[ "radius"%string := 0.5; "softness"%string := 0 ]}
  = [[0; 0; 0; 0; 0; 0; 0; 0]; [0; 0; 0; 0; 0; 0; 0; 0];
     [0; 0; 0; 0; 1; 0; 0; 0]; [0; 0; 0; 1; 1; 1; 0; 0];
     [0; 0; 1; 1; 1; 1; 1; 0]; [0; 0; 0; 1; 1; 1; 0; 0];
     [0; 0; 0; 0; 1; 0; 0; 0]; [0; 0; 0; 0; 0; 0; 0; 0]].
Proof. vm_compute. reflexivity. Qed.

(** C4 at its failing input.  [_cross] with [softness = 0] divides by
    zero: on the rows and columns at distance [thickness / 2] from the
    axes the quotient is [0 / 0], the intensity is nan where the hard
    step is 1, and the stored pixel is black where the step gives the
    full colour.  [_ring] does the same on its outer circle. *)
Theorem cross_softness_zero (np_cos np_sin : float -> float) :
  let a := cross_intensity np_cos np_sin 8 8 cross_hard in
  let thickness := 0.25 * Np.of_nat 8 in
  let dist_h := abs (Np.of_nat 3 - Np.of_nat 8 / 2) in
  let dist_v := abs (Np.of_nat 0 - Np.of_nat 8 / 2) in
  is_nan (at2 0 a 3 0) = true
  /\ Np.maximum (hard_step dist_h (thickness / 2))
                (hard_step dist_v (thickness / 2)) = 1
  /\ option_map (fun rgba => at2 (0, 0, 0, 0)%Z rgba 3 0)
       (_cross np_cos np_sin 8 8 cross_hard) = Some (0, 0, 0, 0)%Z
  /\ Np.astype_uint8 (1 * 255) = 255%Z
  /\ is_nan (at2 0 (ring_intensity 8 8 ring_hard) 4 6) = true.
Proof. vm_compute. repeat split. Qed.

Example cross_softness_zero_rows (np_cos np_sin : float -> float) :
  map (map is_nan) (cross_intensity np_cos np_sin 8 8 cross_hard)
  = [[false; false; false; true; false; true; false; false];
     [false; false; false; true; false; true; false; false];
     [false; false; false; true; false; true; false; false];
     [true; true; true; true; true; true; true; true];
     [false; false; false; true; false; true; false; false];
     [true; true; true; true; true; true; true; true];
     [false; false; false; true; false; true; false; false];
     [false; false; false; true; false; true; false; false]].
Proof. vm_compute. reflexivity. Qed.

(** *** Colour and alpha *)

Lemma astype_uint8_in_range (product : float) (z : Z) :
  Np.int product = Some z -> (0 <= z <= 255)%Z ->
  Np.astype_uint8 product = z /\ clamped_channel product = Some z.
Proof.
  intros Hz Hr. unfold Np.astype_uint8, clamped_channel, clamp_byte.
  rewrite Hz. cbn [option_map].
  replace ((- 2 ^ 31 <=? z)%Z && (z <? 2 ^ 31)%Z) with true
    by (symmetry; apply andb_true_iff; split; lia).
  rewrite Z.mod_small by lia. split; [reflexivity | f_equal; lia].
Qed.

Lemma stored_channel_cast (product : float) :
  stored_channel product (Np.astype_uint8 product).
Proof.
  split; [reflexivity |]. intros z Hz Hr.
  destruct (astype_uint8_in_range product z Hz Hr) as [-> H]. auto.
Qed.

(** C5, amended.  For every intensity map and every bag with finite
    colours, [_apply_color_and_alpha] returns a field of the shape of
    the map in which each channel is the cast to a byte of
    [intensity*r], [intensity*g], [intensity*b] and
    [intensity*alpha*255]: the product itself, hence the clamped
    product, whenever its integer part lies in [[0, 255]].  (The cast
    does not clamp.) *)
Theorem apply_color_and_alpha_channels (intensity : Intensity) (p : params)
    (r g b : Z) :
  Np.int (default 255 (p !! "color_r")) = Some r ->
  Np.int (default 255 (p !! "color_g")) = Some g ->
  Np.int (default 255 (p !! "color_b")) = Some b ->
  exists rgba,
    _apply_color_and_alpha intensity p = Some rgba
    /\ Forall2 (Forall2 (fun i px =>
         let '(cr, cg, cb, ca) := px in
         stored_channel (i * Np.of_Z r) cr
         /\ stored_channel (i * Np.of_Z g) cg
         /\ stored_channel (i * Np.of_Z b) cb
         /\ stored_channel (i * default 1 (p !! "alpha") * 255) ca))
       intensity rgba.
Proof.
  intros Hr Hg Hb. unfold _apply_color_and_alpha.
  rewrite Hr, Hg, Hb. cbn [mbind option_bind].
  eexists; split; [reflexivity |].
  induction intensity as [| row rows IH]; cbn [map]; constructor; [| exact IH].
  clear IH. induction row as [| i row IH]; cbn [map]; constructor;
    [| exact IH].
  split; [apply stored_channel_cast |].
  split; [apply stored_channel_cast |].
  split; apply stored_channel_cast.
Qed.

Lemma apply_color_and_alpha_channels_witness :
  exists rgba,
    _apply_color_and_alpha [[0; 0.5; 1]] ∅ = Some rgba
    /\ Forall2 (Forall2 (fun i px =>
         let '(cr, cg, cb, ca) := px in
         stored_channel (i * Np.of_Z 255) cr
         /\ stored_channel (i * Np.of_Z 255) cg
         /\ stored_channel (i * Np.of_Z 255) cb
         /\ stored_channel (i * default 1 ((∅ : params) !! "alpha") * 255) ca))
       [[0; 0.5; 1]] rgba.
Proof.
  apply (apply_color_and_alpha_channels [[0; 0.5; 1]] ∅ 255 255 255);
    reflexivity.
Defined.

(** C5, as stated, fails: a glow of intensity 2 has the product
    [2 * 255 = 510] at its centre, the clamped channel is 255 and the
    stored one is [510 mod 256 = 254]. *)
Lemma glow_channel_wraps :
  _glow power_one no_filter 2 2 glow_bright
  = Some [[(0, 0, 0, 0); (0, 0, 0, 0)];
          [(0, 0, 0, 0); (254, 254, 254, 254)]]%Z
  /\ at2 0 (glow_intensity power_one no_filter 2 2 glow_bright) 1 1 = 2
  /\ clamped_channel (2 * Np.of_Z 255) = Some 255%Z
  /\ Np.astype_uint8 (2 * Np.of_Z 255) = 254%Z
  /\ _apply_color_and_alpha [[2]] ∅ = Some [[(254, 254, 254, 254)]]%Z.
Proof. vm_compute. repeat split. Qed.

End SpriteFacts.

(** ** Atlas export *)

Module AtlasExportFacts.

Import Atlas AtlasExport.
Local Open Scope Z_scope.

Lemma range_length (n : Z) : length (range n) = Z.to_nat n.
Proof. unfold range. now rewrite length_map, length_seq. Qed.

Lemma range_bounds (n : Z) : Forall (fun i => 0 <= i < n) (range n).
Proof.
  unfold range. apply List.Forall_forall. intros i Hi.
  apply in_map_iff in Hi as (k & <- & Hk). apply in_seq in Hk. lia.
Qed.

(** A loop over frames that all succeed and satisfy [P]. *)
Lemma mapM_Forall {A B : Type} (f : A -> option B) (P : B -> Prop)
    (l : list A) :
  Forall (fun a => exists b, f a = Some b /\ P b) l ->
  exists l', mapM f l = Some l' /\ length l' = length l /\ Forall P l'.
Proof.
  induction 1 as [| a l (b & Hb & HP) _ (l' & Hl' & Hlen & HF)].
  - exists []. repeat split. constructor.
  - exists (b :: l'). cbn. rewrite Hb. cbn. rewrite Hl'. cbn.
    repeat split; [now rewrite Hlen | now constructor].
Qed.

Lemma frame_origin_inside (i cols rows size : Z) :
  1 <= cols -> 0 <= size -> 0 <= i < cols * rows ->
  exists c, frame_origin i cols size = Some c
            /\ inside (cols * size) (rows * size) size c.
Proof.
  intros Hc Hs Hi. unfold frame_origin.
  replace (cols =? 0) with false by lia.
  eexists. split; [reflexivity |]. unfold inside. cbn [fst snd].
  pose proof (Z.mod_pos_bound i cols ltac:(lia)) as Hm.
  pose proof (Z.div_pos i cols ltac:(lia) ltac:(lia)) as Hd.
  assert (Hr : i / cols < rows).
  { apply Z.div_lt_upper_bound; lia. }
  repeat split; nia.
Qed.

(** X1.  The Auto (Square) grid is square or one column wider than tall. *)
Theorem auto_square_nearly_square (frame_count cols rows : Z)
    (current : Z * Z) :
  1 <= frame_count ->
  auto_calculate_atlas_layout "Auto (Square)" frame_count current
    = Some (cols, rows) ->
  export_atlas_grid frame_count = Some (cols, rows)
  /\ rows <= cols <= rows + 1.
Proof.
  intros Hn.
  destruct (AtlasFacts.ceil_sqrt_spec frame_count Hn) as [Hc Hsq].
  pose proof (AtlasFacts.ceil_div_spec frame_count (Py.ceil_sqrt frame_count)
                ltac:(lia)) as Hrows.
  unfold auto_calculate_atlas_layout, export_atlas_grid.
  cbn [String.eqb Ascii.eqb Bool.eqb].
  replace (frame_count <? 0) with false by lia.
  replace (frame_count <=? 0) with false by lia.
  replace (Py.ceil_sqrt frame_count =? 0) with false by lia.
  intros [= <- <-]. split; [reflexivity |].
  rewrite !Z.pow_2_r in Hsq. nia.
Qed.

Lemma auto_square_nearly_square_witness :
  export_atlas_grid 7 = Some (3, 3) /\ 3 <= 3 <= 3 + 1.
Proof.
  apply (auto_square_nearly_square 7 3 3 (4, 4)); [lia | reflexivity].
Defined.

(** X2.  In every mode but Manual the layout has room for the whole
    animation: the atlas export renders all [frame_count] frames. *)
Theorem computed_layout_keeps_all_frames (mode : string)
    (frame_count cols rows : Z) (current : Z * Z) :
  mode <> "Manual"%string -> 1 <= frame_count ->
  auto_calculate_atlas_layout mode frame_count current = Some (cols, rows) ->
  total_frames frame_count rows cols = frame_count.
Proof.
  intros Hmode Hn. unfold auto_calculate_atlas_layout, total_frames.
  destruct (String.eqb_spec mode "Manual"); [contradiction |].
  destruct (String.eqb mode "Row Only"); [intros [= <- <-]; lia |].
  destruct (String.eqb mode "Column Only"); [intros [= <- <-]; lia |].
  destruct (AtlasFacts.ceil_sqrt_spec frame_count Hn) as [Hc Hsq].
  pose proof (AtlasFacts.ceil_div_spec frame_count (Py.ceil_sqrt frame_count)
                ltac:(lia)) as Hrows.
  replace (frame_count <? 0) with false by lia.
  replace (Py.ceil_sqrt frame_count =? 0) with false by lia.
  intros [= <- <-]. lia.
Qed.

Lemma computed_layout_keeps_all_frames_witness :
  total_frames 17 4 5 = 17.
Proof.
  apply (computed_layout_keeps_all_frames "Auto (Square)" 17 5 4 (4, 4));
    [discriminate | lia | reflexivity].
Defined.

Section SpriteAtlas.

Variable image : Type.
Variable frame_image : Z -> Z -> Z -> option image.

(** X3.  The sprite atlas export, for a grid of at least one row and one
    column and a resolution of at least one pixel, when every frame
    renders: it saves an image of [cols * resolution] by
    [rows * resolution] pixels onto which [min(frame_count, rows *
    cols)] frames were pasted (the frames past the capacity of the grid
    are left out), frame [k] being the [k]-th, each at its cell and
    inside the image. *)
Theorem export_animated_atlas_inside
    (frame_count atlas_rows atlas_cols resolution : Z) :
  1 <= atlas_rows -> 1 <= atlas_cols -> 1 <= resolution ->
  let total := total_frames frame_count atlas_rows atlas_cols in
  (forall frame, 0 <= frame < total ->
                 is_Some (frame_image frame total resolution)) ->
  exists atlas,
    export_animated_atlas image frame_image
      frame_count atlas_rows atlas_cols resolution = Some atlas
    /\ sheet_width atlas = resolution * atlas_cols
    /\ sheet_height atlas = resolution * atlas_rows
    /\ length (pasted atlas)
       = Z.to_nat (Z.min frame_count (atlas_rows * atlas_cols))
    /\ Forall2 (fun frame '(x, y, img) =>
                  frame_image frame total resolution = Some img
                  /\ frame_origin frame atlas_cols resolution = Some (x, y)
                  /\ inside (sheet_width atlas) (sheet_height atlas)
                            resolution (x, y))
               (range total) (pasted atlas).
Proof.
  intros Hr Hc Hs total Hrender. unfold export_animated_atlas, new_image.
  replace ((resolution * atlas_cols <? 0) || (resolution * atlas_rows <? 0))
    with false by (symmetry; apply orb_false_iff; split; nia).
  cbn [mbind option_bind]. fold total.
  set (paste := fun frame : Z =>
                  frame_image ← frame_image frame total resolution;
                  '(x, y) ← frame_origin frame atlas_cols resolution;
                  Some (x, y, frame_image)).
  destruct (mapM_Forall paste
              (fun '(x, y, _) =>
                 inside (resolution * atlas_cols) (resolution * atlas_rows)
                        resolution (x, y))
              (range total)) as (l & Hl & Hlen & HF).
  { eapply List.Forall_impl; [| apply range_bounds].
    intros i Hi. cbv beta in Hi.
    destruct (Hrender i Hi) as [img Himg].
    destruct (frame_origin_inside i atlas_cols atlas_rows resolution)
      as ([x y] & Ho & Hin); [lia | lia | unfold total, total_frames in Hi; lia |].
    exists (x, y, img). unfold paste. rewrite Himg. cbn. rewrite Ho. cbn.
    split; [reflexivity |].
    now rewrite (Z.mul_comm resolution atlas_cols),
      (Z.mul_comm resolution atlas_rows). }
  rewrite Hl. cbn [mbind option_bind]. unfold save_png.
  replace ((resolution * atlas_cols =? 0) || (resolution * atlas_rows =? 0))
    with false by (symmetry; apply orb_false_iff; split; nia).
  cbn [mbind option_bind]. eexists. split; [reflexivity |].
  cbn [sheet_width sheet_height pasted].
  split; [reflexivity |]. split; [reflexivity |].
  split; [now rewrite Hlen, range_length |].
  apply mapM_Some in Hl. clear - Hl HF.
  induction Hl as [| frame [[x y] img] frames l Hp Hl IH]; [constructor |].
  inversion HF as [| ? ? Hin HF']; subst.
  constructor; [| now apply IH].
  unfold paste in Hp.
  destruct (frame_image frame total resolution) as [img' |];
    [| discriminate].
  cbn in Hp.
  destruct (frame_origin frame atlas_cols resolution) as [[x' y'] |];
    [| discriminate].
  cbn in Hp. injection Hp as -> -> ->. auto.
Qed.

(** With no column, no row or a resolution of zero the atlas has no
    pixel and the export raises, at the latest when it saves. *)
Lemma export_animated_atlas_empty
    (frame_count atlas_rows atlas_cols resolution : Z) :
  atlas_rows = 0 \/ atlas_cols = 0 \/ resolution = 0 ->
  export_animated_atlas image frame_image
    frame_count atlas_rows atlas_cols resolution = None.
Proof.
  intros H. unfold export_animated_atlas.
  destruct (new_image _ _); [| reflexivity]. cbn [mbind option_bind].
  destruct (mapM _ _); [| reflexivity]. cbn [mbind option_bind].
  unfold save_png.
  replace ((resolution * atlas_cols =? 0) || (resolution * atlas_rows =? 0))
    with true; [reflexivity |].
  symmetry. apply orb_true_iff. destruct H as [-> | [-> | ->]];
    rewrite ?Z.mul_0_r, ?Z.mul_0_l; auto.
Qed.

End SpriteAtlas.

(** A circle with the parameters the window starts with renders at
    every size. *)
Lemma circle_renders (w h : nat) : is_Some (Sprite._circle w h ∅).
Proof. unfold Sprite._circle, Sprite._apply_color_and_alpha. cbn. eauto. Qed.

Lemma export_animated_atlas_inside_witness :
  let frame_image := fun frame total resolution : Z =>
    Sprite._circle (Z.to_nat resolution) (Z.to_nat resolution) ∅ in
  exists atlas,
    export_animated_atlas _ frame_image 16 2 4 64 = Some atlas
    /\ sheet_width atlas = 64 * 4
    /\ sheet_height atlas = 64 * 2
    /\ length (pasted atlas) = Z.to_nat (Z.min 16 (2 * 4))
    /\ Forall2 (fun frame '(x, y, img) =>
                  frame_image frame (total_frames 16 2 4) 64 = Some img
                  /\ frame_origin frame 4 64 = Some (x, y)
                  /\ inside (sheet_width atlas) (sheet_height atlas) 64 (x, y))
               (range (total_frames 16 2 4)) (pasted atlas).
Proof.
  intros frame_image.
  apply (export_animated_atlas_inside _ frame_image 16 2 4 64);
    try lia.
  intros frame _. apply circle_renders.
Defined.

(** X4.  The noise atlas export stores every one of the [num_frames] frames
    to a slice that lies inside the atlas array. *)
Theorem export_atlas_inside (num_frames frame_size : Z) :
  1 <= num_frames -> 0 <= frame_size ->
  exists plan,
    export_atlas num_frames frame_size = Some plan
    /\ length (origins plan) = Z.to_nat num_frames
    /\ Forall (inside (atlas_width plan) (atlas_height plan) frame_size)
              (origins plan).
Proof.
  intros Hn Hs. unfold export_atlas, export_atlas_grid.
  replace (num_frames <=? 0) with false by lia.
  destruct (AtlasFacts.ceil_sqrt_spec num_frames Hn) as [Hc Hsq].
  pose proof (AtlasFacts.ceil_div_spec num_frames (Py.ceil_sqrt num_frames)
                ltac:(lia)) as Hrows.
  set (cols := Py.ceil_sqrt num_frames) in *.
  set (rows := Py.ceil_div num_frames cols) in *.
  cbn [mbind option_bind]. unfold new_image.
  replace ((cols * frame_size <? 0) || (rows * frame_size <? 0))
    with false by (symmetry; apply orb_false_iff; split; nia).
  cbn [mbind option_bind].
  destruct (mapM_Forall (fun i => frame_origin i cols frame_size)
              (inside (cols * frame_size) (rows * frame_size) frame_size)
              (range num_frames)) as (l & Hl & Hlen & HF).
  { eapply List.Forall_impl; [| apply range_bounds].
    intros i Hi. cbv beta in Hi. apply frame_origin_inside; lia. }
  rewrite Hl. cbn. eexists. split; [reflexivity |]. cbn.
  rewrite Hlen, range_length. split; [reflexivity | exact HF].
Qed.

Lemma export_atlas_inside_witness :
  exists plan,
    export_atlas 17 64 = Some plan
    /\ length (origins plan) = Z.to_nat 17
    /\ Forall (inside (atlas_width plan) (atlas_height plan) 64)
              (origins plan).
Proof. apply (export_atlas_inside 17 64); lia. Defined.

(** X5.  No two frames of an atlas share a pixel. *)
Theorem frames_do_not_overlap (i j cols size : Z) (a b : Z * Z) :
  1 <= cols -> 1 <= size -> 0 <= i < j ->
  frame_origin i cols size = Some a ->
  frame_origin j cols size = Some b ->
  disjoint_cells size a b.
Proof.
  intros Hc Hs Hij. unfold frame_origin.
  replace (cols =? 0) with false by lia.
  intros [= <-] [= <-]. unfold disjoint_cells. cbn [fst snd].
  pose proof (Z.div_mod i cols ltac:(lia)) as Hi.
  pose proof (Z.div_mod j cols ltac:(lia)) as Hj.
  pose proof (Z.mod_pos_bound i cols ltac:(lia)) as Hmi.
  pose proof (Z.mod_pos_bound j cols ltac:(lia)) as Hmj.
  assert (Hd : i / cols <= j / cols) by (apply Z.div_le_mono; lia).
  destruct (Z.eq_dec (i / cols) (j / cols)) as [E | E].
  - left. rewrite E in Hi. nia.
  - right. right. left. nia.
Qed.

Lemma frames_do_not_overlap_witness :
  disjoint_cells 64 (4 * 64, 0 * 64) (0 * 64, 1 * 64).
Proof.
  apply (frames_do_not_overlap 4 5 5 64); [lia | lia | lia | |]; reflexivity.
Defined.

End AtlasExportFacts.

(** ** File names *)

Module FilesFacts.

Import Naming Files.
Local Open Scope string_scope.
Local Open Scope nat_scope.

Lemma append_cons (c : ascii) (s t : string) :
  String c s ++ t = String c (s ++ t).
Proof. reflexivity. Qed.

Lemma append_nil_r (s : string) : s ++ "" = s.
Proof.
  induction s as [| c s IH]; [reflexivity |].
  now rewrite append_cons, IH.
Qed.

Lemma append_assoc (s t u : string) : (s ++ t) ++ u = s ++ (t ++ u).
Proof.
  induction s as [| c s IH]; [reflexivity |].
  now rewrite !append_cons, IH.
Qed.

Lemma append_inv_head (s t t' : string) : s ++ t = s ++ t' -> t = t'.
Proof.
  induction s as [| c s IH]; [trivial |].
  rewrite !append_cons. intros [= H]. auto.
Qed.

Lemma append_inv_tail (s s' t : string) : s ++ t = s' ++ t -> s = s'.
Proof.
  revert s'. induction s as [| c s IH]; intros [| c' s'] H.
  - reflexivity.
  - apply (f_equal String.length) in H.
    rewrite append_cons in H. cbn [String.length] in H.
    rewrite !NamingFacts.length_app in H. cbn [String.length] in H. lia.
  - apply (f_equal String.length) in H.
    rewrite append_cons in H. cbn [String.length] in H.
    rewrite !NamingFacts.length_app in H. cbn [String.length] in H. lia.
  - rewrite !append_cons in H. injection H as -> H. f_equal. auto.
Qed.

(** *** Decimal digits *)

Lemma str_fuel_indep (f1 f2 n : nat) :
  n < f1 -> n < f2 -> str_fuel f1 n = str_fuel f2 n.
Proof.
  revert f2 n. induction f1 as [| f1 IH]; intros f2 n H1 H2; [lia |].
  destruct f2 as [| f2]; [lia |]. cbn [str_fuel].
  destruct (Nat.ltb_spec n 10) as [Hlt | Hge]; [reflexivity |].
  assert (Hq : n / 10 < n) by (apply Nat.div_lt; lia).
  rewrite (IH f2 (n / 10)); [reflexivity | lia | lia].
Qed.

Lemma str_unfold (n : nat) :
  str n = if n <? 10 then String (digit_char n) ""
          else str (n / 10) ++ String (digit_char (n mod 10)) "".
Proof.
  unfold str at 1. cbn [str_fuel].
  destruct (Nat.ltb_spec n 10) as [Hlt | Hge]; [reflexivity |].
  assert (Hq : n / 10 < n) by (apply Nat.div_lt; lia).
  unfold str. rewrite (str_fuel_indep n (S (n / 10)) (n / 10)); [reflexivity | lia | lia].
Qed.

Lemma digit_char_value (d : nat) :
  d < 10 -> nat_of_ascii (digit_char d) = 48 + d.
Proof. intros H. unfold digit_char. apply nat_ascii_embedding. lia. Qed.

Lemma int_acc_app (s t : string) (acc : nat) :
  int_acc (s ++ t) acc = int_acc t (int_acc s acc).
Proof.
  revert acc. induction s as [| c s IH]; intros acc; [reflexivity |].
  rewrite append_cons. cbn [int_acc]. apply IH.
Qed.

Lemma int_acc_str (n : nat) : int_acc (str n) 0 = n.
Proof.
  induction n as [n IH] using lt_wf_ind.
  rewrite str_unfold. destruct (Nat.ltb_spec n 10) as [Hlt | Hge].
  - cbn [int_acc]. rewrite digit_char_value by exact Hlt. lia.
  - rewrite int_acc_app, IH by (apply Nat.div_lt; lia).
    cbn [int_acc].
    rewrite digit_char_value by (apply Nat.mod_upper_bound; lia).
    pose proof (Nat.div_mod_eq n 10). lia.
Qed.

Lemma int_acc_zeros (k : nat) : int_acc (zeros k) 0 = 0.
Proof. induction k as [| k IH]; [reflexivity | exact IH]. Qed.

Lemma int_of_format_0d (i width : nat) :
  int_of_digits (format_0d i width) = i.
Proof.
  unfold int_of_digits, format_0d.
  now rewrite int_acc_app, int_acc_zeros, int_acc_str.
Qed.

Lemma versioned_inj (base ext : string) (u v : nat) :
  versioned base u ext = versioned base v ext -> u = v.
Proof.
  unfold versioned. intros H.
  apply append_inv_head, append_inv_head, append_inv_tail in H.
  apply (f_equal int_of_digits) in H. now rewrite !int_of_format_0d in H.
Qed.

Lemma frame_filename_inj (prefix : string) (num_frames i j : nat) :
  frame_filename prefix num_frames i = frame_filename prefix num_frames j ->
  i = j.
Proof.
  unfold frame_filename. intros H.
  apply append_inv_head, append_inv_head, append_inv_tail in H.
  apply (f_equal int_of_digits) in H. now rewrite !int_of_format_0d in H.
Qed.

Lemma all_digits_app (s t : string) :
  all_digits s = true -> all_digits t = true -> all_digits (s ++ t) = true.
Proof.
  induction s as [| c s IH]; intros Hs Ht; [exact Ht |].
  rewrite append_cons. cbn [all_digits] in *.
  apply andb_true_iff in Hs as [Hc Hs]. now rewrite Hc, IH.
Qed.

Lemma isdigit_digit_char (d : nat) : d < 10 -> isdigit (digit_char d) = true.
Proof.
  intros Hd. unfold isdigit. rewrite digit_char_value by exact Hd.
  apply andb_true_iff. split; apply Nat.leb_le; lia.
Qed.

Lemma all_digits_zeros (k : nat) : all_digits (zeros k) = true.
Proof. induction k as [| k IH]; [reflexivity | exact IH]. Qed.

Lemma all_digits_str (n : nat) : all_digits (str n) = true.
Proof.
  induction n as [n IH] using lt_wf_ind.
  rewrite str_unfold. destruct (Nat.ltb_spec n 10) as [Hlt | Hge].
  - cbn [all_digits]. now rewrite isdigit_digit_char.
  - apply all_digits_app; [apply IH, Nat.div_lt; lia |].
    cbn [all_digits]. rewrite isdigit_digit_char; [reflexivity |].
    apply Nat.mod_upper_bound; lia.
Qed.

Lemma all_digits_format_0d (i width : nat) :
  all_digits (format_0d i width) = true.
Proof.
  unfold format_0d. apply all_digits_app;
    [apply all_digits_zeros | apply all_digits_str].
Qed.

(** *** Lexicographic order *)

Lemma int_acc_shift (s : string) (acc : nat) :
  int_acc s acc = acc * 10 ^ String.length s + int_acc s 0.
Proof.
  revert acc. induction s as [| c s IH]; intros acc.
  - cbn. lia.
  - cbn [int_acc String.length]. rewrite (IH (10 * acc + _)), (IH (10 * 0 + _)).
    rewrite Nat.pow_succ_r'. lia.
Qed.

Lemma int_acc_bound (s : string) :
  all_digits s = true -> int_acc s 0 < 10 ^ String.length s.
Proof.
  induction s as [| c s IH]; intros Hs.
  - cbn. lia.
  - cbn [all_digits] in Hs. apply andb_true_iff in Hs as [Hc Hs].
    unfold isdigit in Hc. apply andb_true_iff in Hc as [Hlo Hhi].
    apply Nat.leb_le in Hlo, Hhi. specialize (IH Hs).
    cbn [int_acc String.length]. rewrite int_acc_shift, Nat.pow_succ_r'. nia.
Qed.

Lemma ascii_compare_nat (c d : ascii) :
  Ascii.compare c d = Nat.compare (nat_of_ascii c) (nat_of_ascii d).
Proof. unfold Ascii.compare, nat_of_ascii. now rewrite N2Nat.inj_compare. Qed.

(** Digit strings of one length compare as the numbers they denote. *)
Lemma compare_digits (s t : string) :
  String.length s = String.length t ->
  all_digits s = true -> all_digits t = true ->
  int_acc s 0 < int_acc t 0 -> String.compare s t = Lt.
Proof.
  revert t. induction s as [| c s IH]; intros [| d t] Hlen Hs Ht Hlt;
    cbn [String.length] in Hlen; try discriminate.
  - cbn in Hlt. lia.
  - injection Hlen as Hlen.
    cbn [all_digits] in Hs, Ht.
    apply andb_true_iff in Hs as [Hc Hs]. apply andb_true_iff in Ht as [Hd Ht].
    pose proof (int_acc_bound s Hs) as Bs. pose proof (int_acc_bound t Ht) as Bt.
    unfold isdigit in Hc, Hd.
    apply andb_true_iff in Hc as [Hc1 Hc2]. apply andb_true_iff in Hd as [Hd1 Hd2].
    apply Nat.leb_le in Hc1, Hc2, Hd1, Hd2.
    cbn [int_acc] in Hlt.
    rewrite (int_acc_shift s), (int_acc_shift t), <- Hlen in Hlt.
    cbn [String.compare]. rewrite ascii_compare_nat.
    destruct (Nat.compare_spec (nat_of_ascii c) (nat_of_ascii d)) as [E | L | G].
    + apply IH; try assumption. rewrite E in Hlt. lia.
    + reflexivity.
    + exfalso. rewrite Hlen in Bs.
      assert (Hm : (nat_of_ascii d - 48 + 1) * 10 ^ String.length t
                   <= (nat_of_ascii c - 48) * 10 ^ String.length t)
        by (apply Nat.mul_le_mono_r; lia).
      rewrite Hlen in Hlt. lia.
Qed.

Lemma compare_app_l (p a b : string) :
  String.compare (p ++ a) (p ++ b) = String.compare a b.
Proof.
  induction p as [| c p IH]; [reflexivity |].
  rewrite !append_cons. cbn [String.compare].
  unfold Ascii.compare. now rewrite N.compare_refl.
Qed.

Lemma compare_app_lt (a b x y : string) :
  String.length a = String.length b ->
  String.compare a b = Lt -> String.compare (a ++ x) (b ++ y) = Lt.
Proof.
  revert b. induction a as [| c a IH]; intros [| d b] Hlen Hab;
    cbn [String.length] in Hlen; try discriminate.
  injection Hlen as Hlen. rewrite !append_cons.
  cbn [String.compare] in *.
  destruct (Ascii.compare c d); [now apply IH | reflexivity | discriminate].
Qed.

(** *** The version loops *)

Lemma substring_all (t : string) : String.substring 0 (String.length t) t = t.
Proof. induction t as [| c t IH]; [reflexivity |]. cbn. now rewrite IH. Qed.

Lemma substring_app_r (s t : string) (m : nat) :
  String.substring (String.length s) m (s ++ t) = String.substring 0 m t.
Proof. induction s as [| c s IH]; [reflexivity |]. rewrite append_cons. exact IH. Qed.

Lemma endswith_app (s t : string) : endswith (s ++ t) t = true.
Proof.
  unfold endswith. rewrite NamingFacts.length_app.
  replace (String.length s + String.length t - String.length t)
    with (String.length s) by lia.
  rewrite substring_app_r, substring_all, String.eqb_refl.
  apply andb_true_iff. split; [apply Nat.leb_le; lia | reflexivity].
Qed.

Section Loops.

Variable path_exists : string -> bool.

Lemma first_free_least (name : nat -> string) (fuel start v : nat) :
  start <= v -> path_exists (name v) = false -> v - start < fuel ->
  exists v0, start <= v0 <= v
    /\ first_free path_exists name fuel start = Some (name v0)
    /\ path_exists (name v0) = false
    /\ forall u, start <= u < v0 -> path_exists (name u) = true.
Proof.
  revert start. induction fuel as [| fuel IH]; intros start Hsv Hv Hf; [lia |].
  cbn [first_free]. destruct (path_exists (name start)) eqn:E.
  - assert (start <> v) by (intros ->; congruence).
    destruct (IH (S start)) as (v0 & Hr & Hs & Hfree & Hlow); [lia | exact Hv | lia |].
    exists v0. repeat split; try assumption; try lia.
    intros u Hu. destruct (Nat.eq_dec u start) as [-> | Hne]; [exact E |].
    apply Hlow. lia.
  - exists start. repeat split; try assumption; try lia.
Qed.

Lemma first_free_name (name : nat -> string) (fuel start : nat) (r : string) :
  first_free path_exists name fuel start = Some r ->
  exists v, r = name v /\ path_exists r = false.
Proof.
  revert start. induction fuel as [| fuel IH]; intros start; [discriminate |].
  cbn [first_free]. destruct (path_exists (name start)) eqn:E.
  - apply IH.
  - intros [= <-]. now exists start.
Qed.

End Loops.

(** Among the first [n] names either all are taken or one is free. *)
Lemma taken_or_free (f : nat -> bool) (n : nat) :
  (forall u, u < n -> f u = true) \/ (exists u, u < n /\ f u = false).
Proof.
  induction n as [| n [IH | (u & Hu & Hf)]].
  - left. intros u Hu. lia.
  - destruct (f n) eqn:E.
    + left. intros u Hu. destruct (Nat.eq_dec u n) as [-> | Hne]; [exact E |].
      apply IH. lia.
    + right. exists n. split; [lia | exact E].
  - right. exists u. split; [lia | exact Hf].
Qed.

Lemma holds_In (paths : list string) (p : string) :
  holds paths p = true -> In p paths.
Proof.
  unfold holds. intros H. apply existsb_exists in H as (q & Hq & E).
  apply String.eqb_eq in E. now subst.
Qed.

(** A file system of finitely many paths leaves one of the first
    [length paths + 1] versions free. *)
Lemma some_version_free (paths : list string) (base ext : string) :
  exists v, v < S (length paths)
            /\ holds paths (versioned base v ext) = false.
Proof.
  destruct (taken_or_free (fun v => holds paths (versioned base v ext))
              (S (length paths))) as [Hall | Hfree]; [exfalso | exact Hfree].
  assert (Hnd : List.NoDup (map (fun v => versioned base v ext)
                              (seq 0 (S (length paths))))).
  { apply Finite.Injective_map_NoDup; [| apply List.seq_NoDup].
    intros u v. apply versioned_inj. }
  assert (Hincl : incl (map (fun v => versioned base v ext)
                          (seq 0 (S (length paths)))) paths).
  { intros p Hp. apply in_map_iff in Hp as (v & <- & Hv).
    apply in_seq in Hv. apply holds_In, Hall. lia. }
  pose proof (List.NoDup_incl_length Hnd Hincl) as Hlen.
  rewrite length_map, length_seq in Hlen. lia.
Qed.

(** X6.  The frame index can be read back from the padded field of the file
    name: the field consists of decimal digits, and [int] of it is the
    index. *)
Theorem frame_index_round_trip (i width : nat) :
  all_digits (format_0d i width) = true
  /\ int_of_digits (format_0d i width) = i.
Proof. split; [apply all_digits_format_0d | apply int_of_format_0d]. Qed.

(** X7.  No two frames of an exported sequence get the same file name. *)
Theorem sequence_filenames_distinct (prefix : string) (num_frames : nat) :
  List.NoDup (sequence_filenames prefix num_frames).
Proof.
  unfold sequence_filenames.
  apply Finite.Injective_map_NoDup; [| apply List.seq_NoDup].
  intros i j. apply frame_filename_inj.
Qed.

(** X8.  The files of a sequence sort, as strings, in frame order. *)
Theorem sequence_filenames_sorted (prefix : string) (num_frames i j : nat) :
  i < j -> j < num_frames ->
  String.ltb (frame_filename prefix num_frames i)
             (frame_filename prefix num_frames j) = true.
Proof.
  intros Hij Hjn. unfold String.ltb, frame_filename.
  rewrite !compare_app_l.
  assert (Hw : forall k, k < num_frames ->
                 String.length (format_0d k (padding_width num_frames))
                 = padding_width num_frames).
  { intros k Hk. apply NamingFacts.format_0d_length.
    apply NamingFacts.str_length_mono. lia. }
  rewrite compare_app_lt; [reflexivity | |].
  - rewrite !Hw by lia. reflexivity.
  - apply compare_digits.
    + rewrite !Hw by lia. reflexivity.
    + apply all_digits_format_0d.
    + apply all_digits_format_0d.
    + pose proof (int_of_format_0d i (padding_width num_frames)) as Ei.
      pose proof (int_of_format_0d j (padding_width num_frames)) as Ej.
      unfold int_of_digits in Ei, Ej. lia.
Qed.

Lemma sequence_filenames_sorted_witness :
  String.ltb (frame_filename "perlin_v00" 16 9)
             (frame_filename "perlin_v00" 16 10) = true.
Proof. apply (sequence_filenames_sorted "perlin_v00" 16 9 10); lia. Defined.

(** X9.  On a file system of finitely many paths the noise tool's versioned
    file name is found within [length paths + 1] tests; it carries the
    least version whose name is free, it ends in [.png], and it is not
    the name of an existing file. *)
Theorem noise_versioned_filename_is_free (paths : list string)
    (base_path : string) :
  exists v0,
    noise_get_versioned_filename (holds paths) (S (length paths)) base_path
      = Some (versioned (png_base base_path) v0 ".png")
    /\ holds paths (versioned (png_base base_path) v0 ".png") = false
    /\ (forall u, u < v0 ->
          holds paths (versioned (png_base base_path) u ".png") = true)
    /\ endswith (versioned (png_base base_path) v0 ".png") ".png" = true.
Proof.
  destruct (some_version_free paths (png_base base_path) ".png")
    as (v & Hv & Hfree).
  destruct (first_free_least (holds paths)
              (fun version => versioned (png_base base_path) version ".png")
              (S (length paths)) 0 v) as (v0 & Hr & Hs & Hf & Hlow);
    [lia | exact Hfree | lia |].
  exists v0. split; [exact Hs |]. split; [exact Hf |]. split.
  - intros u Hu. apply Hlow. lia.
  - unfold versioned. rewrite <- !append_assoc. apply endswith_app.
Qed.

Section SpriteVersions.

Variable path_exists : string -> bool.
Variable splitext : string -> string * string.

Lemma versioned_upto_spec (filepath base ext : string)
    (remaining version : nat) :
  let r := versioned_upto path_exists filepath base ext remaining version in
  (r = filepath
   /\ forall u, version <= u < version + remaining ->
                path_exists (versioned base u ext) = true)
  \/ (exists v0, version <= v0 < version + remaining
                 /\ r = versioned base v0 ext
                 /\ path_exists (versioned base v0 ext) = false
                 /\ forall u, version <= u < v0 ->
                              path_exists (versioned base u ext) = true).
Proof.
  revert version. induction remaining as [| remaining IH]; intros version.
  - left. split; [reflexivity |]. intros u Hu. lia.
  - cbn [versioned_upto]. cbv zeta.
    destruct (path_exists (versioned base version ext)) eqn:E; cbn [negb].
    + destruct (IH (S version)) as [[Hr Hall] | (v0 & Hv0 & Hr & Hf & Hlow)].
      * left. split; [exact Hr |]. intros u Hu.
        destruct (Nat.eq_dec u version) as [-> | Hne]; [exact E |].
        apply Hall. lia.
      * right. exists v0. repeat split; try assumption; try lia.
        intros u Hu. destruct (Nat.eq_dec u version) as [-> | Hne]; [exact E |].
        apply Hlow. lia.
    + right. exists version. repeat split; try assumption; try lia.
Qed.

(** X10.  The sprite tool's versioned file name: a path that does not exist
    is returned as it is; otherwise the least free version among
    [_v00 .. _v99] is returned, and only when all hundred are taken the
    given path, which exists, is returned again. *)
Theorem sprite_versioned_filename (filepath : string) :
  let r := sprite_get_versioned_filename path_exists splitext filepath in
  let name :=
    fun v => versioned (fst (splitext filepath)) v (snd (splitext filepath)) in
  (path_exists filepath = false /\ r = filepath)
  \/ (path_exists filepath = true
      /\ exists v0, v0 < 100 /\ r = name v0 /\ path_exists r = false
                    /\ forall u, u < v0 -> path_exists (name u) = true)
  \/ (path_exists filepath = true /\ r = filepath
      /\ forall u, u < 100 -> path_exists (name u) = true).
Proof.
  cbv zeta. unfold sprite_get_versioned_filename.
  destruct (path_exists filepath) eqn:E; cbn [negb]; [right | left; auto].
  destruct (splitext filepath) as [base ext]. cbn [fst snd].
  destruct (versioned_upto_spec filepath base ext 100 0)
    as [[Hr Hall] | (v0 & Hv0 & Hr & Hf & Hlow)].
  - right. repeat split; [exact Hr |]. intros u Hu. apply Hall. lia.
  - left. split; [reflexivity |]. exists v0.
    repeat split; [lia | exact Hr | rewrite Hr; exact Hf |].
    intros u Hu. apply Hlow. lia.
Qed.

End SpriteVersions.

(** *** The version suffix of a sequence folder *)

Lemma last_segment_acc_free (sep : ascii) (t seg : string) :
  free_of [sep] t = true -> last_segment_acc sep t seg = seg ++ t.
Proof.
  revert seg. induction t as [| c t IH]; intros seg Ht.
  - cbn. now rewrite append_nil_r.
  - cbn [free_of existsb] in Ht. rewrite orb_false_r in Ht.
    apply andb_true_iff in Ht as [Hc Ht]. apply negb_true_iff in Hc.
    cbn [last_segment_acc]. rewrite Hc, IH by exact Ht.
    now rewrite append_assoc.
Qed.

Lemma last_segment_acc_app (sep : ascii) (h r seg : string) :
  exists seg', last_segment_acc sep (h ++ r) seg = last_segment_acc sep r seg'.
Proof.
  revert seg. induction h as [| c h IH]; intros seg.
  - now exists seg.
  - rewrite append_cons. cbn [last_segment_acc].
    destruct (Ascii.eqb c sep); apply IH.
Qed.

Lemma last_segment_after (sep : ascii) (h t : string) :
  free_of [sep] t = true -> last_segment sep (h ++ String sep t) = t.
Proof.
  intros Ht. unfold last_segment.
  destruct (last_segment_acc_app sep h (String sep t) "") as (seg' & ->).
  cbn [last_segment_acc]. rewrite Ascii.eqb_refl.
  now rewrite last_segment_acc_free.
Qed.

Lemma free_of_digits (seps : list ascii) (s : string) :
  forallb (fun c => negb (isdigit c)) seps = true ->
  all_digits s = true -> free_of seps s = true.
Proof.
  intros Hseps. induction s as [| c s IH]; intros Hs; [reflexivity |].
  cbn [all_digits free_of] in *.
  apply andb_true_iff in Hs as [Hc Hs]. rewrite IH by exact Hs.
  rewrite andb_true_r. apply negb_true_iff.
  destruct (existsb (Ascii.eqb c) seps) eqn:E; [exfalso | reflexivity].
  apply existsb_exists in E as (d & Hd & Hcd).
  apply Ascii.eqb_eq in Hcd. subst d.
  rewrite forallb_forall in Hseps. specialize (Hseps c Hd).
  now rewrite Hc in Hseps.
Qed.

Lemma free_of_slash (t : string) :
  free_of ["/"; "\"; ":"]%char t = true -> free_of ["/"%char] t = true.
Proof.
  induction t as [| c t IH]; [reflexivity |].
  cbn [free_of existsb]. intros H.
  apply andb_true_iff in H as [Hc Ht]. rewrite IH by exact Ht.
  destruct (Ascii.eqb c "/"); [discriminate | reflexivity].
Qed.

(** [posixpath.basename] keeps a tail that holds no separator. *)
Lemma posix_basename_tail (p t : string) :
  free_of ["/"; "\"; ":"]%char t = true ->
  exists h, posix_basename (p ++ t) = h ++ t.
Proof.
  intros Ht. unfold posix_basename, last_segment.
  destruct (last_segment_acc_app "/" p t "") as (seg' & ->).
  exists seg'. apply last_segment_acc_free, free_of_slash, Ht.
Qed.

Section VersionSuffix.

Variable path_exists : string -> bool.
Variable basename : string -> string.

(** [os.path.basename] returns a suffix of the path that reaches back
    at least to the last separator (or drive colon). *)
Hypothesis basename_tail :
  forall p t, free_of ["/"; "\"; ":"]%char t = true ->
              exists h, basename (p ++ t) = h ++ t.

(** X11.  The prefix of the frame files of a sequence carries the version of
    the folder they are written to: whatever the base name of the
    folder, [split('_')[-1]] of the versioned folder name is [vNN]. *)
Theorem sequence_prefix_carries_version (fuel : nat)
    (base_folder folder noise_type_a noise_type_b : string) :
  get_versioned_folder_name path_exists fuel base_folder = Some folder ->
  exists v,
    folder = base_folder ++ "_v" ++ format_0d v 2
    /\ path_exists folder = false
    /\ version_suffix basename folder = "v" ++ format_0d v 2
    /\ sequence_prefix basename noise_type_a noise_type_b folder
       = frame_prefix noise_type_a noise_type_b ("v" ++ format_0d v 2).
Proof using basename_tail.
  intros H. apply first_free_name in H as (v & Hv & Hfree).
  unfold versioned in Hv. rewrite append_nil_r in Hv.
  exists v. split; [exact Hv |]. split; [exact Hfree |].
  assert (Hs : version_suffix basename folder = "v" ++ format_0d v 2).
  { unfold version_suffix. subst folder.
    destruct (basename_tail base_folder ("_v" ++ format_0d v 2)) as (h & ->).
    - change ("_v" ++ format_0d v 2) with (String "_" (String "v" (format_0d v 2))).
      cbn [free_of existsb Ascii.eqb Bool.eqb orb negb andb].
      apply free_of_digits; [reflexivity | apply all_digits_format_0d].
    - change ("_v" ++ format_0d v 2) with (String "_" ("v" ++ format_0d v 2)).
      apply last_segment_after.
      change ("v" ++ format_0d v 2) with (String "v" (format_0d v 2)).
      cbn [free_of existsb Ascii.eqb Bool.eqb orb negb andb].
      apply free_of_digits; [reflexivity | apply all_digits_format_0d]. }
  split; [exact Hs |]. unfold sequence_prefix. now rewrite Hs.
Qed.

End VersionSuffix.

Lemma sequence_prefix_carries_version_witness :
  exists v,
    "out/perlin_256__16frame_seq_v01"
      = "out/perlin_256__16frame_seq" ++ "_v" ++ format_0d v 2
    /\ holds ["out/perlin_256__16frame_seq_v00"]
         "out/perlin_256__16frame_seq_v01" = false
    /\ version_suffix posix_basename "out/perlin_256__16frame_seq_v01"
       = "v" ++ format_0d v 2
    /\ sequence_prefix posix_basename "Perlin" "None"
         "out/perlin_256__16frame_seq_v01"
       = frame_prefix "Perlin" "None" ("v" ++ format_0d v 2).
Proof.
  apply (sequence_prefix_carries_version
           (holds ["out/perlin_256__16frame_seq_v00"])
           posix_basename posix_basename_tail 2
           "out/perlin_256__16frame_seq").
  reflexivity.
Defined.

End FilesFacts.

(** ** Animated frames *)

Module FramesFacts.

Import Num Animator Frames.
Local Open Scope Q_scope.

(** *** The easing curves *)

Ltac by_curve :=
  unfold apply_curve;
  repeat match goal with
  | |- context [String.eqb ?c ?s] => destruct (String.eqb c s)
  end;
  cbn [add sub mul div num half ltb leb exact];
  change (inject_Z 0) with 0; change (inject_Z 1) with 1;
  change (inject_Z 2) with 2; change (inject_Z (-2)) with (-2 # 1);
  unfold Qdiv; change (/ 2) with (1 # 2).

Ltac by_ltb :=
  repeat match goal with
  | |- context [Py.ltb ?a ?b] =>
      let E := fresh "E" in
      destruct (Py.ltb a b) eqn:E;
      [apply NoiseFacts.ltb_true in E | apply NoiseFacts.ltb_false in E]
  end.

Lemma apply_curve_0 (curve : string) : apply_curve 0 curve == 0.
Proof. by_curve; try reflexivity. Qed.

Lemma apply_curve_1 (curve : string) : apply_curve 1 curve == 1.
Proof. by_curve; try reflexivity. Qed.

Lemma apply_curve_unit (t : Q) (curve : string) :
  0 <= t <= 1 -> 0 <= apply_curve t curve <= 1.
Proof.
  intros Ht. by_curve; by_ltb; try lra; nra.
Qed.

Lemma apply_curve_mono (t1 t2 : Q) (curve : string) :
  0 <= t1 -> t1 <= t2 -> t2 <= 1 ->
  apply_curve t1 curve <= apply_curve t2 curve.
Proof.
  intros H0 H12 H1. by_curve; by_ltb; try lra; nra.
Qed.

(** X12.  Every easing curve, known or not, is a nondecreasing map of
    [[0, 1]] into itself that keeps 0 and 1 in place. *)
Theorem easing_curves (curve : string) (t1 t2 : Q) :
  0 <= t1 -> t1 <= t2 -> t2 <= 1 ->
  apply_curve 0 curve == 0 /\ apply_curve 1 curve == 1
  /\ 0 <= apply_curve t1 curve
  /\ apply_curve t1 curve <= apply_curve t2 curve
  /\ apply_curve t2 curve <= 1.
Proof.
  intros H0 H12 H1.
  split; [apply apply_curve_0 |]. split; [apply apply_curve_1 |].
  split; [apply apply_curve_unit; lra |].
  split; [now apply apply_curve_mono | apply apply_curve_unit; lra].
Qed.

Lemma easing_curves_witness :
  apply_curve 0 "Ease In/Out" == 0 /\ apply_curve 1 "Ease In/Out" == 1
  /\ 0 <= apply_curve (1 # 4) "Ease In/Out"
  /\ apply_curve (1 # 4) "Ease In/Out" <= apply_curve (3 # 4) "Ease In/Out"
  /\ apply_curve (3 # 4) "Ease In/Out" <= 1.
Proof.
  apply (easing_curves "Ease In/Out" (1 # 4) (3 # 4)); discriminate.
Defined.

(** *** Animated values *)

Lemma inject_Z_pos (z : Z) : (0 < z)%Z -> 0 < inject_Z z.
Proof. intros H. change 0 with (inject_Z 0). now rewrite <- Zlt_Qlt. Qed.

Lemma progress_unit (frame total_frames : Z) :
  (0 <= frame < total_frames)%Z ->
  0 <= (if (total_frames <=? 1)%Z then 0
        else inject_Z frame / inject_Z (total_frames - 1)) <= 1.
Proof.
  intros H. destruct (Z.leb_spec total_frames 1); [lra |].
  apply NoiseFacts.div_unit.
  - change 0 with (inject_Z 0). rewrite <- Zle_Qle. lia.
  - rewrite <- Zle_Qle. lia.
  - apply inject_Z_pos. lia.
Qed.

Lemma progress_mono (f1 f2 total_frames : Z) :
  (f1 <= f2)%Z ->
  (if (total_frames <=? 1)%Z then 0
   else inject_Z f1 / inject_Z (total_frames - 1))
  <= (if (total_frames <=? 1)%Z then 0
      else inject_Z f2 / inject_Z (total_frames - 1)).
Proof.
  intros H. destruct (Z.leb_spec total_frames 1); [lra |].
  unfold Qdiv. apply Qmult_le_compat_r; [now rewrite <- Zle_Qle |].
  apply Qinv_le_0_compat, Qlt_le_weak, inject_Z_pos. lia.
Qed.

Ltac enter Hen :=
  unfold calculate_animated_value; rewrite Hen; cbn [negb]; cbv zeta;
  cbn [add sub mul div num half leb exact];
  change (inject_Z 0) with 0; change (inject_Z 1) with 1;
  change (inject_Z 2) with 2.

Section Values.

Variable seeded_random : Z -> Q.

Local Abbreviation value_at := (calculate_animated_value seeded_random).

(** X15.  With the style Linear and a start value not above the end value,
    the animated value never decreases from one frame to a later one,
    whatever the easing curve. *)
Theorem linear_style_monotone (self : gui Q) (key : string)
    (f1 f2 total_frames : Z) :
  default false (anim_enabled self !! key) = true ->
  default "Linear"%string (anim_style self !! key) = "Linear"%string ->
  default 0 (anim_start self !! key) <= default 1 (anim_end self !! key) ->
  (0 <= f1 <= f2)%Z -> (f2 < total_frames)%Z ->
  exists v1 v2,
    value_at self key f1 total_frames = Some v1
    /\ value_at self key f2 total_frames = Some v2
    /\ v1 <= v2.
Proof.
  intros Hen Hst Hse Hf HN. enter Hen. rewrite Hst.
  cbn [String.eqb Ascii.eqb Bool.eqb].
  eexists. eexists. split; [reflexivity |]. split; [reflexivity |].
  set (start := default 0 (anim_start self !! key)) in *.
  set (end_ := default 1 (anim_end self !! key)) in *.
  pose proof (progress_unit f1 total_frames ltac:(lia)) as [H1 _].
  pose proof (progress_unit f2 total_frames ltac:(lia)) as [_ H2].
  pose proof (progress_mono f1 f2 total_frames ltac:(lia)) as H12.
  pose proof (apply_curve_mono _ _
                (default "Linear"%string (anim_curve self !! key)) H1 H12 H2)
    as Hc.
  set (c1 := apply_curve _ _) in *. set (c2 := apply_curve _ _) in *.
  nra.
Qed.

End Values.

Lemma linear_style_monotone_witness :
  exists v1 v2,
    calculate_animated_value (fun _ => 1 # 2)
      (circle_window "Linear" "Ease In/Out") "radius" 3 16 = Some v1
    /\ calculate_animated_value (fun _ => 1 # 2)
         (circle_window "Linear" "Ease In/Out") "radius" 9 16 = Some v2
    /\ v1 <= v2.
Proof.
  apply (linear_style_monotone (fun _ => 1 # 2)
           (circle_window "Linear" "Ease In/Out") "radius" 3 9 16);
    try reflexivity; try discriminate; lia.
Defined.

(** *** The ends of an animation, in binary64 *)

Lemma apply_curve_0_binary64 (curve : string) :
  apply_curve 0%float curve = 0%float.
Proof.
  unfold apply_curve.
  repeat match goal with
  | |- context [String.eqb ?c ?s] => destruct (String.eqb c s)
  end; reflexivity.
Qed.

Lemma apply_curve_1_binary64 (curve : string) :
  apply_curve 1%float curve = 1%float.
Proof.
  unfold apply_curve.
  repeat match goal with
  | |- context [String.eqb ?c ?s] => destruct (String.eqb c s)
  end; reflexivity.
Qed.

Section Ends.

Local Open Scope float_scope.

Variable seeded_random : Z -> float.

Local Abbreviation value_at := (calculate_animated_value seeded_random).

Ltac enter64 Hen Hst :=
  unfold calculate_animated_value; rewrite Hen; cbn [negb]; cbv zeta;
  rewrite Hst; cbn [String.eqb Ascii.eqb Bool.eqb];
  cbn [add sub mul div num half leb binary64].

(** X13.  With the style Linear, whatever the easing curve, as the
    program computes it in binary64, for every frame count from 1 to
    [2^53]: the first frame shows the start value (finite, at a finite
    difference from the end value), also when it is the only frame; and
    the value of the last of several frames is exactly the float
    [start + (end - start)], the curve being exactly [1.0] there. *)
Theorem linear_style_endpoints (self : gui float) (key : string)
    (total_frames : Z) :
  default false (anim_enabled self !! key) = true ->
  default "Linear"%string (anim_style self !! key) = "Linear"%string ->
  (1 <= total_frames <= 2 ^ 53)%Z ->
  let start := default 0 (anim_start self !! key) in
  let end_ := default 1 (anim_end self !! key) in
  (is_finite start = true -> is_finite (end_ - start) = true ->
   exists v, value_at self key 0 total_frames = Some v
             /\ (v =? start) = true)
  /\ ((1 < total_frames)%Z ->
      value_at self key (total_frames - 1) total_frames
      = Some (start + (end_ - start))).
Proof.
  intros Hen Hst HN start end_. split.
  - intros Hfs Hfd. enter64 Hen Hst. fold start end_.
    rewrite AnimatorFacts.progress_first_binary64 by exact HN.
    rewrite apply_curve_0_binary64.
    eexists. split; [reflexivity |].
    now apply Binary64Facts.interpolate_zero.
  - intros H1. enter64 Hen Hst. fold start end_.
    rewrite AnimatorFacts.progress_last_binary64 by lia.
    rewrite apply_curve_1_binary64.
    now rewrite Binary64Facts.mul_one_r.
Qed.

(** X14.  With the style Ping Pong the animation comes back, whatever
    the curve, as the program computes it in binary64 (more than one
    frame, at most [2^53]; start value and difference finite): the
    first and the last frame show the start value, and with an odd
    number of frames the value of the middle frame is exactly the float
    [start + (end - start)], the value a Linear animation ends on. *)
Theorem ping_pong_returns (self : gui float) (key : string)
    (total_frames : Z) :
  default false (anim_enabled self !! key) = true ->
  default "Linear"%string (anim_style self !! key) = "Ping Pong"%string ->
  (1 < total_frames <= 2 ^ 53)%Z ->
  let start := default 0 (anim_start self !! key) in
  let end_ := default 1 (anim_end self !! key) in
  is_finite start = true -> is_finite (end_ - start) = true ->
  (exists v, value_at self key 0 total_frames = Some v
             /\ (v =? start) = true)
  /\ (exists v, value_at self key (total_frames - 1) total_frames = Some v
                /\ (v =? start) = true)
  /\ (forall k, total_frames = (2 * k + 1)%Z ->
        value_at self key k total_frames = Some (start + (end_ - start))).
Proof.
  intros Hen Hst HN start end_ Hfs Hfd.
  split; [| split; [| intros k Hk]]; enter64 Hen Hst; fold start end_.
  - rewrite AnimatorFacts.progress_first_binary64 by lia.
    change (0 <=? 0.5) with true. cbv iota.
    change (0 * Np.of_Z 2) with 0.
    rewrite apply_curve_0_binary64.
    eexists. split; [reflexivity |].
    now apply Binary64Facts.interpolate_zero.
  - rewrite AnimatorFacts.progress_last_binary64 by lia.
    change (1 <=? 0.5) with false. cbv iota.
    change (Np.of_Z 2 - 1 * Np.of_Z 2) with 0.
    rewrite apply_curve_0_binary64.
    eexists. split; [reflexivity |].
    now apply Binary64Facts.interpolate_zero.
  - subst total_frames.
    replace (2 * k + 1 <=? 1)%Z with false by lia.
    replace (2 * k + 1 - 1)%Z with (2 * k)%Z by lia.
    rewrite Binary64Facts.ratio_middle by lia.
    change (0.5 <=? 0.5) with true. cbv iota.
    change (0.5 * Np.of_Z 2) with 1.
    rewrite apply_curve_1_binary64.
    now rewrite Binary64Facts.mul_one_r.
Qed.

End Ends.

Lemma linear_style_endpoints_witness :
  let self := radius_window "Linear" "Ease Out" in
  let value_at := calculate_animated_value (fun _ => 0.5%float) in
  (exists v, value_at self "radius"%string 0%Z 16%Z = Some v
             /\ PrimFloat.eqb v 0.1%float = true)
  /\ value_at self "radius"%string (16 - 1)%Z 16%Z
     = Some (0.1 + (0.4 - 0.1))%float.
Proof.
  intros self value_at.
  destruct (linear_style_endpoints (fun _ => 0.5%float) self "radius" 16
              eq_refl eq_refl ltac:(lia)) as [Hfirst Hlast].
  split; [exact (Hfirst eq_refl eq_refl) | exact (Hlast eq_refl)].
Defined.

Lemma ping_pong_returns_witness :
  let self := radius_window "Ping Pong" "Ease In" in
  let value_at := calculate_animated_value (fun _ => 0.5%float) in
  (exists v, value_at self "radius"%string 0%Z 17%Z = Some v
             /\ PrimFloat.eqb v 0.1%float = true)
  /\ (exists v, value_at self "radius"%string (17 - 1)%Z 17%Z = Some v
                /\ PrimFloat.eqb v 0.1%float = true)
  /\ value_at self "radius"%string 8%Z 17%Z = Some (0.1 + (0.4 - 0.1))%float.
Proof.
  intros self value_at.
  destruct (ping_pong_returns (fun _ => 0.5%float) self "radius" 17
              eq_refl eq_refl ltac:(lia) eq_refl eq_refl)
    as (Hfirst & Hlast & Hmiddle).
  split; [exact Hfirst | split; [exact Hlast | exact (Hmiddle 8%Z eq_refl)]].
Defined.

(** *** The parameters of a frame *)

Lemma int_of_integer (x : Q) (z : Z) : x == inject_Z z -> Py.int x = z.
Proof.
  unfold Qeq, Py.int, inject_Z. cbn [Qnum Qden]. intros H.
  rewrite Z.mul_1_r in H. rewrite H. apply Z.quot_mul. discriminate.
Qed.

(** Truncation keeps a number between two integers that bracket it. *)
Lemma int_between (x : Q) (lo hi : Z) :
  inject_Z lo <= x <= inject_Z hi -> (lo <= Py.int x <= hi)%Z.
Proof.
  unfold Qle, Py.int, inject_Z. cbn [Qnum Qden]. intros [Hlo Hhi].
  rewrite Z.mul_1_r in Hlo, Hhi.
  set (n := Qnum x) in *. set (d := Zpos (Qden x)) in *.
  assert (Hd : (0 < d)%Z) by (subst d; lia).
  pose proof (Z.quot_rem' n d) as Hq.
  destruct (Z_le_gt_dec 0 n) as [Hn | Hn].
  - pose proof (Z.rem_bound_pos n d Hn Hd).
    set (q := Z.quot n d) in *. set (r := Z.rem n d) in *. split; nia.
  - pose proof (Z.rem_bound_pos_neg n d Hd ltac:(lia)).
    set (q := Z.quot n d) in *. set (r := Z.rem n d) in *. split; nia.
Qed.

Lemma color_t_unit (frame total_frames : Z) :
  (0 <= frame < total_frames)%Z ->
  0 <= inject_Z frame / inject_Z (Z.max (total_frames - 1) 1) <= 1.
Proof.
  intros H. apply NoiseFacts.div_unit.
  - change 0 with (inject_Z 0). rewrite <- Zle_Qle. lia.
  - rewrite <- Zle_Qle. lia.
  - apply inject_Z_pos. lia.
Qed.

Lemma color_channel_between (start end_ frame total_frames : Z) :
  (0 <= frame < total_frames)%Z ->
  betweenZ start end_ (color_channel start end_ frame total_frames).
Proof.
  intros H. unfold betweenZ, color_channel. cbv zeta.
  pose proof (color_t_unit frame total_frames H) as Ht.
  set (t := inject_Z frame / _) in *.
  apply int_between.
  assert (Hs : inject_Z (Z.min start end_) <= inject_Z start)
    by (rewrite <- Zle_Qle; lia).
  assert (He : inject_Z (Z.min start end_) <= inject_Z end_)
    by (rewrite <- Zle_Qle; lia).
  assert (Hs' : inject_Z start <= inject_Z (Z.max start end_))
    by (rewrite <- Zle_Qle; lia).
  assert (He' : inject_Z end_ <= inject_Z (Z.max start end_))
    by (rewrite <- Zle_Qle; lia).
  split; nra.
Qed.

Lemma color_channel_first (start end_ total_frames : Z) :
  color_channel start end_ 0 total_frames = start.
Proof.
  unfold color_channel. cbv zeta. apply int_of_integer.
  change (inject_Z 0) with 0. unfold Qdiv. ring.
Qed.

Lemma color_channel_last (start end_ total_frames : Z) :
  (1 < total_frames)%Z ->
  color_channel start end_ (total_frames - 1) total_frames = end_.
Proof.
  intros H. unfold color_channel. cbv zeta. apply int_of_integer.
  replace (Z.max (total_frames - 1) 1) with (total_frames - 1)%Z by lia.
  field. intros E. pose proof (inject_Z_pos (total_frames - 1) ltac:(lia)). lra.
Qed.

Section Params.

Variable seeded_random : Z -> Q.

Lemma value_total (self : gui Q) (key : string) (frame total_frames : Z)
    (base : gmap string Q) :
  sprite_params self !! current_sprite_type self = Some base ->
  is_Some (calculate_animated_value seeded_random self key frame total_frames).
Proof.
  intros Hbase. unfold calculate_animated_value. rewrite Hbase.
  destruct (negb _); [now eexists |]. cbv zeta.
  destruct (String.eqb _ "Ping Pong").
  - destruct (leb _ _); now eexists.
  - destruct (String.eqb _ "Random"); now eexists.
Qed.

(** The loop over [self.anim_enabled]: every key whose box is ticked
    gets its animated value, every other key keeps the value of the
    copy. *)
Lemma animate_keys (self : gui Q) (frame total_frames : Z)
    (base : gmap string Q) (enabled : gmap string bool) :
  sprite_params self !! current_sprite_type self = Some base ->
  exists params,
    map_fold (animate_key seeded_random self frame total_frames)
             (Some base) enabled = Some params
    /\ forall key,
         params !! key
         = if default false (enabled !! key)
           then calculate_animated_value seeded_random self key frame
                  total_frames
           else base !! key.
Proof.
  intros Hbase.
  apply (map_fold_weak_ind
           (fun acc m =>
              exists params, acc = Some params
                /\ forall key,
                     params !! key
                     = if default false (m !! key)
                       then calculate_animated_value seeded_random self key
                              frame total_frames
                       else base !! key)).
  - exists base. split; [reflexivity |]. intros key.
    now rewrite lookup_empty.
  - intros i x m r Hi (params & -> & Hparams).
    unfold animate_key. cbn [mbind option_bind]. destruct x.
    + destruct (value_total self i frame total_frames base Hbase) as [v Hv].
      rewrite Hv. cbn [mbind option_bind].
      exists (<[i := v]> params). split; [reflexivity |]. intros key.
      destruct (decide (key = i)) as [-> | Hne].
      * now rewrite !lookup_insert_eq.
      * rewrite !lookup_insert_ne by congruence. apply Hparams.
    + exists params. split; [reflexivity |]. intros key.
      destruct (decide (key = i)) as [-> | Hne].
      * rewrite lookup_insert_eq, Hparams, Hi. reflexivity.
      * rewrite lookup_insert_ne by congruence. apply Hparams.
Qed.

(** X17.  The parameters of a frame, without colour animation: a parameter
    whose animation box is ticked has its animated value, every other
    parameter has the value of the sliders; the sliders' own values are
    those of the current sprite type. *)
Theorem get_animated_params_lookup (self : gui Q) (colors : color_anim)
    (frame total_frames : Z) (base : gmap string Q) :
  sprite_params self !! current_sprite_type self = Some base ->
  color_anim_enabled colors = false ->
  exists params,
    get_animated_params seeded_random self colors frame total_frames
      = Some params
    /\ forall key,
         params !! key
         = if default false (anim_enabled self !! key)
           then calculate_animated_value seeded_random self key frame
                  total_frames
           else base !! key.
Proof.
  intros Hbase Hcol. unfold get_animated_params. rewrite Hbase, Hcol.
  destruct (animate_keys self frame total_frames base (anim_enabled self)
              Hbase) as (params & Hfold & Hparams).
  cbn [mbind option_bind]. rewrite Hfold. cbn [mbind option_bind].
  now exists params.
Qed.

(** X18.  With the colour animation on, the three colour channels of a frame
    are integers between the channels of the start and of the end
    colour; the first frame has the start colour and the last frame the
    end colour, exactly. *)
Theorem animated_colour (self : gui Q) (colors : color_anim)
    (frame total_frames : Z) (base : gmap string Q)
    (sr sg sb er eg eb : Z) :
  sprite_params self !! current_sprite_type self = Some base ->
  color_anim_enabled colors = true ->
  color_start colors = (sr, sg, sb) -> color_end colors = (er, eg, eb) ->
  (0 <= frame < total_frames)%Z ->
  exists params r g b,
    get_animated_params seeded_random self colors frame total_frames
      = Some params
    /\ params !! "color_r" = Some (inject_Z r)
    /\ params !! "color_g" = Some (inject_Z g)
    /\ params !! "color_b" = Some (inject_Z b)
    /\ betweenZ sr er r /\ betweenZ sg eg g /\ betweenZ sb eb b
    /\ (frame = 0%Z -> (r, g, b) = (sr, sg, sb))
    /\ (frame = (total_frames - 1)%Z -> (1 < total_frames)%Z ->
        (r, g, b) = (er, eg, eb)).
Proof.
  intros Hbase Hcol Hs He Hf. unfold get_animated_params.
  rewrite Hbase, Hcol, Hs, He.
  destruct (animate_keys self frame total_frames base (anim_enabled self)
              Hbase) as (params & Hfold & _).
  cbn [mbind option_bind]. rewrite Hfold. cbn [mbind option_bind].
  eexists. exists (color_channel sr er frame total_frames),
    (color_channel sg eg frame total_frames),
    (color_channel sb eb frame total_frames).
  split; [reflexivity |].
  split; [now rewrite lookup_insert_ne, lookup_insert_ne, lookup_insert_eq
            by discriminate |].
  split; [now rewrite lookup_insert_ne, lookup_insert_eq by discriminate |].
  split; [now rewrite lookup_insert_eq |].
  split; [now apply color_channel_between |].
  split; [now apply color_channel_between |].
  split; [now apply color_channel_between |].
  split.
  - intros ->. now rewrite !color_channel_first.
  - intros -> HN. now rewrite !color_channel_last.
Qed.

End Params.

Lemma get_animated_params_lookup_witness :
  exists params,
    get_animated_params (fun _ => 1 # 2) (circle_window "Linear" "Linear")
      {| color_anim_enabled := false; color_start := (255, 255, 255)%Z;
         color_end := (255, 255, 255)%Z |} 3 16 = Some params
    /\ forall key,
         params !! key
         = if default false
                (anim_enabled (circle_window "Linear" "Linear") !! key)
           then calculate_animated_value (fun _ => 1 # 2)
                  (circle_window "Linear" "Linear") key 3 16
           else (default ∅ (sprite_params (circle_window "Linear" "Linear")
                              !! "Circle")) !! key.
Proof.
  apply (get_animated_params_lookup (fun _ => 1 # 2)
           (circle_window "Linear" "Linear")
           {| color_anim_enabled := false; color_start := (255, 255, 255)%Z;
              color_end := (255, 255, 255)%Z |} 3 16);
    reflexivity.
Defined.

Lemma animated_colour_witness :
  exists params r g b,
    get_animated_params (fun _ => 1 # 2) (circle_window "Linear" "Linear")
      fade_to_red 5 16 = Some params
    /\ params !! "color_r" = Some (inject_Z r)
    /\ params !! "color_g" = Some (inject_Z g)
    /\ params !! "color_b" = Some (inject_Z b)
    /\ betweenZ 255 255 r /\ betweenZ 255 0 g /\ betweenZ 255 0 b
    /\ (5%Z = 0%Z -> (r, g, b) = (255, 255, 255)%Z)
    /\ (5%Z = (16 - 1)%Z -> (1 < 16)%Z -> (r, g, b) = (255, 0, 0)%Z).
Proof.
  apply (animated_colour (fun _ => 1 # 2) (circle_window "Linear" "Linear")
           fade_to_red 5 16
           (default ∅ (sprite_params (circle_window "Linear" "Linear")
                         !! "Circle")));
    try reflexivity; lia.
Defined.

End FramesFacts.

(** ** The composite of two layers *)

Module CompositeFacts.

Import Num Noise Composite.
Local Open Scope Q_scope.

(** *** Shapes *)

Lemma mapM_rect {A B : Type} (f : A -> option B) (l : list A) (l' : list B)
    (P : B -> Prop) :
  mapM f l = Some l' -> (forall a b, f a = Some b -> P b) ->
  length l' = length l /\ Forall P l'.
Proof.
  intros H HP. apply mapM_Some in H.
  induction H as [| a b l l' Hab _ [IHl IHF]]; [split; constructor |].
  split; [cbn; now rewrite IHl | constructor; eauto].
Qed.

Lemma grid_rect (h w : nat) (pixel : nat -> nat -> option Q) (a : Field) :
  grid h w pixel = Some a -> rect h w a.
Proof.
  unfold grid, rect. intros H.
  apply (mapM_rect _ _ _ (fun row => length row = w)) in H.
  - destruct H as [Hlen HF]. now rewrite length_seq in Hlen.
  - intros y row Hrow.
    apply (mapM_rect _ _ _ (fun _ => True)) in Hrow; [| trivial].
    destruct Hrow as [Hlen _]. now rewrite length_seq in Hlen.
Qed.

Lemma rect_map (f : Q -> Q) (h w : nat) (a : Field) :
  rect h w a -> rect h w (map (map f) a).
Proof.
  intros [Hh Hw]. split; [now rewrite length_map |].
  apply List.Forall_forall. intros row Hrow.
  apply in_map_iff in Hrow as (r & <- & Hr).
  rewrite length_map. rewrite List.Forall_forall in Hw. now apply Hw.
Qed.

Lemma rect_zeros (h w : nat) : rect h w (np_zeros h w).
Proof.
  unfold np_zeros. split; [apply repeat_length |].
  apply List.Forall_forall. intros row Hrow.
  apply repeat_spec in Hrow. subst. apply repeat_length.
Qed.

Lemma rect_map_seq (f : nat -> nat -> Q) (h w : nat) :
  rect h w (map (fun y => map (fun x => f y x) (seq 0 w)) (seq 0 h)).
Proof.
  split; [now rewrite length_map, length_seq |].
  apply List.Forall_forall. intros row Hrow.
  apply in_map_iff in Hrow as (y & <- & _).
  now rewrite length_map, length_seq.
Qed.

Lemma shape_rect (h w : nat) (a : Field) :
  rect h w a -> (1 <= h)%nat -> shape a = (h, w).
Proof.
  intros [Hh Hw] H1. unfold shape. destruct a as [| row a]; [cbn in Hh; lia |].
  cbn [hd]. inversion Hw; subst. reflexivity.
Qed.

Lemma rect_seamless (h w : nat) (a : Field) (blend_width : Q) :
  rect h w a -> rect h w (make_seamless_blend a blend_width).
Proof.
  intros Hr. unfold make_seamless_blend.
  destruct h as [| h].
  - destruct Hr as [Hh _]. destruct a; [| discriminate].
    cbn. split; [reflexivity | constructor].
  - rewrite (shape_rect (S h) w a Hr) by lia. apply rect_map_seq.
Qed.

Lemma rect_finish (h w : nat) (a : Field) (seamless : bool) (bw : Q) :
  rect h w a -> rect h w (finish seamless bw a).
Proof. intros Hr. destruct seamless; [now apply rect_seamless | exact Hr]. Qed.

Lemma rect_normalize_minmax (h w : nat) (a r : Field) :
  rect h w a -> normalize_minmax a = Some r -> rect h w r.
Proof.
  intros Hr. unfold normalize_minmax.
  destruct (field_min a) as [mn |]; [| discriminate].
  destruct (field_max a) as [mx |]; [| discriminate].
  cbn. intros [= <-]. destruct (Py.ltb _ _); [now apply rect_map | exact Hr].
Qed.

Lemma rect_normalize_max (h w : nat) (a r : Field) :
  rect h w a -> normalize_max a = Some r -> rect h w r.
Proof.
  intros Hr. unfold normalize_max.
  destruct (field_max a) as [mx |]; [| discriminate].
  cbn. intros [= <-]. destruct (Py.ltb _ _); [now apply rect_map | exact Hr].
Qed.

Section Shapes.

Variable pnoise3 : Q -> Q -> Q -> Z -> Q -> Q -> Z -> Q.
Variable simplex_noise3 : Z -> Q -> Q -> Q -> Q.
Variable perlin_noise : Z -> Z -> Q -> Q -> Q -> Q.
Variable py_pow : Q -> Q -> Q.

Ltac unbind H :=
  repeat (apply bind_Some in H as (? & ? & H));
  try (destruct (offsets _) as [[? ?] ?]).

Lemma perlin_map_rect (w h : nat) (p : params) (a : Field) :
  perlin_map pnoise3 w h p = Some a -> rect h w a.
Proof. unfold perlin_map. intros H. unbind H. eapply grid_rect, H. Qed.

Lemma simplex_map_rect (w h : nat) (p : params) (a : Field) :
  simplex_map simplex_noise3 w h p = Some a -> rect h w a.
Proof. unfold simplex_map. intros H. unbind H. eapply grid_rect, H. Qed.

Lemma fbm_map_rect (w h : nat) (p : params) (a : Field) :
  fbm_map perlin_noise w h p = Some a -> rect h w a.
Proof.
  unfold fbm_map. intros H. unbind H.
  destruct (octaves_refused _); [discriminate |].
  unbind H. eapply grid_rect, H.
Qed.

Lemma turbulence_map_rect (w h : nat) (p : params) (a : Field) :
  turbulence_map simplex_noise3 py_pow w h p = Some a -> rect h w a.
Proof. unfold turbulence_map. intros H. unbind H. eapply grid_rect, H. Qed.

Lemma ridged_map_rect (w h : nat) (p : params) (a : Field) :
  ridged_map simplex_noise3 w h p = Some a -> rect h w a.
Proof. unfold ridged_map. intros H. unbind H. eapply grid_rect, H. Qed.

Lemma domain_warp_map_rect (w h : nat) (p : params) (a : Field) :
  domain_warp_map simplex_noise3 w h p = Some a -> rect h w a.
Proof. unfold domain_warp_map. intros H. unbind H. eapply grid_rect, H. Qed.

(** Whenever [NoiseGenerator.generate] returns, the field has [height]
    rows of [width] values. *)
Lemma generate_rect (noise_type : string) (width height : nat) (p : params)
    (seamless : bool) (blend_width : Q) (f : Field) :
  Noise.generate pnoise3 simplex_noise3 perlin_noise py_pow
    noise_type width height p seamless blend_width = Some f ->
  rect height width f.
Proof.
  unfold Noise.generate. intros H.
  apply bind_Some in H as (result & Hres & H).
  assert (Hr : rect height width result).
  { repeat match type of Hres with
    | (if ?c then _ else _) = Some _ => destruct c
    end.
    - unfold _perlin in Hres. unbind Hres. injection Hres as <-.
      eauto using rect_finish, rect_normalize_minmax, perlin_map_rect.
    - unfold _simplex in Hres. unbind Hres. injection Hres as <-.
      eauto using rect_finish, rect_map, simplex_map_rect.
    - unfold _fbm in Hres. unbind Hres. injection Hres as <-.
      eauto using rect_finish, rect_normalize_minmax, fbm_map_rect.
    - unfold _turbulence in Hres. unbind Hres. injection Hres as <-.
      eauto using rect_finish, rect_normalize_max, turbulence_map_rect.
    - unfold _ridged in Hres. unbind Hres. injection Hres as <-.
      eauto using rect_finish, rect_normalize_max, ridged_map_rect.
    - unfold _domain_warp in Hres. unbind Hres. injection Hres as <-.
      eauto using rect_finish, rect_map, domain_warp_map_rect.
    - injection Hres as <-. apply rect_zeros. }
  injection H as <-. destruct (Py.truthy _); [now apply rect_map | exact Hr].
Qed.

End Shapes.

(** *** The blend modes *)

Lemma zip_with_rect (f : Q -> Q -> Q) (h w : nat) (a b : Field) :
  rect h w a -> rect h w b -> rect h w (zip_with (zip_with f) a b).
Proof.
  intros [Ha Wa] [Hb Wb]. revert h b Ha Hb Wb.
  induction Wa as [| ra a Hra Wa IH]; intros h [| rb b] Ha Hb Wb;
    cbn in Ha, Hb; subst h; try discriminate.
  - split; [reflexivity | constructor].
  - inversion Wb as [| ? ? Hrb Wb']; subst.
    injection Hb as Hb.
    destruct (IH (length a) b eq_refl Hb Wb') as [Hl HF].
    split; [cbn; now rewrite Hl |].
    constructor; [| exact HF].
    clear - Hrb. revert rb Hrb.
    induction ra as [| va ra IHr]; intros [| vb rb] Hrb;
      try discriminate; [reflexivity |].
    cbn. f_equal. apply IHr. now injection Hrb.
Qed.

Lemma zip_with_Forall (f : Q -> Q -> Q) (P : Q -> Prop) (ra rb : list Q) :
  (forall x y, P x -> P y -> P (f x y)) ->
  Forall P ra -> Forall P rb -> Forall P (zip_with f ra rb).
Proof.
  intros Hf Ha. revert rb.
  induction Ha as [| va ra Hva Ha IH]; intros rb Hb; [constructor |].
  destruct Hb as [| vb rb Hvb Hb]; [constructor |].
  cbn. constructor; auto.
Qed.

Lemma zip_with_Forall2_l (f : Q -> Q -> Q) (R : Q -> Q -> Prop)
    (Pa Pb : Q -> Prop) (ra rb : list Q) :
  (forall x y, Pa x -> Pb y -> R (f x y) x) ->
  length ra = length rb -> Forall Pa ra -> Forall Pb rb ->
  Forall2 R (zip_with f ra rb) ra.
Proof.
  intros Hf Hlen Ha. revert rb Hlen.
  induction Ha as [| va ra Hva Ha IH]; intros [| vb rb] Hlen Hb;
    try discriminate; [constructor |].
  inversion Hb; subst. cbn. constructor; [auto |].
  apply IH; [now injection Hlen | assumption].
Qed.

(** The same, one level up: on two fields of one shape. *)
Lemma blend_Forall2_l (f : Q -> Q -> Q) (R : Q -> Q -> Prop)
    (Pa Pb : Q -> Prop) (a b : Field) :
  (forall x y, Pa x -> Pb y -> R (f x y) x) ->
  same_shape a b -> Forall (Forall Pa) a -> Forall (Forall Pb) b ->
  Forall2 (Forall2 R) (zip_with (zip_with f) a b) a.
Proof.
  intros Hf Hs. induction Hs as [| ra rb a b Hlen Hs IH]; intros Ha Hb;
    [constructor |].
  inversion Ha; inversion Hb; subst. cbn. constructor; [| auto].
  now apply (zip_with_Forall2_l f R Pa Pb).
Qed.

Lemma Forall_rows_True (b : Field) : Forall (Forall (fun _ => True)) b.
Proof.
  apply List.Forall_forall. intros row _.
  apply List.Forall_forall. trivial.
Qed.

Lemma clip_unit (v : Q) : unit_interval (Qmin (Qmax v 0) 1).
Proof.
  unfold unit_interval. split.
  - apply Q.min_glb; [apply Q.le_max_r | discriminate].
  - apply Q.le_min_r.
Qed.

Ltac by_mode :=
  unfold Blend.blend_pixel;
  repeat match goal with
  | |- context [String.eqb ?m ?s] => destruct (String.eqb m s)
  end;
  cbn [add sub mul num half ltb minimum maximum exact].

Section BlendArithmetic.

Variables weight a b : Q.
Hypothesis Hw : 0 <= weight <= 1.
Hypothesis Ha : 0 <= a <= 1.
Hypothesis Hb : 0 <= b <= 1.

Lemma mix_unit : 0 <= a * (1 - weight) + b * weight <= 1.
Proof using Hw Ha Hb. nra. Qed.

Lemma multiply_factor : 0 <= b * weight + (1 - weight) <= 1.
Proof using Hw Hb. nra. Qed.

Lemma multiply_unit : 0 <= a * (b * weight + (1 - weight)) <= 1.
Proof using Hw Ha Hb. pose proof multiply_factor. nra. Qed.

Lemma multiply_darkens : a * (b * weight + (1 - weight)) <= a.
Proof using Hw Ha Hb. pose proof multiply_factor. nra. Qed.

Lemma screen_factor : 0 <= 1 - b * weight <= 1.
Proof using Hw Hb. nra. Qed.

Lemma screen_unit : 0 <= 1 - (1 - a) * (1 - b * weight) <= 1.
Proof using Hw Ha Hb. pose proof screen_factor. nra. Qed.

Lemma screen_lightens : a <= 1 - (1 - a) * (1 - b * weight).
Proof using Hw Ha Hb. pose proof screen_factor. nra. Qed.

Lemma overlay_low_unit : 0 <= 2 * a * b <= 1 \/ 1 # 2 <= a.
Proof using Ha Hb.
  destruct (Qlt_le_dec a (1 # 2)) as [H | H]; [left | right; exact H].
  assert (0 <= a * b <= a) by nra. nra.
Qed.

Lemma overlay_high_unit : 0 <= 1 - 2 * (1 - a) * (1 - b) <= 1 \/ a < 1 # 2.
Proof using Ha Hb.
  destruct (Qlt_le_dec a (1 # 2)) as [H | H]; [right; exact H | left].
  assert (0 <= (1 - a) * (1 - b) <= 1 - a) by nra. nra.
Qed.

Lemma convex_of_unit (r : Q) :
  0 <= r <= 1 -> 0 <= a * (1 - weight) + r * weight <= 1.
Proof using Hw Ha. intros Hr. nra. Qed.

End BlendArithmetic.

Lemma blend_pixel_unit (mode : string) (weight a b : Q) :
  unit_interval weight -> unit_interval a -> unit_interval b ->
  unit_interval (Blend.blend_pixel mode weight a b).
Proof.
  unfold unit_interval. intros Hw Ha Hb.
  by_mode; change (inject_Z 1) with 1; change (inject_Z 0) with 0;
    change (inject_Z 2) with 2.
  - (* Mix *) now apply mix_unit.
  - (* Add *) apply clip_unit.
  - (* Multiply *) now apply multiply_unit.
  - (* Screen *) now apply screen_unit.
  - (* Overlay *)
    apply convex_of_unit; try assumption.
    destruct (Py.ltb a (1 # 2)) eqn:E.
    + apply NoiseFacts.ltb_true in E.
      destruct (overlay_low_unit a b Ha Hb) as [H | H]; [exact H | lra].
    + apply NoiseFacts.ltb_false in E.
      destruct (overlay_high_unit a b Ha Hb) as [H | H]; [exact H | lra].
  - (* Min *)
    pose proof (mix_unit weight a b Hw Ha Hb).
    destruct (Q.min_spec a (b * weight + a * (1 - weight))) as [[? ->] | [? ->]];
      lra.
  - (* Max *)
    pose proof (mix_unit weight a b Hw Ha Hb).
    destruct (Q.max_spec a (b * weight + a * (1 - weight))) as [[? ->] | [? ->]];
      lra.
  - exact Ha.
Qed.

(** X19.  Every blend mode, known or not, keeps the composite inside
    [[0, 1]]: for a weight in [[0, 1]] and two layers with values in
    [[0, 1]], every value of the blend lies in [[0, 1]]. *)
Theorem blend_noise_unit (mode : string) (weight : Q) (noise_a noise_b : Field) :
  unit_interval weight -> in_unit noise_a -> in_unit noise_b ->
  in_unit (Blend.blend_noise noise_a noise_b weight mode).
Proof.
  intros Hw Ha. unfold Blend.blend_noise, in_unit. revert noise_b.
  induction Ha as [| ra a Hra Ha IH]; intros noise_b Hb; [constructor |].
  destruct Hb as [| rb b Hrb Hb]; [constructor |].
  cbn. constructor; [| now apply IH].
  apply zip_with_Forall; try assumption.
  intros x y Hx Hy. now apply blend_pixel_unit.
Qed.

Lemma blend_noise_unit_witness :
  in_unit (Blend.blend_noise [[0; 1 # 4]; [1 # 2; 1]] [[1; 3 # 4]; [1 # 3; 0]]
             (1 # 2) "Overlay").
Proof.
  apply (blend_noise_unit "Overlay" (1 # 2)); unfold unit_interval;
    repeat constructor; discriminate.
Defined.

Lemma blend_pixel_weight_zero (mode : string) (a b : Q) :
  unit_interval a -> Blend.blend_pixel mode 0 a b == a.
Proof.
  unfold unit_interval. intros Ha.
  by_mode; change (inject_Z 1) with 1; change (inject_Z 0) with 0;
    change (inject_Z 2) with 2.
  - ring.
  - assert (E : a + b * 0 == a) by ring.
    destruct (Q.max_spec (a + b * 0) 0) as [[H1 ->] | [H1 ->]];
      destruct (Q.min_spec (a + b * 0) 1) as [[H2 H2'] | [H2 H2']];
      try (destruct (Q.min_spec 0 1) as [[H3 ->] | [H3 ->]]);
      try rewrite H2'; lra.
  - ring.
  - ring.
  - destruct (Py.ltb a (1 # 2)); ring.
  - destruct (Q.min_spec a (b * 0 + a * (1 - 0))) as [[? ->] | [? ->]];
      [reflexivity | ring].
  - destruct (Q.max_spec a (b * 0 + a * (1 - 0))) as [[? ->] | [? ->]];
      [ring | reflexivity].
  - reflexivity.
Qed.

(** X20.  At weight 0 every blend mode other than Screen, known or
    not, returns layer A.  (Screen computes [1 - (1 - a)] there, which
    binary64 rounds.) *)
Theorem blend_weight_zero (mode : string) (noise_a noise_b : Field) :
  mode <> "Screen"%string ->
  same_shape noise_a noise_b -> in_unit noise_a ->
  field_eq (Blend.blend_noise noise_a noise_b 0 mode) noise_a.
Proof.
  intros _ Hs Ha. unfold field_eq, Blend.blend_noise.
  apply (blend_Forall2_l _ _ unit_interval (fun _ => True));
    [| assumption | assumption | apply Forall_rows_True].
  intros x y Hx _. now apply blend_pixel_weight_zero.
Qed.

Lemma blend_weight_zero_witness :
  field_eq (Blend.blend_noise [[0; 1 # 4]; [1 # 2; 1]]
              [[1; 3 # 4]; [1 # 3; 0]] 0 "Overlay")
           [[0; 1 # 4]; [1 # 2; 1]].
Proof.
  apply (blend_weight_zero "Overlay"); unfold unit_interval;
    repeat constructor; discriminate.
Defined.

(** Over binary64 the same definition returns layer A exactly at weight
    0, on every pair of pixel values [k / 100], in every mode but
    Screen. *)
Example blend_weight_zero_binary64 :
  map Blend.keeps_layer_a_at_zero Blend.modes
  = [true; true; true; false; true; true; true].
Proof. vm_compute. reflexivity. Qed.

(** In mode Screen at weight 0 binary64 computes [1 - (1 - a)] for
    every pixel [a] of layer A and every finite pixel of layer B; this
    is not always [a]. *)
Lemma screen_weight_zero_binary64 (a b : float) :
  is_finite b = true ->
  Blend.blend_pixel "Screen" 0%float a b = (1 - (1 - a))%float.
Proof.
  intros Hb. apply Binary64Facts.is_finite_finite in Hb.
  unfold Blend.blend_pixel.
  cbn [String.eqb Ascii.eqb Bool.eqb add sub mul num binary64].
  change (Np.of_Z 1) with 1%float.
  destruct (Binary64Facts.mul_zero_r b 0 false Hb eq_refl) as [s Hz].
  rewrite (Binary64Facts.sub_zero_r 1 _ _ s _ _ eq_refl Hz).
  now rewrite Binary64Facts.mul_one_r.
Qed.

Example screen_weight_zero_rounds :
  Blend.blend_pixel "Screen" 0%float 0.07%float 0.5%float
  = 0.07000000000000006%float
  /\ PrimFloat.eqb 0.07000000000000006%float 0.07%float = false.
Proof. vm_compute. split; reflexivity. Qed.

(** X21.  Multiply and Min never brighten layer A, and Max never darkens
    it. *)
Theorem blend_darkens_or_lightens (weight : Q) (noise_a noise_b : Field) :
  unit_interval weight -> same_shape noise_a noise_b ->
  in_unit noise_a -> in_unit noise_b ->
  field_le (Blend.blend_noise noise_a noise_b weight "Multiply") noise_a
  /\ field_le (Blend.blend_noise noise_a noise_b weight "Min") noise_a
  /\ Forall2 (Forall2 (fun v va => va <= v))
       (Blend.blend_noise noise_a noise_b weight "Max") noise_a.
Proof.
  intros Hw Hs Ha Hb. unfold field_le, Blend.blend_noise.
  repeat split;
    apply (blend_Forall2_l _ _ unit_interval unit_interval); try assumption;
    intros x y Hx Hy; unfold Blend.blend_pixel;
    cbn [String.eqb Ascii.eqb Bool.eqb add sub mul num minimum maximum exact];
    change (inject_Z 1) with 1.
  - now apply multiply_darkens.
  - apply Q.le_min_l.
  - apply Q.le_max_l.
Qed.

Lemma blend_darkens_or_lightens_witness :
  let a : Field := [[0; 1 # 4]; [1 # 2; 1]] in
  let b : Field := [[1; 3 # 4]; [1 # 3; 0]] in
  field_le (Blend.blend_noise a b (1 # 2) "Multiply") a
  /\ field_le (Blend.blend_noise a b (1 # 2) "Min") a
  /\ Forall2 (Forall2 (fun v va => va <= v)) (Blend.blend_noise a b (1 # 2) "Max") a.
Proof.
  intros a b.
  apply (blend_darkens_or_lightens (1 # 2) a b); unfold unit_interval;
    repeat constructor; discriminate.
Defined.

(** Over binary64 the three bounds hold as well, on all pixel values
    and weights [k / 100]; the bound of Screen, [a <= v], which holds in
    exact arithmetic, does not. *)
Example blend_darkens_or_lightens_binary64 :
  Blend.one_sided "Multiply" false = true
  /\ Blend.one_sided "Min" false = true
  /\ Blend.one_sided "Max" true = true
  /\ Blend.one_sided "Screen" true = false.
Proof. vm_compute. repeat split. Qed.

(** *** The worker *)

Section Worker.

Variable pnoise3 : Q -> Q -> Q -> Z -> Q -> Q -> Z -> Q.
Variable simplex_noise3 : Z -> Q -> Q -> Q -> Q.
Variable perlin_noise : Z -> Z -> Q -> Q -> Q -> Q.
Variable py_pow : Q -> Q -> Q.

(** X22.  A worker that is not interrupted always emits one field, and the
    field has the requested size: the composite when both layers were
    generated, the black fallback when a generator raised. *)
Theorem run_emits_requested_size (self : worker) (requested : nat -> bool) :
  (forall k, requested k = false) ->
  exists f,
    run pnoise3 simplex_noise3 perlin_noise py_pow self requested = Some f
    /\ rect (height self) (width self) f
    /\ (generate_composite_noise pnoise3 simplex_noise3 perlin_noise py_pow
          (settings self) (width self) (height self) = None ->
        f = np_zeros (height self) (width self))
    /\ (forall g,
          generate_composite_noise pnoise3 simplex_noise3 perlin_noise py_pow
            (settings self) (width self) (height self) = Some g -> f = g).
Proof.
  intros Hno. unfold run, generate_composite_noise, generate.
  rewrite !Hno.
  destruct (Noise.generate _ _ _ _ (noise_type_a _) _ _ _ _ _)
    as [noise_a |] eqn:Ea.
  - change (Some noise_a ≫= ?k) with (k noise_a). cbv beta.
    destruct (String.eqb (noise_type_b (settings self)) "None").
    + exists noise_a. split; [reflexivity |].
      split; [eapply generate_rect, Ea |].
      split; [discriminate | now intros g [= <-]].
    + destruct (Noise.generate _ _ _ _ (noise_type_b _) _ _ _ _ _)
        as [noise_b |] eqn:Eb.
      * change (Some noise_b ≫= ?k) with (k noise_b). cbv beta.
        eexists. split; [reflexivity |].
        split; [apply zip_with_rect; eapply generate_rect; eassumption |].
        split; [discriminate | now intros g [= <-]].
      * change (None ≫= ?k) with (@None Field).
        eexists. split; [reflexivity |].
        split; [apply rect_zeros |]. split; [reflexivity | discriminate].
  - change (None ≫= ?k) with (@None Field).
    eexists. split; [reflexivity |].
    split; [apply rect_zeros |]. split; [reflexivity | discriminate].
Qed.

End Worker.

Lemma run_emits_requested_size_witness :
  let self := {| settings := default_window; width := 3; height := 2 |} in
  exists f,
    run flat_pnoise3 ramp_simplex ramp_perlin square_pow self (fun _ => false)
      = Some f
    /\ rect (height self) (width self) f
    /\ (generate_composite_noise flat_pnoise3 ramp_simplex ramp_perlin
          square_pow (settings self) (width self) (height self) = None ->
        f = np_zeros (height self) (width self))
    /\ (forall g,
          generate_composite_noise flat_pnoise3 ramp_simplex ramp_perlin
            square_pow (settings self) (width self) (height self) = Some g ->
          f = g).
Proof.
  intros self.
  apply (run_emits_requested_size flat_pnoise3 ramp_simplex ramp_perlin
           square_pow self (fun _ => false)).
  reflexivity.
Defined.

(** *** The seam and the inversion *)

Lemma one_minus_zero_over (b : Z) : 1 - inject_Z 0 / inject_Z b == 1.
Proof. change (inject_Z 0) with 0. unfold Qdiv. ring. Qed.

Lemma eqb_zero_of_one (v : Q) : v == 1 -> Py.eqb v 0 = false.
Proof.
  intros Hv. unfold Py.eqb. destruct (Qeq_bool v 0) eqn:E; [| reflexivity].
  apply Qeq_bool_iff in E. rewrite Hv in E. discriminate.
Qed.

Lemma blend_zone_ge_2 (extent : nat) (blend_width : Q) :
  (2 <= blend_zone extent blend_width)%Z.
Proof. unfold blend_zone. lia. Qed.

(** X23.  With a blend zone smaller than the image, the seamless tiler fills
    the first row from row [h // 2] of its input and the last row from
    row [h // 2 - 1], both blended along [x] in the same way: the two
    rows that meet when the image is tiled were adjacent in the
    input. *)
Theorem seamless_edge_rows (a : Field) (blend_width : Q) (h w x : nat) :
  rect h w a -> (blend_zone h blend_width < Z.of_nat h)%Z -> (x < w)%nat ->
  let r := make_seamless_blend a blend_width in
  let b_x := edge_weight (Z.of_nat x) (Z.of_nat w) (blend_zone w blend_width) in
  let x' := ((x + w / 2) mod w)%nat in
  get r 0 x == (1 - b_x) * get a (h / 2) x + b_x * get a (h / 2) x'
  /\ get r (h - 1) x
     == (1 - b_x) * get a (h / 2 - 1) x + b_x * get a (h / 2 - 1) x'.
Proof.
  intros Hr Hb Hx. cbv zeta.
  pose proof (blend_zone_ge_2 h blend_width) as Hb2.
  assert (Hh : (3 <= h)%nat) by lia.
  unfold make_seamless_blend. rewrite (shape_rect h w a Hr) by lia.
  set (b_h := blend_zone h blend_width) in *.
  set (b_w := blend_zone w blend_width).
  clearbody b_h b_w.
  assert (Hhalf : (1 <= h / 2 < h)%nat).
  { split; [apply Nat.div_le_lower_bound; lia | apply Nat.div_lt; lia]. }
  split.
  - rewrite NoiseFacts.get_map_seq by lia.
    assert (Hy : edge_weight (Z.of_nat 0) (Z.of_nat h) b_h == 1).
    { unfold edge_weight. change (Z.of_nat 0) with 0%Z.
      rewrite (proj2 (Z.ltb_lt 0 b_h)) by lia.
      apply one_minus_zero_over. }
    rewrite (eqb_zero_of_one _ Hy). cbn [andb].
    rewrite Hy. replace ((0 + h / 2) mod h)%nat with (h / 2)%nat
      by (symmetry; apply Nat.mod_small; lia).
    ring.
  - rewrite NoiseFacts.get_map_seq by lia.
    assert (Hy : edge_weight (Z.of_nat (h - 1)) (Z.of_nat h) b_h == 1).
    { unfold edge_weight.
      rewrite (proj2 (Z.ltb_ge (Z.of_nat (h - 1)) b_h)) by lia.
      rewrite (proj2 (Z.leb_le (Z.of_nat h - b_h) (Z.of_nat (h - 1)))) by lia.
      replace (Z.of_nat h - 1 - Z.of_nat (h - 1))%Z with 0%Z by lia.
      apply one_minus_zero_over. }
    rewrite (eqb_zero_of_one _ Hy). cbn [andb].
    rewrite Hy.
    replace ((h - 1 + h / 2) mod h)%nat with (h / 2 - 1)%nat.
    + ring.
    + replace (h - 1 + h / 2)%nat with (h / 2 - 1 + 1 * h)%nat by lia.
      rewrite Nat.Div0.mod_add. symmetry. apply Nat.mod_small. lia.
Qed.

Lemma seamless_edge_rows_witness :
  let a : Field := [[1; 2; 3; 4]; [5; 6; 7; 8]; [9; 10; 11; 12];
                    [13; 14; 15; 16]] in
  let r := make_seamless_blend a (1 # 10) in
  let b_x := edge_weight (Z.of_nat 1) (Z.of_nat 4) (blend_zone 4 (1 # 10)) in
  let x' := ((1 + 4 / 2) mod 4)%nat in
  get r 0 1 == (1 - b_x) * get a (4 / 2) 1 + b_x * get a (4 / 2) x'
  /\ get r (4 - 1) 1
     == (1 - b_x) * get a (4 / 2 - 1) 1 + b_x * get a (4 / 2 - 1) x'.
Proof.
  intros a.
  apply (seamless_edge_rows a (1 # 10) 4 4 1).
  - split; [reflexivity | repeat constructor].
  - reflexivity.
  - lia.
Defined.

Section Inversion.

Variable pnoise3 : Q -> Q -> Q -> Z -> Q -> Q -> Z -> Q.
Variable simplex_noise3 : Z -> Q -> Q -> Q -> Q.
Variable perlin_noise : Z -> Z -> Q -> Q -> Q -> Q.
Variable py_pow : Q -> Q -> Q.

Ltac skip_invert :=
  unfold offsets; rewrite !lookup_insert_ne by discriminate; reflexivity.

(** X24.  The invert switch does nothing but complement the field:
    generating with [invert] set gives [1 - v] for every value [v]
    generated with [invert] unset, and fails when that fails. *)
Theorem invert_complements (noise_type : string) (width height : nat)
    (p : params) (seamless : bool) (blend_width : Q) :
  Noise.generate pnoise3 simplex_noise3 perlin_noise py_pow
    noise_type width height (<["invert" := 1]> p) seamless blend_width
  = map (map (fun v => 1 - v))
      <$> Noise.generate pnoise3 simplex_noise3 perlin_noise py_pow
            noise_type width height (<["invert" := 0]> p) seamless
            blend_width.
Proof.
  unfold Noise.generate. rewrite !lookup_insert_eq.
  change (Py.truthy (default 0 (Some 1))) with true.
  change (Py.truthy (default 0 (Some 0))) with false.
  cbv iota.
  match goal with
  | |- ?m1 ≫= _ = _ <$> (?m0 ≫= _) =>
      assert (E : m1 = m0); [| rewrite E; now destruct m0]
  end.
  repeat match goal with
  | |- (if ?c then _ else _) = _ => destruct c
  end; try reflexivity.
  - unfold _perlin, perlin_map. skip_invert.
  - unfold _simplex, simplex_map. skip_invert.
  - unfold _fbm, fbm_map. skip_invert.
  - unfold _turbulence, turbulence_map. skip_invert.
  - unfold _ridged, ridged_map. skip_invert.
  - unfold _domain_warp, domain_warp_map. skip_invert.
Qed.

End Inversion.

(** *** Frames of an export *)

Lemma Qplus_zero_r (z : Q) : z + inject_Z 0 = z.
Proof.
  destruct z as [n d]. unfold Qplus, inject_Z. cbn [Qnum Qden].
  f_equal; [lia | apply Pos.mul_1_r].
Qed.

Lemma animated_params_first (p : params) (anim_rate : Z) :
  is_Some (p !! "z_offset") -> animated_params p 0 anim_rate = p.
Proof.
  intros [z Hz]. unfold animated_params. rewrite Hz. cbn [default].
  change (0 * anim_rate)%Z with 0%Z. rewrite Qplus_zero_r.
  now apply insert_id.
Qed.

Section FirstFrame.

Variable pnoise3 : Q -> Q -> Q -> Z -> Q -> Q -> Z -> Q.
Variable simplex_noise3 : Z -> Q -> Q -> Q -> Q.
Variable perlin_noise : Z -> Z -> Q -> Q -> Q -> Q.
Variable py_pow : Q -> Q -> Q.

(** X25.  The first frame of an exported atlas, sequence or animation
    preview is the still composite of the window at the frame size,
    whatever the animation rate. *)
Theorem first_frame_is_still (self : window) (anim_rate : Z)
    (frame_size : nat) :
  is_Some (params_a self !! "z_offset") ->
  is_Some (params_b self !! "z_offset") ->
  frame_noise pnoise3 simplex_noise3 perlin_noise py_pow self 0 anim_rate
    frame_size
  = generate_composite_noise pnoise3 simplex_noise3 perlin_noise py_pow self
      frame_size frame_size.
Proof.
  intros Ha Hb. unfold frame_noise.
  rewrite !animated_params_first by assumption.
  destruct (negb _); now destruct self.
Qed.

End FirstFrame.

Lemma first_frame_is_still_witness :
  frame_noise flat_pnoise3 ramp_simplex ramp_perlin square_pow
    default_window 0 5 2
  = generate_composite_noise flat_pnoise3 ramp_simplex ramp_perlin square_pow
      default_window 2 2.
Proof.
  apply (first_frame_is_still flat_pnoise3 ramp_simplex ramp_perlin
           square_pow default_window 5 2); now eexists.
Defined.

(** *** Grey levels *)

Lemma int_le (x : Q) : 0 <= x -> inject_Z (Py.int x) <= x.
Proof.
  destruct x as [n d]. unfold Py.int, Qle, inject_Z. cbn [Qnum Qden].
  intros H. rewrite Z.mul_1_r in *. rewrite Z.mul_comm.
  apply Z.mul_quot_le; lia.
Qed.

Lemma int_succ_gt (x : Q) : 0 <= x -> x < inject_Z (Py.int x + 1).
Proof.
  destruct x as [n d]. unfold Py.int, Qle, Qlt, inject_Z. cbn [Qnum Qden].
  intros H. rewrite Z.mul_1_r in *.
  pose proof (Z.quot_rem' n (Zpos d)) as Hq.
  pose proof (Z.rem_bound_pos n (Zpos d) ltac:(lia) ltac:(lia)).
  nia.
Qed.

Lemma int_mono (x y : Q) : 0 <= x -> x <= y -> (Py.int x <= Py.int y)%Z.
Proof.
  intros Hx Hxy.
  destruct (Z_le_gt_dec (Py.int x) (Py.int y)) as [H | H]; [exact H |].
  exfalso. pose proof (int_le x Hx). pose proof (int_succ_gt y ltac:(lra)).
  assert (inject_Z (Py.int y + 1) <= inject_Z (Py.int x))
    by (rewrite <- Zle_Qle; lia).
  lra.
Qed.

(** X26.  A value of [[0, 1]] is stored as the integer part of [255 v],
    without wrap-around: the byte grows with the value, and it is 255,
    white, only for the value 1 itself. *)
Theorem grey_level_of_unit (v v' : Q) :
  unit_interval v -> unit_interval v' -> v <= v' ->
  to_uint8 v = Py.int (v * 255)
  /\ (0 <= to_uint8 v <= 255)%Z
  /\ (to_uint8 v <= to_uint8 v')%Z
  /\ (to_uint8 v = 255%Z <-> v == 1).
Proof.
  unfold unit_interval. intros Hv Hv' Hle.
  assert (Hint : forall u, 0 <= u <= 1 ->
            (0 <= Py.int (u * 255) <= 255)%Z
            /\ to_uint8 u = Py.int (u * 255)).
  { intros u Hu.
    assert (H : (0 <= Py.int (u * 255) <= 255)%Z).
    { apply FramesFacts.int_between. change (inject_Z 0) with 0.
      change (inject_Z 255) with 255. lra. }
    split; [exact H |]. unfold to_uint8. apply Z.mod_small. lia. }
  destruct (Hint v Hv) as [Hb Hu]. destruct (Hint v' Hv') as [Hb' Hu'].
  split; [exact Hu |]. split; [lia |]. rewrite Hu, Hu'. split.
  - apply int_mono; lra.
  - split.
    + intros H255. pose proof (int_le (v * 255) ltac:(lra)) as Hlo.
      rewrite H255 in Hlo. change (inject_Z 255) with 255 in Hlo. lra.
    + intros H1. apply FramesFacts.int_of_integer. rewrite H1. reflexivity.
Qed.

Lemma grey_level_of_unit_witness :
  to_uint8 (1 # 2) = Py.int ((1 # 2) * 255)
  /\ (0 <= to_uint8 (1 # 2) <= 255)%Z
  /\ (to_uint8 (1 # 2) <= to_uint8 (999 # 1000))%Z
  /\ (to_uint8 (1 # 2) = 255%Z <-> 1 # 2 == 1).
Proof.
  apply (grey_level_of_unit (1 # 2) (999 # 1000)); unfold unit_interval;
    try split; discriminate.
Defined.

End CompositeFacts.

(** ** Pixels without light *)

Module PixelFacts.

Import Sprite Pixel.
Local Open Scope float_scope.

(** The two kinds of intensity that leave no light: a zero of either
    sign, and nan. *)
Lemma is_nan_SF (f : float) : is_nan f = true -> Prim2SF f = S754_nan.
Proof.
  unfold is_nan. rewrite FloatAxioms.eqb_spec. unfold SFeqb.
  destruct (Prim2SF f) as [s | s | | s m e]; cbn; try discriminate;
    [destruct s; discriminate | reflexivity |].
  destruct s; rewrite Z.compare_refl, Pos.compare_cont_refl; discriminate.
Qed.

Lemma eqb_zero_SF (f : float) :
  (f =? 0) = true -> exists s, Prim2SF f = S754_zero s.
Proof.
  rewrite FloatAxioms.eqb_spec. change (Prim2SF 0) with (S754_zero false). unfold SFeqb.
  destruct (Prim2SF f) as [s | s | | s m e]; cbn; try discriminate;
    [now exists s | destruct s; discriminate | destruct s; discriminate].
Qed.

Lemma lightless_mul (i x : float) :
  lightless (Prim2SF i) -> lightless (Prim2SF (i * x)).
Proof.
  intros H. rewrite FloatAxioms.mul_spec. unfold SF64mul, SFmul.
  destruct H as [-> | [s ->]]; [now left |].
  destruct (Prim2SF x) as [sx | sx | | sx m e];
    [right; eexists; reflexivity | now left | now left
     | right; eexists; reflexivity].
Qed.

Lemma astype_lightless (f : float) :
  lightless (Prim2SF f) -> Np.astype_uint8 f = 0%Z.
Proof.
  intros H. unfold Np.astype_uint8, Np.int.
  assert (Hlt : (f <? 0) = false).
  { rewrite FloatAxioms.ltb_spec. change (Prim2SF 0) with (S754_zero false).
    destruct H as [-> | [s ->]]; reflexivity. }
  rewrite Hlt. unfold Np.floor.
  destruct H as [-> | [s ->]]; reflexivity.
Qed.

Lemma nan_or_zero_lightless (i : float) :
  nan_or_zero i = true -> lightless (Prim2SF i).
Proof.
  unfold nan_or_zero. intros H. apply orb_true_iff in H as [H | H].
  - left. now apply is_nan_SF.
  - right. now apply eqb_zero_SF.
Qed.

(** X27.  A pixel whose intensity is zero or nan comes out as [(0, 0, 0, 0)]:
    black and fully transparent, whatever the colour and the alpha of
    the sprite. *)
Theorem lightless_pixels_are_transparent (intensity : Intensity) (p : params)
    (rgba : RGBA) :
  _apply_color_and_alpha intensity p = Some rgba ->
  Forall2 (Forall2 (fun i px =>
             nan_or_zero i = true -> px = (0, 0, 0, 0)%Z))
          intensity rgba.
Proof.
  unfold _apply_color_and_alpha. intros H.
  apply bind_Some in H as (r & _ & H).
  apply bind_Some in H as (g & _ & H).
  apply bind_Some in H as (b & _ & H).
  injection H as <-.
  induction intensity as [| row rows IH]; [constructor |].
  cbn [map]. constructor; [| exact IH].
  clear IH. induction row as [| i row IH]; [constructor |].
  cbn [map]. constructor; [| exact IH].
  intros Hi. apply nan_or_zero_lightless in Hi.
  rewrite !astype_lightless; [reflexivity | | | |];
    repeat apply lightless_mul; exact Hi.
Qed.

Lemma lightless_pixels_are_transparent_witness :
  Forall2 (Forall2 (fun i px =>
             nan_or_zero i = true -> px = (0, 0, 0, 0)%Z))
          [[0; nan; 0.5]] [[(0, 0, 0, 0); (0, 0, 0, 0); (127, 63, 0, 127)]]%Z.
Proof.
  apply (lightless_pixels_are_transparent [[0; nan; 0.5]]
           {[ "color_g"%string := 127; "color_b"%string := 0 ]}).
  reflexivity.
Defined.

End PixelFacts.
